(** * GuardIA / git-truck-api: the tree pipeline of [utils/jsonUtils.ts]

    A shallow embedding of the tree-walking functions of the API's
    [jsonUtils] module (normaliser, enrichers, metric annotators, aggregate
    reducers, complexity aggregator) and the properties stated about them.

    Modelling conventions.
    - A JavaScript [number] is a rational (every finite binary64 value is
      one) or one of the three special values [Infinity], [-Infinity],
      [NaN].  The arithmetic operators round their exact result to
      binary64, to nearest with ties to even, overflowing to an infinity;
      comparisons are exact.  The sign of zero is not modelled.
    - A JavaScript object used as a string-keyed record is the list of its
      own properties in enumeration order ([Object.keys] order): array-index
      keys first, ascending, then the other keys in creation order.  Where
      the code reads [o[k]] or writes [o[k] = v] on an object made by a
      literal, the members inherited from [Object.prototype] are seen
      ([JsObj.read], [JsObj.assign]).
    - An optional field is an [option]; in-place mutation is state passing:
      a function that mutates its argument returns the mutated node.
    - A thrown [TypeError] is the [TypeError] constructor of [result]. *)

From Stdlib Require Import List String Ascii ZArith NArith QArith Qround Lia Lqa Bool Arith.
From Stdlib Require Import Permutation Sorted DecimalString.
Import ListNotations.

#[local] Close Scope Q_scope.
Local Open Scope string_scope.
Local Open Scope list_scope.

(* ================================================================== *)
(** ** JavaScript numbers *)

Module JsNum.
Local Open Scope Q_scope.

Inductive number : Type :=
| Fin (q : Q)
| PInf
| NInf
| NaN.

Definition of_Z (z : Z) : number := Fin (inject_Z z).
Definition of_nat (n : nat) : number := of_Z (Z.of_nat n).

Definition Qlt_b (a b : Q) : bool := negb (Qle_bool b a).
Definition Qpos_b (q : Q) : bool := Qlt_b 0 q.
Definition Qneg_b (q : Q) : bool := Qlt_b q 0.

Definition neg (a : number) : number :=
  match a with
  | Fin x => Fin (- x)
  | PInf => NInf
  | NInf => PInf
  | NaN => NaN
  end.

(** *** Rounding to binary64

    A finite binary64 value is [m * 2^e * 2^-1074] for integers
    [0 <= e <= 2045] and [|m| < 2^53], with [2^52 <= |m|] when [0 < e]:
    an integer number of units of [2^-1074] that has at most 53
    significant bits.  [round64 q] is the value nearest to [q], the one
    with the even [m] when two are equally near, and an infinity from
    [2^1024] on. *)

(** The integer nearest to [N / D], the even one at a tie ([0 <= N],
    [0 < D]). *)
Definition nearest_even (N D : Z) : Z :=
  let k := (N / D)%Z in
  match (2 * (N mod D) ?= D)%Z with
  | Lt => k
  | Gt => (k + 1)%Z
  | Eq => if Z.even k then k else (k + 1)%Z
  end.

(** The exponent [e] of the values around [n / d] units: [2^52 <=
    (n / d) / 2^e < 2^53], or 0 when [n / d] is below [2^52]. *)
Definition grid_exponent (n d : Z) : Z :=
  let g := (Z.log2 n - Z.log2 d)%Z in
  Z.max 0 ((if (n <? d * 2 ^ g)%Z then g - 1 else g) - 52).

(** [n / d] units rounded to a number of units, for [0 < n] and
    [0 < d]. *)
Definition round_units (n d : Z) : Z :=
  let e := grid_exponent n d in
  (nearest_even n (d * 2 ^ e) * 2 ^ e)%Z.

(** The number that is [K] units. *)
Definition of_units (K : Z) : number :=
  if (2 ^ 2098 <=? K)%Z then PInf else Fin (Qred (K # 2 ^ 1074)).

(** [n / d] rounded, for [0 < n] and [0 < d]. *)
Definition round_pos (n d : Z) : number :=
  of_units (round_units (n * 2 ^ 1074) d).

Definition round64 (q : Q) : number :=
  match Qnum q with
  | Z0 => Fin 0
  | Zpos n => round_pos (Zpos n) (Zpos (Qden q))
  | Zneg n => neg (round_pos (Zpos n) (Zpos (Qden q)))
  end.

(** The numbers of units that are binary64 values, and the rationals that
    are: rounding leaves them as they are. *)
Definition rep (K : Z) : Prop :=
  exists m e, (K = m * 2 ^ e /\ 0 <= e /\ 0 <= m <= 2 ^ 53 /\
               (0 < e -> 2 ^ 52 <= m))%Z.

Definition binary64 (q : Q) : Prop :=
  match round64 q with
  | Fin r => r == q
  | _ => False
  end.

(** [a + b] *)
Definition add (a b : number) : number :=
  match a, b with
  | NaN, _ | _, NaN => NaN
  | Fin x, Fin y => round64 (x + y)
  | PInf, NInf | NInf, PInf => NaN
  | PInf, _ | _, PInf => PInf
  | NInf, _ | _, NInf => NInf
  end.

(** [a - b] *)
Definition sub (a b : number) : number := add a (neg b).

(** The sign of a number that is not [NaN]: [Gt], [Eq] or [Lt]. *)
Definition sign (a : number) : option comparison :=
  match a with
  | Fin x => Some (if Qpos_b x then Gt else if Qneg_b x then Lt else Eq)
  | PInf => Some Gt
  | NInf => Some Lt
  | NaN => None
  end.

(** [a * b] *)
Definition mul (a b : number) : number :=
  match a, b with
  | Fin x, Fin y => round64 (x * y)
  | _, _ =>
      match sign a, sign b with
      | Some Gt, Some Gt | Some Lt, Some Lt => PInf
      | Some Gt, Some Lt | Some Lt, Some Gt => NInf
      | _, _ => NaN
      end
  end.

(** [a / b]; a zero divisor is [+0]. *)
Definition div (a b : number) : number :=
  match a, b with
  | NaN, _ | _, NaN => NaN
  | Fin x, Fin y =>
      if Qeq_bool y 0 then
        if Qpos_b x then PInf else if Qneg_b x then NInf else NaN
      else round64 (x / y)
  | Fin _, _ => Fin 0
  | PInf, Fin y => if Qneg_b y then NInf else PInf
  | NInf, Fin y => if Qneg_b y then PInf else NInf
  | _, _ => NaN
  end.

(** [Math.round]: the nearest integer, a half rounding towards
    [+Infinity].  The result is exact: a binary64 value of magnitude
    [2^52] or more is an integer already. *)
Definition Math_round (a : number) : number :=
  match a with
  | Fin x => of_Z (Qfloor (x + (1 # 2)))
  | _ => a
  end.

(** [a > b] *)
Definition gt (a b : number) : bool :=
  match a, b with
  | NaN, _ | _, NaN => false
  | Fin x, Fin y => Qlt_b y x
  | PInf, PInf => false
  | PInf, _ => true
  | _, NInf => match a with NInf => false | _ => true end
  | _, _ => false
  end.

(** [a === b] on numbers. *)
Definition eqb (a b : number) : bool :=
  match a, b with
  | Fin x, Fin y => Qeq_bool x y
  | PInf, PInf | NInf, NInf => true
  | _, _ => false
  end.

(** [Math.min(a, b)] and [Math.max(a, b)]. *)
Definition Math_min (a b : number) : number :=
  match a, b with
  | NaN, _ | _, NaN => NaN
  | _, _ => if gt a b then b else a
  end.

Definition Math_max (a b : number) : number :=
  match a, b with
  | NaN, _ | _, NaN => NaN
  | _, _ => if gt b a then b else a
  end.

Definition is_NaN (a : number) : bool :=
  match a with NaN => true | _ => false end.

End JsNum.
Export JsNum.

(* ================================================================== *)
(** ** JavaScript objects as ordered string-keyed records *)

Module JsObj.

Definition digit_of (c : ascii) : option N :=
  let n := N_of_ascii c in
  if (48 <=? n)%N && (n <=? 57)%N then Some (n - 48)%N else None.

Fixpoint parse_digits (acc : N) (s : string) : option N :=
  match s with
  | EmptyString => Some acc
  | String c r =>
      match digit_of c with
      | Some d => parse_digits (10 * acc + d)%N r
      | None => None
      end
  end.

(** A property key is an array index when it is the canonical decimal
    form of an integer in [0, 2^32 - 2]. *)
Definition array_index (s : string) : option N :=
  match s with
  | EmptyString => None
  | String c r =>
      if Ascii.eqb c "0"%char && negb (String.eqb r "") then None
      else match parse_digits 0 s with
           | Some n => if (n <? 4294967295)%N then Some n else None
           | None => None
           end
  end.

Definition is_index (s : string) : bool :=
  match array_index s with Some _ => true | None => false end.

(** The names of the members of [Object.prototype]. *)
Abbreviation prototype_members :=
  ["constructor"; "hasOwnProperty"; "isPrototypeOf"; "propertyIsEnumerable";
   "toLocaleString"; "toString"; "valueOf"; "__proto__";
   "__defineGetter__"; "__defineSetter__"; "__lookupGetter__";
   "__lookupSetter__"].

Definition inherited (k : string) : bool :=
  existsb (String.eqb k) prototype_members.

Section Obj.
Context {V : Type}.

Definition t := list (string * V).

Definition empty : t := [].

(** [Object.keys(o)], [Object.entries(o)] *)
Definition keys (o : t) : list string := map fst o.
Definition entries (o : t) : list (string * V) := o.

(** [o[k]]; [None] is [undefined]. *)
Fixpoint get (o : t) (k : string) : option V :=
  match o with
  | [] => None
  | (k', v) :: r => if String.eqb k' k then Some v else get r k
  end.

Definition has (o : t) (k : string) : bool :=
  match get o k with Some _ => true | None => false end.

Fixpoint replace (o : t) (k : string) (v : V) : t :=
  match o with
  | [] => []
  | (k', v') :: r =>
      if String.eqb k' k then (k', v) :: r else (k', v') :: replace r k v
  end.

(** The position of a new array-index key [i]: before the first key that
    is not an array index or is a larger one. *)
Fixpoint insert_index (o : t) (i : N) (k : string) (v : V) : t :=
  match o with
  | [] => [(k, v)]
  | (k', v') :: r =>
      match array_index k' with
      | Some j =>
          if (j <? i)%N then (k', v') :: insert_index r i k v
          else (k, v) :: o
      | None => (k, v) :: o
      end
  end.

(** The own property [k] is given the value [v]: replaced in place, or
    created at its place in the enumeration order. *)
Definition set (o : t) (k : string) (v : V) : t :=
  if has o k then replace o k v
  else match array_index k with
       | Some i => insert_index o i k v
       | None => o ++ [(k, v)]
       end.

(** [{ [k]: v }]: a computed key defines an own property, whatever its
    name. *)
Definition singleton (k : string) (v : V) : t := set empty k v.

(** What [o[k]] evaluates to on an object whose prototype is
    [Object.prototype]: the own property, else the inherited member of
    that name (a function, or [Object.prototype] itself for ['__proto__']),
    else [undefined]. *)
Inductive Read : Type :=
| Own (v : V)
| Inherited
| Undefined.

Definition read (o : t) (k : string) : Read :=
  match get o k with
  | Some v => Own v
  | None => if inherited k then Inherited else Undefined
  end.

(** [o[k] = v] for a value [v] that is not an object: an own property is
    written; without one, the name ['__proto__'] reaches the setter
    inherited from [Object.prototype], which ignores such a value, and any
    other name creates the property (the inherited members are writable
    data properties). *)
Definition assign (o : t) (k : string) (v : V) : t :=
  if negb (has o k) && String.eqb k "__proto__" then o else set o k v.

End Obj.
Arguments t : clear implicits.
Arguments Read : clear implicits.

End JsObj.

(* ================================================================== *)
(** ** [Array.prototype.sort] *)

(** [sort] is stable; the comparator's result [v] is read as [+0] when it
    is [NaN], and [b] is placed before [a] exactly when [v > 0].  On a
    consistent comparator every stable sort returns the list computed
    here.  On an inconsistent one (a [NaN] between elements that other
    comparisons order) the language leaves the order to the
    implementation; the properties of the order are stated below for
    consistent comparators only. *)
Section ArraySort.
Context {A : Type} (comparefn : A -> A -> number).

Definition after (a b : A) : bool := gt (comparefn a b) (Fin 0).

Fixpoint sort_insert (a : A) (l : list A) : list A :=
  match l with
  | [] => [a]
  | b :: r => if after a b then b :: sort_insert a r else a :: l
  end.

Fixpoint sort (l : list A) : list A :=
  match l with
  | [] => []
  | a :: r => sort_insert a (sort r)
  end.
End ArraySort.

(** Orders by an integer key, larger keys first. *)
Definition desc {A : Type} (key : A -> Z) (a b : A) : Prop := (key b <= key a)%Z.

(** The elements whose key is [z]. *)
Definition with_key {A : Type} (key : A -> Z) (z : Z) (a : A) : bool :=
  (key a =? z)%Z.

(* ================================================================== *)
(** ** The error monad of the traversals *)

Inductive result (A : Type) : Type :=
| Ok (a : A)
| TypeError.
Arguments Ok {A} a.
Arguments TypeError {A}.

Definition bind {A B : Type} (m : result A) (f : A -> result B) : result B :=
  match m with
  | Ok a => f a
  | TypeError => TypeError
  end.

Notation "x <- m ;; k" := (bind m (fun x => k))
  (at level 61, m at next level, right associativity).

(** [xs.forEach(f)] where [f] mutates its argument and may throw. *)
Definition forEachM {A : Type} (f : A -> result A) : list A -> result (list A) :=
  fix go (l : list A) : result (list A) :=
    match l with
    | [] => Ok []
    | x :: r =>
        match f x with
        | Ok x' => match go r with Ok r' => Ok (x' :: r') | TypeError => TypeError end
        | TypeError => TypeError
        end
    end.

(* ================================================================== *)
(** ** Data model *)

(** [interface Author] *)
Record Author : Type := mkAuthor {
  author : string;
  contribution : number }.

(** [interface Commit] *)
Record Commit : Type := mkCommit {
  hash : string;
  message : string;
  date : string }.

(** [interface RawCommit] *)
Record RawCommit : Type := mkRawCommit {
  raw_hash : string;
  raw_message : string;
  time : Z;
  raw_author : string }.

(** An element of [commits?: string[] | Commit[]]: a hash, a record, or
    the record [{ hash: undefined, message: undefined, date }] that the
    commit enricher builds from a value that has none of the fields of a
    commit. *)
Inductive CommitEntry : Type :=
| CHash (h : string)
| CRecord (c : Commit)
| CBlank (date : string).

(** The property key an element denotes when it is used as [o[e]]: a
    string is itself, an object is converted by [Object.prototype.toString]. *)
Definition toPropertyKey (e : CommitEntry) : string :=
  match e with
  | CHash h => h
  | CRecord _ | CBlank _ => "[object Object]"
  end.

(** What [commitsJson[h]] holds when it is not [undefined]: a record of
    the dictionary, or the member of [Object.prototype] named [h]. *)
Inductive Resolved : Type :=
| Raw (commit : RawCommit)
| Member (name : string).

(** [commit.time] in a subtraction; a member has no [time], and
    [undefined] converts to [NaN]. *)
Definition time_of (commit : Resolved) : number :=
  match commit with
  | Raw c => of_Z (time c)
  | Member _ => NaN
  end.

(** [interface TreeNode] *)
#[local] Unset Elimination Schemes.
Inductive TreeNode : Type := mkNode {
  type : string;
  authors : option (JsObj.t number);
  children : option (list TreeNode);
  lastChangeEpoch : option Z;
  lastChangeEpochFormatted : option string;
  commits : option (list CommitEntry);
  singleAuthor : option bool;
  topContributor : option string }.
#[local] Set Elimination Schemes.

Definition set_authors (n : TreeNode) (a : JsObj.t number) : TreeNode :=
  mkNode (type n) (Some a) (children n) (lastChangeEpoch n)
         (lastChangeEpochFormatted n) (commits n) (singleAuthor n) (topContributor n).

Definition set_children (n : TreeNode) (cs : list TreeNode) : TreeNode :=
  mkNode (type n) (authors n) (Some cs) (lastChangeEpoch n)
         (lastChangeEpochFormatted n) (commits n) (singleAuthor n) (topContributor n).

Definition set_lastChangeEpochFormatted (n : TreeNode) (s : string) : TreeNode :=
  mkNode (type n) (authors n) (children n) (lastChangeEpoch n)
         (Some s) (commits n) (singleAuthor n) (topContributor n).

Definition set_commits (n : TreeNode) (cs : list CommitEntry) : TreeNode :=
  mkNode (type n) (authors n) (children n) (lastChangeEpoch n)
         (lastChangeEpochFormatted n) (Some cs) (singleAuthor n) (topContributor n).

Definition set_singleAuthor (n : TreeNode) (b : bool) : TreeNode :=
  mkNode (type n) (authors n) (children n) (lastChangeEpoch n)
         (lastChangeEpochFormatted n) (commits n) (Some b) (topContributor n).

Definition set_topContributor (n : TreeNode) (s : string) : TreeNode :=
  mkNode (type n) (authors n) (children n) (lastChangeEpoch n)
         (lastChangeEpochFormatted n) (commits n) (singleAuthor n) (Some s).

(** Induction over a tree with the hypothesis on every child. *)
Section TreeInd.
Variable P : TreeNode -> Prop.
Hypothesis Hleaf : forall ty au ep ef co sa tc,
    P (mkNode ty au None ep ef co sa tc).
Hypothesis Hnode : forall ty au cs ep ef co sa tc,
    Forall P cs -> P (mkNode ty au (Some cs) ep ef co sa tc).

Fixpoint TreeNode_ind' (n : TreeNode) : P n :=
  match n with
  | mkNode ty au None ep ef co sa tc => Hleaf ty au ep ef co sa tc
  | mkNode ty au (Some cs) ep ef co sa tc =>
      Hnode ty au cs ep ef co sa tc
        ((fix all (l : list TreeNode) : Forall P l :=
            match l with
            | [] => Forall_nil P
            | c :: r => Forall_cons c (TreeNode_ind' c) (all r)
            end) cs)
  end.
End TreeInd.

(** The node reached from [t] by a path of child positions. *)
Fixpoint node_at (t : TreeNode) (p : list nat) : option TreeNode :=
  match p with
  | [] => Some t
  | i :: p' =>
      match children t with
      | Some cs =>
          match nth_error cs i with
          | Some c => node_at c p'
          | None => None
          end
      | None => None
      end
  end.

(** All nodes of a tree, the root first, in depth-first order. *)
Fixpoint nodes (t : TreeNode) : list TreeNode :=
  t :: match t with
       | mkNode _ _ (Some cs) _ _ _ _ _ => flat_map nodes cs
       | _ => []
       end.

Definition is_blob (n : TreeNode) : bool := String.eqb (type n) "blob".
Definition is_tree (n : TreeNode) : bool := String.eqb (type n) "tree".

(* ================================================================== *)
(** ** AuthorValueNormalizer: [updateAuthorValues] *)

(** [authors[key]] read as a number; [undefined] behaves as [NaN] in
    arithmetic. *)
Definition weight_of (a : JsObj.t number) (key : string) : number :=
  match JsObj.get a key with
  | Some v => v
  | None => NaN
  end.

Definition totalSum (a : JsObj.t number) : number :=
  fold_left (fun sum key => add sum (weight_of a key)) (JsObj.keys a) (Fin 0).

Definition authorsWithPercentage (a : JsObj.t number) : list Author :=
  map (fun key =>
         let proportion := div (weight_of a key) (totalSum a) in
         let percentage := Math_round (mul proportion (Fin 100)) in
         mkAuthor key percentage)
      (JsObj.keys a).

Definition byContributionDesc (a b : Author) : number :=
  sub (contribution b) (contribution a).

Definition sortedAuthors (a : JsObj.t number) : JsObj.t number :=
  fold_left (fun o authorObj =>
               JsObj.assign o (author authorObj) (contribution authorObj))
            (sort byContributionDesc (authorsWithPercentage a))
            JsObj.empty.

Fixpoint updateAuthorValues (jsonObj : TreeNode) : TreeNode :=
  match jsonObj with
  | mkNode ty au ch ep ef co sa tc =>
      let au' := match au with
                 | Some a => Some (sortedAuthors a)
                 | None => None
                 end in
      let ch' := match ch with
                 | Some cs => Some (map updateAuthorValues cs)
                 | None => None
                 end in
      mkNode ty au' ch' ep ef co sa tc
  end.

(* ================================================================== *)
(** ** DateEnricher and CommitEnricher *)

(** [String(n)] for an integer [n], and for [NaN], which is [None]. *)
Definition Number_toString (n : option Z) : string :=
  match n with
  | Some z => NilZero.string_of_int (Z.to_int z)
  | None => "NaN"
  end.

Section Enrichers.
(** [Date] objects belong to the environment (they read the local time
    zone): [newDate v] is [new Date(v)], and the three getters are the
    ones [formatDate] calls; a getter returns an integer, or [NaN] on an
    invalid date. *)
Variable Date : Type.
Variable newDate : number -> Date.
Variable getDate getMonth getFullYear : Date -> option Z.

(** [dateUtils.ts] *)
Definition convertUnixTimeToDate (unixTime : Z) : Date :=
  newDate (mul (of_Z unixTime) (Fin 1000)).

Definition monthNames : list string :=
  ["Ene"; "Feb"; "Mar"; "Abr"; "May"; "Jun";
   "Jul"; "Ago"; "Sep"; "Oct"; "Nov"; "Dic"].

Definition formatDate (date : Date) : string :=
  let day := getDate date in
  let monthIndex := getMonth date in
  let year := getFullYear date in
  let monthAbbr :=
    match monthIndex with
    | Some i =>
        if (i <? 0)%Z then "undefined" else nth (Z.to_nat i) monthNames "undefined"
    | None => "undefined"
    end in
  Number_toString day ++ " " ++ monthAbbr ++ " " ++ Number_toString year.

Fixpoint updateLastChangeDate (jsonObj : TreeNode) : result TreeNode :=
  match jsonObj with
  | mkNode ty au ch ep ef co sa tc =>
      match String.eqb ty "blob", ep with
      | true, Some e =>
          Ok (set_lastChangeEpochFormatted jsonObj
                (formatDate (convertUnixTimeToDate e)))
      | _, _ =>
          if String.eqb ty "tree" then
            match ch with
            | None => TypeError
            | Some cs =>
                cs' <- forEachM updateLastChangeDate cs ;;
                Ok (mkNode ty au (Some cs') ep ef co sa tc)
            end
          else Ok jsonObj
      end
  end.

Definition byTimeDesc (a b : Resolved) : number :=
  sub (time_of b) (time_of a).

(** [{ hash: commit.hash, message: commit.message, date: ... }]; a
    missing [time] makes the date [new Date(NaN)]. *)
Definition enrich (commit : Resolved) : CommitEntry :=
  match commit with
  | Raw c =>
      CRecord (mkCommit (raw_hash c) (raw_message c)
                        (formatDate (convertUnixTimeToDate (time c))))
  | Member _ => CBlank (formatDate (newDate NaN))
  end.

(** [.map(h => commitsJson[h]).filter(c => c !== undefined)] *)
Fixpoint resolve (commitsJson : JsObj.t RawCommit) (l : list CommitEntry)
  : list Resolved :=
  match l with
  | [] => []
  | e :: r =>
      match JsObj.read commitsJson (toPropertyKey e) with
      | JsObj.Own c => Raw c :: resolve commitsJson r
      | JsObj.Inherited => Member (toPropertyKey e) :: resolve commitsJson r
      | JsObj.Undefined => resolve commitsJson r
      end
  end.

Definition updatedCommits (commitsJson : JsObj.t RawCommit)
           (l : list CommitEntry) : list CommitEntry :=
  map enrich (sort byTimeDesc (resolve commitsJson l)).

Fixpoint updateCommits (commitsJson : JsObj.t RawCommit) (jsonObj : TreeNode)
  : result TreeNode :=
  match jsonObj with
  | mkNode ty au ch ep ef co sa tc =>
      match String.eqb ty "blob", co with
      | true, Some l =>
          Ok (set_commits jsonObj (updatedCommits commitsJson l))
      | _, _ =>
          if String.eqb ty "tree" then
            match ch with
            | None => TypeError
            | Some cs =>
                cs' <- forEachM (updateCommits commitsJson) cs ;;
                Ok (mkNode ty au (Some cs') ep ef co sa tc)
            end
          else Ok jsonObj
      end
  end.

Definition updateRepositoryCommits (commitsJson : JsObj.t RawCommit)
           (repositoryJson : TreeNode) : result TreeNode :=
  updateCommits commitsJson repositoryJson.
End Enrichers.

(* ================================================================== *)
(** ** MetricsAnnotator: [addMetrics], [addSingleAuthor], [addTopContributor] *)

(** [authors || {}] *)
Definition authors_or_empty (au : option (JsObj.t number)) : JsObj.t number :=
  match au with
  | Some a => a
  | None => JsObj.empty
  end.

(** [Object.keys(authors || {}).length === 1 ? true : false] *)
Definition singleAuthorFlag (au : option (JsObj.t number)) : bool :=
  Nat.eqb (List.length (JsObj.keys (authors_or_empty au))) 1.

(** One step of the loop of [addTopContributor]: the pair is
    [(maxContributions, topContributor)]. *)
Definition topStep (st : number * string) (e : string * number) : number * string :=
  let '(maxContributions, topContributor) := st in
  let '(author, contribution) := e in
  if gt contribution maxContributions then (contribution, author)
  else (maxContributions, topContributor).

Definition scanTop (es : list (string * number)) : number * string :=
  fold_left topStep es (of_Z (-1), "").

Definition topContributorOf (au : option (JsObj.t number)) : string :=
  match au with
  | Some a => snd (scanTop (JsObj.entries a))
  | None => ""
  end.

Fixpoint addTopContributor (node : TreeNode) : TreeNode :=
  match node with
  | mkNode ty au ch ep ef co sa tc =>
      let tc' := if String.eqb ty "blob" then Some (topContributorOf au) else tc in
      let ch' := match ch with
                 | Some cs =>
                     if (0 <? List.length cs)%nat then Some (map addTopContributor cs)
                     else ch
                 | None => None
                 end in
      mkNode ty au ch' ep ef co sa tc'
  end.

(** The recursion of [addSingleAuthor] goes through [addMetrics], which is
    [addSingleAuthor] followed by [addTopContributor] on the same node. *)
Fixpoint addSingleAuthor (jsonData : TreeNode) : TreeNode :=
  match jsonData with
  | mkNode ty au ch ep ef co sa tc =>
      let sa' := if String.eqb ty "blob" then Some (singleAuthorFlag au) else sa in
      let ch' := match ch with
                 | Some cs =>
                     if (0 <? List.length cs)%nat then
                       Some (map (fun child =>
                                    addTopContributor (addSingleAuthor child)) cs)
                     else ch
                 | None => None
                 end in
      mkNode ty au ch' ep ef co sa' tc
  end.

Definition addMetrics (jsonData : TreeNode) : TreeNode :=
  addTopContributor (addSingleAuthor jsonData).

(** [annotated b b']: [b'] is [b] with both metrics set when it is a blob. *)
Definition annotated (b b' : TreeNode) : Prop :=
  type b' = type b /\
  authors b' = authors b /\
  singleAuthor b'
  = (if is_blob b then Some (singleAuthorFlag (authors b)) else singleAuthor b) /\
  topContributor b'
  = (if is_blob b then Some (topContributorOf (authors b)) else topContributor b).

(* ================================================================== *)
(** ** AggregateStatsCalculator *)

Fixpoint getMinCommits (jsonObj : TreeNode) : number :=
  match jsonObj with
  | mkNode ty au ch ep ef co sa tc =>
      let minCommits := PInf in
      let minCommits :=
        match String.eqb ty "blob", co with
        | true, Some l => Math_min minCommits (of_nat (List.length l))
        | _, _ => minCommits
        end in
      let minCommits :=
        match ch with
        | Some cs =>
            fold_left (fun m child => Math_min m (getMinCommits child)) cs minCommits
        | None => minCommits
        end in
      if eqb minCommits PInf then of_Z 0 else minCommits
  end.

Fixpoint getMaxCommits (jsonObj : TreeNode) : number :=
  match jsonObj with
  | mkNode ty au ch ep ef co sa tc =>
      let maxCommits := of_Z 0 in
      let maxCommits :=
        match String.eqb ty "blob", co with
        | true, Some l => Math_max maxCommits (of_nat (List.length l))
        | _, _ => maxCommits
        end in
      match ch with
      | Some cs =>
          fold_left (fun m child => Math_max m (getMaxCommits child)) cs maxCommits
      | None => maxCommits
      end
  end.

Fixpoint getFirstChangeEpoch (jsonObj : TreeNode) : number :=
  match jsonObj with
  | mkNode ty au ch ep ef co sa tc =>
      let firstChange := PInf in
      let firstChange :=
        match String.eqb ty "blob", ep with
        | true, Some e => Math_min firstChange (of_Z e)
        | _, _ => firstChange
        end in
      let firstChange :=
        match ch with
        | Some cs =>
            fold_left (fun m child => Math_min m (getFirstChangeEpoch child))
                      cs firstChange
        | None => firstChange
        end in
      if eqb firstChange PInf then of_Z 0 else firstChange
  end.

Fixpoint getLastChangeEpoch (jsonObj : TreeNode) : number :=
  match jsonObj with
  | mkNode ty au ch ep ef co sa tc =>
      let lastChange := of_Z 0 in
      let lastChange :=
        match String.eqb ty "blob", ep with
        | true, Some e => Math_max lastChange (of_Z e)
        | _, _ => lastChange
        end in
      match ch with
      | Some cs =>
          fold_left (fun m child => Math_max m (getLastChangeEpoch child))
                    cs lastChange
      | None => lastChange
      end
  end.

(* ================================================================== *)
(** ** ComplexityAggregator: [calculateComplexityMetric] *)

Fixpoint calculateComplexity (node : TreeNode) : nat :=
  match node with
  | mkNode ty au ch ep ef co sa tc =>
      if String.eqb ty "blob" then 1
      else match ch with
           | Some cs =>
               fold_left (fun sum child => sum + calculateComplexity child) cs 0
           | None => 0
           end
  end.

(** An entry of [authorComplexity]: a count, [NaN], or the string that
    [+=] builds from a member of [Object.prototype]: the text of the
    member named [member] followed by the decimal digits of each number
    of [appended]. *)
Inductive Tally : Type :=
| Count (n : nat)
| NotANumber
| Text (member : string) (appended : list nat).

(** [!authorComplexity[author]]: [undefined], [0] and [NaN] are falsy; a
    member of [Object.prototype] and a string built from one are truthy. *)
Definition falsy (v : JsObj.Read Tally) : bool :=
  match v with
  | JsObj.Undefined | JsObj.Own (Count 0) | JsObj.Own NotANumber => true
  | JsObj.Own (Count (S _)) | JsObj.Own (Text _ _) | JsObj.Inherited => false
  end.

(** [authorComplexity[author] + c]: a sum of numbers, or a concatenation
    when the left operand is a string or converts to one. *)
Definition plus (author : string) (v : JsObj.Read Tally) (c : nat) : Tally :=
  match v with
  | JsObj.Own (Count n) => Count (n + c)
  | JsObj.Own NotANumber | JsObj.Undefined => NotANumber
  | JsObj.Own (Text member appended) => Text member (appended ++ [c])
  | JsObj.Inherited => Text author [c]
  end.

(** The body of the [for ... of Object.entries(node.authors)] loop. *)
Definition credit (c : nat) (authorComplexity : JsObj.t Tally) (e : string * number)
  : JsObj.t Tally :=
  let author := fst e in
  let o := if falsy (JsObj.read authorComplexity author)
           then JsObj.assign authorComplexity author (Count 0)
           else authorComplexity in
  JsObj.assign o author (plus author (JsObj.read o author) c).

Fixpoint traverseTree (node : TreeNode) (authorComplexity : JsObj.t Tally)
  : JsObj.t Tally :=
  match node with
  | mkNode ty au ch ep ef co sa tc =>
      let o := match au with
               | Some a =>
                   fold_left (credit (calculateComplexity node))
                             (JsObj.entries a) authorComplexity
               | None => authorComplexity
               end in
      match ch with
      | Some cs => fold_left (fun acc child => traverseTree child acc) cs o
      | None => o
      end
  end.

Definition calculateComplexityMetric (tree : TreeNode) : JsObj.t Tally :=
  traverseTree tree JsObj.empty.

(* ================================================================== *)
(** ** A sample environment: [Date] in the UTC time zone *)

Module UTC.
Local Open Scope Z_scope.

(** A date is its time value, in milliseconds since the epoch; [None] is
    an invalid date.  [new Date(v)] is invalid when [v] is not finite or
    beyond 8.64e15 in magnitude; a fraction is dropped. *)
Definition Date : Type := option Z.

Definition newDate (v : number) : Date :=
  match v with
  | Fin q =>
      let ms := Z.quot (Qnum q) (Z.pos (Qden q)) in
      if Z.abs ms <=? 8640000000000000 then Some ms else None
  | _ => None
  end.

(** Year, month (from 1) and day of the civil date that is [days] days
    after 1970-01-01. *)
Definition civil (days : Z) : Z * Z * Z :=
  let z := days + 719468 in
  let era := z / 146097 in
  let doe := z - era * 146097 in
  let yoe := (doe - doe / 1460 + doe / 36524 - doe / 146096) / 365 in
  let doy := doe - (365 * yoe + yoe / 4 - yoe / 100) in
  let mp := (5 * doy + 2) / 153 in
  let d := doy - (153 * mp + 2) / 5 + 1 in
  let m := if mp <? 10 then mp + 3 else mp - 9 in
  let y := yoe + era * 400 + (if m <=? 2 then 1 else 0) in
  (y, m, d).

Definition getFullYear (d : Date) : option Z :=
  option_map (fun ms => fst (fst (civil (ms / 86400000)))) d.
Definition getMonth (d : Date) : option Z :=
  option_map (fun ms => snd (fst (civil (ms / 86400000))) - 1) d.
Definition getDate (d : Date) : option Z :=
  option_map (fun ms => snd (civil (ms / 86400000))) d.

Definition updateLastChangeDate := updateLastChangeDate Date newDate getDate getMonth getFullYear.
Definition updateCommits := updateCommits Date newDate getDate getMonth getFullYear.
Definition enrich := enrich Date newDate getDate getMonth getFullYear.

End UTC.

(* ================================================================== *)
(** ** Sample trees *)

Definition leaf (ty : string) : TreeNode :=
  mkNode ty None None None None None None None.

Definition dir (cs : list TreeNode) : TreeNode :=
  mkNode "tree" None (Some cs) None None None None None.

(** The tree and the commit dictionary of the worked example. *)
Definition exampleBlob : TreeNode :=
  mkNode "blob" (Some [("A", of_Z 3); ("B", of_Z 1)]) None (Some 1700000000%Z)
         None (Some [CHash "h1"; CHash "h2"]) None None.

Definition exampleTree : TreeNode := dir [exampleBlob].

Definition exampleCommits : JsObj.t RawCommit :=
  [("h1", mkRawCommit "h1" "m1" 1700000000 "A");
   ("h2", mkRawCommit "h2" "m2" 1690000000 "B")].

(** A dictionary with two commits of the same [time], and a blob whose
    list names them and a hash that the dictionary lacks. *)
Definition tiedCommits : JsObj.t RawCommit :=
  [("h1", mkRawCommit "h1" "m1" 1700000000 "A");
   ("h2", mkRawCommit "h2" "m2" 1690000000 "B");
   ("h3", mkRawCommit "h3" "m3" 1700000000 "A")].

Definition tiedBlob : TreeNode :=
  mkNode "blob" None None None None
         (Some [CHash "h2"; CHash "h1"; CHash "h0"; CHash "h3"]) None None.

(** A directory node that carries raw author weights and no [children]. *)
Definition authoredDir : TreeNode :=
  mkNode "tree" (Some [("A", of_Z 1); ("B", of_Z 3)]) None None None None None None.

(** [exampleBlob] after one pass of the commit enricher, in UTC. *)
Definition enrichedBlob : TreeNode :=
  mkNode "blob" (Some [("A", of_Z 3); ("B", of_Z 1)]) None (Some 1700000000%Z)
         None
         (Some [CRecord (mkCommit "h1" "m1" "14 Nov 2023");
                CRecord (mkCommit "h2" "m2" "22 Jul 2023")])
         None None.

(** A blob whose single author has raw weight 0. *)
Definition zeroWeightBlob : TreeNode :=
  mkNode "blob" (Some [("A", of_Z 0)]) None None None None None None.

(** A directory with a blob that has two commits and a blob that has no
    [commits] and no [lastChangeEpoch]; and one with an empty
    sub-directory instead. *)
Definition partialTree : TreeNode := dir [exampleBlob; leaf "blob"].
Definition sparseTree : TreeNode := dir [exampleBlob; dir []].

(* ================================================================== *)
(** ** The quantities the statistics are stated about *)

(** A string of hexadecimal digits, as git writes a hash. *)
Definition hex_digit (c : ascii) : bool :=
  let n := N_of_ascii c in
  ((48 <=? n) && (n <=? 57) || (97 <=? n) && (n <=? 102))%N.

Fixpoint hexadecimal (s : string) : bool :=
  match s with
  | EmptyString => true
  | String c r => hex_digit c && hexadecimal r
  end.



(** [len(commits)] of a blob that has a [commits] field, and of every such
    blob of a tree. *)
Definition commitCount (n : TreeNode) : list Z :=
  match is_blob n, commits n with
  | true, Some l => [Z.of_nat (List.length l)]
  | _, _ => []
  end.

Definition commitCounts (t : TreeNode) : list Z := flat_map commitCount (nodes t).

(** [lastChangeEpoch] of a blob that has one, and of every such blob of a
    tree. *)
Definition changeEpoch (n : TreeNode) : list Z :=
  match is_blob n, lastChangeEpoch n with
  | true, Some e => [e]
  | _, _ => []
  end.

Definition changeEpochs (t : TreeNode) : list Z := flat_map changeEpoch (nodes t).

(** Every subtree of [t] holds a blob that carries the field read by [f]. *)
Definition populated (f : TreeNode -> list Z) (t : TreeNode) : Prop :=
  Forall (fun n => flat_map f (nodes n) <> []) (nodes t).

Definition minimum (l : list Z) : option Z :=
  match l with
  | [] => None
  | x :: r => Some (fold_left Z.min r x)
  end.

Definition maximum (l : list Z) : option Z :=
  match l with
  | [] => None
  | x :: r => Some (fold_left Z.max r x)
  end.

(* ================================================================== *)
(** ** The quantities the complexity metric is stated about *)

(** The number of blob nodes in the subtree of [n], [n] included. *)
Definition blobCount (n : TreeNode) : nat :=
  List.length (filter is_blob (nodes n)).

(** The node carries an [authors] map that lists [a]. *)
Definition carries (n : TreeNode) (a : string) : bool :=
  match authors n with
  | Some o => JsObj.has o a
  | None => false
  end.

(** The credit of [a] in [t]: the sum, over the nodes of [t] whose map
    lists [a], of the number of blobs under the node. *)
Definition creditOf (t : TreeNode) (a : string) : nat :=
  list_sum (map (fun n => if carries n a then blobCount n else 0%nat) (nodes t)).

Definition listed (t : TreeNode) (a : string) : bool :=
  existsb (fun n => carries n a) (nodes t).

(** The data model: a blob is a leaf, and the keys of an object are
    distinct. *)
Definition leaf_blob (n : TreeNode) : Prop :=
  is_blob n = true -> children n = None \/ children n = Some [].

Definition distinct_keys (n : TreeNode) : Prop :=
  match authors n with
  | Some o => NoDup (JsObj.keys o)
  | None => True
  end.

Definition well_formed (t : TreeNode) : Prop :=
  Forall (fun n => leaf_blob n /\ distinct_keys n) (nodes t).

(** The credits that the traversal gives to [a], one after the other: the
    count of the code at each node whose map lists [a]. *)
Definition credits (t : TreeNode) (a : string) : list nat :=
  flat_map (fun n => if carries n a then [calculateComplexity n] else [])
           (nodes t).

(** What the entry [x] of the author [a] becomes when [a] is credited [c]:
    a count grows; a missing entry starts a count, unless every object
    inherits a member named [a]. *)
Definition credited (a : string) (x : option Tally) (c : nat) : option Tally :=
  match x with
  | Some (Count n) => Some (Count (n + c))
  | Some NotANumber => Some (Count c)
  | Some (Text member appended) => Some (Text member (appended ++ [c]))
  | None =>
      if JsObj.inherited a then
        if String.eqb a "__proto__" then None else Some (Text a [c])
      else Some (Count c)
  end.

(** A blob whose single author is named as a member of
    [Object.prototype]. *)
Definition toStringBlob : TreeNode :=
  mkNode "blob" (Some [("toString", of_Z 100)]) None None None None None None.

(** A directory whose author is also the author of one of its two blobs. *)
Definition sharedTree : TreeNode :=
  mkNode "tree" (Some [("A", of_Z 100)])
         (Some [mkNode "blob" (Some [("A", of_Z 60); ("B", of_Z 40)])
                       None None None None None None;
                mkNode "blob" (Some [("B", of_Z 100)])
                       None None None None None None])
         None None None None None.

(* ================================================================== *)
(** ** The quantities normalisation is stated about *)

(** An [authors] map of finite raw weights, and one of integer
    percentages. *)
Definition rawEntry (e : string * Q) : string * number := (fst e, Fin (snd e)).
Definition pctEntry (e : string * Z) : string * number := (fst e, of_Z (snd e)).

(** [{ author: key, contribution: percentage }] *)
Definition toAuthor (e : string * number) : Author := mkAuthor (fst e) (snd e).

(** The entry that a record defines. *)
Definition fromAuthor (authorObj : Author) : string * number :=
  (author authorObj, contribution authorObj).

(** The total raw weight. *)
Definition total (raw : list (string * Q)) : Q :=
  fold_left Qplus (map snd raw) 0%Q.

(** The total as it is computed: the weights added one after the other,
    each sum rounded to binary64. *)
Definition roundedTotal (raw : list (string * Q)) : number :=
  fold_left (fun sum e => add sum (Fin (snd e))) raw (Fin 0).

(** [round(weight / totalWeight * 100)] as it is computed, quotient and
    product rounded to binary64, when the result is an integer. *)
Definition percentage (weight : Q) (totalWeight : number) : Z :=
  match Math_round (mul (div (Fin weight) totalWeight) (Fin 100)) with
  | Fin x => Qfloor x
  | _ => 0%Z
  end.

Definition percentages (raw : list (string * Q)) : list (string * Z) :=
  map (fun e => (fst e, percentage (snd e) (roundedTotal raw))) raw.

(** [s] is [Infinity] or a finite number that is at least [c]. *)
Definition above (s : number) (c : Q) : Prop :=
  s = PInf \/ exists x, s = Fin x /\ (c <= x)%Q.

(** Raw maps with array-index keys, and with weights that are all 0. *)
Definition indexKeys : JsObj.t number := [("1", of_Z 1); ("2", of_Z 3)].
Definition zeroWeights : JsObj.t number := [("A", of_Z 0); ("B", of_Z 0)].

Definition blobOf (a : JsObj.t number) : TreeNode :=
  mkNode "blob" (Some a) None None None None None None.

(** A blob with an author named ['__proto__'], as [JSON.parse] makes
    it from the text [{"__proto__": 1, "B": 3}]. *)
Definition protoBlob : TreeNode := blobOf [("__proto__", of_Z 1); ("B", of_Z 3)].

(** A blob with one author. *)
Definition soloBlob : TreeNode := blobOf [("A", of_Z 7)].

(** A running minimum that has seen nothing yet is [Infinity]. *)
Definition ext (o : option Z) : number :=
  match o with
  | Some z => of_Z z
  | None => PInf
  end.

Definition min_opt (o : option Z) (z : Z) : Z :=
  match o with
  | Some a => Z.min a z
  | None => z
  end.

Definition kids (n : TreeNode) : list TreeNode :=
  match children n with
  | Some cs => cs
  | None => []
  end.

(* ================================================================== *)
(** ** ContributionSimplifier: [simplifyContributions] *)

(** [{ [topAuthor]: authors[topAuthor] }] for the first key of a map that
    has one; an empty map is kept.  The first key is a key of the map, so
    the lookup finds a value. *)
Definition simplifiedAuthors (a : JsObj.t number) : JsObj.t number :=
  match JsObj.keys a with
  | [] => a
  | topAuthor :: _ =>
      match JsObj.get a topAuthor with
      | Some v => JsObj.singleton topAuthor v
      | None => a
      end
  end.

(** The copy [{ ...jsonObj }] with [authors] and [children] replaced. *)
Fixpoint simplifyContributions (jsonObj : TreeNode) : TreeNode :=
  match jsonObj with
  | mkNode ty au ch ep ef co sa tc =>
      let au' := match au with
                 | Some a => Some (simplifiedAuthors a)
                 | None => None
                 end in
      let ch' := match ch with
                 | Some cs => Some (map simplifyContributions cs)
                 | None => None
                 end in
      mkNode ty au' ch' ep ef co sa tc
  end.

(* ================================================================== *)
(** ** ContributionGrouper: [getContributionCommitsDetailed] *)

(** The body of the [for ... of commits] loop.  A bucket is an array and
    so truthy; so is a member of [Object.prototype], which has no [push]:
    calling it is a [TypeError]. *)
Definition groupCommit (contributionCommits : JsObj.t (list RawCommit))
           (commit : RawCommit) : result (JsObj.t (list RawCommit)) :=
  let author := raw_author commit in
  let o := match JsObj.read contributionCommits author with
           | JsObj.Undefined => JsObj.set contributionCommits author []
           | _ => contributionCommits
           end in
  match JsObj.read o author with
  | JsObj.Own bucket => Ok (JsObj.set o author (bucket ++ [commit]))
  | _ => TypeError
  end.

Fixpoint groupCommits (commits : list RawCommit)
         (contributionCommits : JsObj.t (list RawCommit))
  : result (JsObj.t (list RawCommit)) :=
  match commits with
  | [] => Ok contributionCommits
  | commit :: rest =>
      o <- groupCommit contributionCommits commit ;;
      groupCommits rest o
  end.

(** The value the returned promise settles with; [None] is an argument
    that is not an array. *)
Definition getContributionCommitsDetailed (commits : option (list RawCommit))
  : result (JsObj.t (list RawCommit)) :=
  match commits with
  | None => Ok JsObj.empty
  | Some l => groupCommits l JsObj.empty
  end.

(** The commits of [tiedCommits] grouped by author. *)
Definition tiedGroups : JsObj.t (list RawCommit) :=
  [("A", [mkRawCommit "h1" "m1" 1700000000 "A";
          mkRawCommit "h3" "m3" 1700000000 "A"]);
   ("B", [mkRawCommit "h2" "m2" 1690000000 "B"])].

(** The commits of one author, in the order of the list. *)
Definition commitsBy (a : string) (commits : list RawCommit) : list RawCommit :=
  filter (fun c => String.eqb (raw_author c) a) commits.

(* ================================================================== *)
(** ** [htmlParser.ts] *)

(** [s.slice(n)] for [n >= 0] and [s.slice(0, -1)]; a character stands for
    a code unit. *)
Fixpoint slice_from (n : nat) (s : string) : string :=
  match n, s with
  | O, _ => s
  | S n', String _ r => slice_from n' r
  | S _, EmptyString => EmptyString
  end.

Fixpoint slice_init (s : string) : string :=
  match s with
  | EmptyString => EmptyString
  | String c EmptyString => EmptyString
  | String c r => String c (slice_init r)
  end.

(** The text handed to [JSON.parse]. *)
Definition contentWithoutLastPart (scriptContent : string) : string :=
  let contentWithoutFirstPart := slice_from 24 scriptContent in
  slice_init contentWithoutFirstPart.

(** The three parsers from the point where the payload has been parsed:
    [tree] is [repository.analyzerData.commit.tree], [authors] is
    [repository.analyzerData.authors] and [commits] is
    [repository.analyzerData.commits]. *)
Record BranchData (A : Type) : Type := mkBranchData {
  bd_tree : TreeNode;
  bd_authors : A;
  bd_minCommits : number;
  bd_maxCommits : number;
  bd_firstChange : number;
  bd_lastChange : number }.
Arguments mkBranchData {A}.
Arguments bd_tree {A}.
Arguments bd_authors {A}.
Arguments bd_minCommits {A}.
Arguments bd_maxCommits {A}.
Arguments bd_firstChange {A}.
Arguments bd_lastChange {A}.

Section Parsers.
Variable Date : Type.
Variable newDate : number -> Date.
Variable getDate getMonth getFullYear : Date -> option Z.

Definition parseBranchData {A : Type} (tree0 : TreeNode) (authors : A)
  : result (BranchData A) :=
  let minCommits := getMinCommits tree0 in
  let maxCommits := getMaxCommits tree0 in
  let firstChange := getFirstChangeEpoch tree0 in
  let lastChange := getLastChangeEpoch tree0 in
  let tree := updateAuthorValues tree0 in
  tree <- updateLastChangeDate Date newDate getDate getMonth getFullYear tree ;;
  let tree := addMetrics tree in
  Ok (mkBranchData tree authors minCommits maxCommits firstChange lastChange).
End Parsers.

Definition parseBranchDataforContributions (tree0 : TreeNode)
           (commits : option (list RawCommit))
  : result (TreeNode * JsObj.t (list RawCommit)) :=
  let tree := updateAuthorValues tree0 in
  contributionCommits <- getContributionCommitsDetailed commits ;;
  let simplifiedTree := simplifyContributions tree in
  Ok (simplifiedTree, contributionCommits).

Definition parseBranchDataforComplexityMetrics (tree0 : TreeNode) : JsObj.t Tally :=
  let tree := updateAuthorValues tree0 in
  calculateComplexityMetric tree.

(** All the commits held by the buckets of a grouping, bucket by bucket. *)
Definition bucketsOf (o : JsObj.t (list RawCommit)) : list RawCommit :=
  List.concat (map snd o).

(** The four statistics of a tree. *)
Definition stats (t : TreeNode) : number * number * number * number :=
  (getMinCommits t, getMaxCommits t, getFirstChangeEpoch t, getLastChangeEpoch t).

(* ================================================================== *)
(** ** The nodes the two enrichers visit *)

(** The node reached from [t] by a path that leaves every node on the way
    through its [children] as a node of type ['tree']. *)
Fixpoint reach (t : TreeNode) (p : list nat) : option TreeNode :=
  match p with
  | [] => Some t
  | i :: p' =>
      if is_tree t then
        match children t with
        | Some cs =>
            match nth_error cs i with
            | Some c => reach c p'
            | None => None
            end
        | None => None
        end
      else None
  end.

(** A blob that has the field an enricher rewrites, and the node after
    the rewrite. *)
Definition datedBlob (n : TreeNode) : bool :=
  is_blob n && match lastChangeEpoch n with Some _ => true | None => false end.

Definition commitBlob (n : TreeNode) : bool :=
  is_blob n && match commits n with Some _ => true | None => false end.

Section Visits.
Variable Date : Type.
Variable newDate : number -> Date.
Variable getDate getMonth getFullYear : Date -> option Z.

Definition withFormattedDate (n : TreeNode) : TreeNode :=
  match lastChangeEpoch n with
  | Some e =>
      set_lastChangeEpochFormatted
        n (formatDate Date getDate getMonth getFullYear
                      (convertUnixTimeToDate Date newDate e))
  | None => n
  end.

Definition withUpdatedCommits (commitsJson : JsObj.t RawCommit) (n : TreeNode)
  : TreeNode :=
  match commits n with
  | Some l =>
      set_commits n (updatedCommits Date newDate getDate getMonth getFullYear
                                    commitsJson l)
  | None => n
  end.
End Visits.

(** Two results taken together. *)
Definition both {A : Type} (x : result A) (xs : result (list A)) : result (list A) :=
  match x, xs with
  | Ok a, Ok l => Ok (a :: l)
  | _, _ => TypeError
  end.

(** A node of another type that holds the example blob. *)
Definition submodule : TreeNode :=
  mkNode "commit" None (Some [exampleBlob]) None None None None None.

(** [exampleTree] after the date enricher, in UTC. *)
Definition datedTree : TreeNode :=
  dir [set_lastChangeEpochFormatted exampleBlob "14 Nov 2023"].

(** What [parseBranchData] returns for the example, in UTC. *)
Definition exampleBranchData : BranchData unit :=
  mkBranchData
    (dir [mkNode "blob" (Some [("A", of_Z 75); ("B", of_Z 25)]) None
                 (Some 1700000000%Z) (Some "14 Nov 2023")
                 (Some [CHash "h1"; CHash "h2"]) (Some false) (Some "A")])
    tt (of_Z 2) (of_Z 2) (of_Z 1700000000) (of_Z 1700000000).

(** The sum of a list of integers. *)
Definition sumZ (l : list Z) : Z := fold_right Z.add 0%Z l.

(** One traversal that sets both metrics on every blob. *)
Fixpoint annotateEveryBlob (n : TreeNode) : TreeNode :=
  match n with
  | mkNode ty au ch ep ef co sa tc =>
      mkNode ty au
             (match ch with
              | Some cs => Some (map annotateEveryBlob cs)
              | None => None
              end)
             ep ef co
             (if String.eqb ty "blob" then Some (singleAuthorFlag au) else sa)
             (if String.eqb ty "blob" then Some (topContributorOf au) else tc)
  end.

(* ================================================================== *)
(** * Properties *)

(** ** Numbers *)

Lemma Qlt_b_true (a b : Q) : Qlt_b a b = true <-> (a < b)%Q.
Proof.
  unfold Qlt_b. rewrite negb_true_iff.
  split; intro H.
  - apply Qnot_le_lt. intro Hle. apply Qle_bool_iff in Hle. congruence.
  - destruct (Qle_bool b a) eqn:E; [|reflexivity].
    apply Qle_bool_iff in E. exfalso. exact (Qlt_not_le _ _ H E).
Qed.

Lemma Qlt_b_false (a b : Q) : Qlt_b a b = false <-> (b <= a)%Q.
Proof.
  unfold Qlt_b. rewrite negb_false_iff. apply Qle_bool_iff.
Qed.

Lemma gt_Fin (x y : Q) : gt (Fin x) (Fin y) = true <-> (y < x)%Q.
Proof. simpl. apply Qlt_b_true. Qed.

Lemma gt_irrefl (a : number) : gt a a = false.
Proof.
  destruct a; simpl; try reflexivity.
  apply Qlt_b_false. apply Qle_refl.
Qed.

Lemma gt_not_NaN_l (a b : number) : gt a b = true -> is_NaN a = false.
Proof. destruct a, b; simpl; congruence. Qed.

(** [v <= m < x] gives [v < x], when [v] is a number. *)
Lemma gt_le_trans (x m v : number) :
  gt x m = true -> gt v m = false -> is_NaN v = false -> gt x v = true.
Proof.
  destruct x as [x| | |], m as [m| | |], v as [v| | |]; simpl;
    try congruence; intros H1 H2 _.
  apply Qlt_b_true in H1. apply Qlt_b_false in H2. apply Qlt_b_true.
  eapply Qle_lt_trans; eassumption.
Qed.

(** [v <= m < m'] gives [v <= m']. *)
Lemma gt_false_mono (v m m' : number) :
  gt v m = false -> gt m' m = true -> gt v m' = false.
Proof.
  destruct v as [v| | |], m as [m| | |], m' as [m'| | |]; simpl;
    try congruence; intros H1 H2.
  apply Qlt_b_false in H1. apply Qlt_b_true in H2. apply Qlt_b_false.
  apply Qlt_le_weak. eapply Qle_lt_trans; eassumption.
Qed.

Lemma gt_asym (a b : number) : gt a b = true -> gt b a = false.
Proof.
  destruct a as [x| | |], b as [y| | |]; simpl; try congruence.
  intro H. apply Qlt_b_true in H. apply Qlt_b_false. now apply Qlt_le_weak.
Qed.

Lemma gt_trans (a b c : number) : gt a b = true -> gt b c = true -> gt a c = true.
Proof.
  destruct a as [x| | |], b as [y| | |], c as [z| | |]; simpl; try congruence.
  intros H1 H2. apply Qlt_b_true in H1, H2. apply Qlt_b_true.
  eapply Qlt_trans; eassumption.
Qed.

(** *** Rounding to binary64 *)

Section RoundingZ.
Local Open Scope Z_scope.


Lemma nearest_even_between (N D : Z) :
  0 <= N -> 0 < D -> N / D <= nearest_even N D <= N / D + 1.
Proof.
  intros HN HD. unfold nearest_even.
  destruct (2 * (N mod D) ?= D); [destruct (Z.even (N / D))| |]; lia.
Qed.

(** Rounding to an integer does not cross an integer. *)
Lemma nearest_even_le (N D M : Z) :
  0 <= N -> 0 < D -> N <= M * D -> nearest_even N D <= M.
Proof.
  intros HN HD H. unfold nearest_even.
  pose proof (Z.div_mod N D ltac:(lia)) as E.
  pose proof (Z.mod_pos_bound N D HD) as B.
  assert (K : N / D <= M) by (apply Z.div_le_upper_bound; lia).
  destruct (Z.eq_dec (N / D) M) as [Heq | Hne].
  - assert (R : N mod D = 0) by nia.
    rewrite R, Z.mul_0_r.
    destruct (Z.compare_spec 0 D); lia.
  - destruct (2 * (N mod D) ?= D); [destruct (Z.even (N / D))| |]; lia.
Qed.

Lemma nearest_even_ge (N D M : Z) :
  0 <= N -> 0 < D -> M * D <= N -> M <= nearest_even N D.
Proof.
  intros HN HD H.
  pose proof (nearest_even_between N D HN HD).
  assert (M <= N / D) by (apply Z.div_le_lower_bound; lia). lia.
Qed.

(** The grid around [n / d]: at most 53 bits, and 53 bits above the
    least exponent. *)
Lemma grid_exponent_spec (n d : Z) :
  0 < n -> 0 < d ->
  0 <= grid_exponent n d /\
  n < 2 ^ 53 * (d * 2 ^ grid_exponent n d) /\
  (0 < grid_exponent n d -> 2 ^ 52 * (d * 2 ^ grid_exponent n d) <= n).
Proof.
  intros Hn Hd. unfold grid_exponent.
  destruct (Z.log2_spec n Hn) as [Ha1 Ha2].
  destruct (Z.log2_spec d Hd) as [Hb1 Hb2].
  pose proof (Z.log2_nonneg n) as Ha0. pose proof (Z.log2_nonneg d) as Hb0.
  set (a := Z.log2 n) in *. set (b := Z.log2 d) in *.
  set (g := a - b).
  rewrite Z.pow_succ_r in Ha2, Hb2 by assumption.
  assert (P52 : 2 ^ 52 = 4503599627370496) by reflexivity.
  assert (P53 : 2 ^ 53 = 9007199254740992) by reflexivity.
  split; [lia|].
  destruct (Z.ltb_spec n (d * 2 ^ g)) as [T | T].
  - (* n < d * 2^g, so 0 <= g *)
    assert (G0 : 0 <= g).
    { destruct (Z.lt_ge_cases g 0) as [G|G]; [|exact G].
      rewrite (Z.pow_neg_r 2 g G) in T. lia. }
    destruct (Z.max_spec 0 (g - 1 - 52)) as [[Hlt ->] | [Hle ->]].
    + (* normal: e = g - 53 *)
      assert (E1 : 2 ^ g = 2 ^ 53 * 2 ^ (g - 1 - 52)).
      { rewrite <- Z.pow_add_r by lia. f_equal. lia. }
      assert (E2 : 2 ^ a = 2 ^ b * (2 * (2 ^ 52 * 2 ^ (g - 1 - 52)))).
      { replace (2 * (2 ^ 52 * 2 ^ (g - 1 - 52))) with (2 ^ g).
        - rewrite <- Z.pow_add_r by lia. f_equal. unfold g. lia.
        - rewrite E1, P53, P52. lia. }
      pose proof (Z.pow_pos_nonneg 2 (g - 1 - 52) ltac:(lia) ltac:(lia)) as Q.
      split; [rewrite E1 in T; lia|].
      intros _. nia.
    + (* clamped *)
      rewrite Z.pow_0_r, Z.mul_1_r. split; [|lia].
      assert (2 ^ g <= 2 ^ 53) by (apply Z.pow_le_mono_r; lia). nia.
  - destruct (Z.max_spec 0 (g - 52)) as [[Hlt ->] | [Hle ->]].
    + assert (E1 : 2 ^ g = 2 ^ 52 * 2 ^ (g - 52)).
      { rewrite <- Z.pow_add_r by lia. f_equal. lia. }
      assert (E2 : 2 ^ a = 2 ^ b * 2 ^ g).
      { rewrite <- Z.pow_add_r by lia. f_equal. unfold g. lia. }
      pose proof (Z.pow_pos_nonneg 2 (g - 52) ltac:(lia) ltac:(lia)) as Q.
      split; [|intros _; rewrite E1 in T; lia].
      rewrite E1 in E2. nia.
    + rewrite Z.pow_0_r, Z.mul_1_r. split; [|lia].
      assert (2 * 2 ^ a <= 2 ^ 53 * 2 ^ b).
      { replace (2 * 2 ^ a) with (2 ^ (a + 1)) by (rewrite Z.pow_add_r by lia; lia).
        rewrite <- Z.pow_add_r by lia. apply Z.pow_le_mono_r; unfold g in *; lia. }
      nia.
Qed.

Lemma round_units_rep (n d : Z) : 0 < n -> 0 < d -> rep (round_units n d).
Proof.
  intros Hn Hd. destruct (grid_exponent_spec n d Hn Hd) as (He & Hu & Hl).
  unfold round_units. set (e := grid_exponent n d) in *.
  assert (HD : 0 < d * 2 ^ e) by (apply Z.mul_pos_pos; [|apply Z.pow_pos_nonneg]; lia).
  exists (nearest_even n (d * 2 ^ e)), e. split; [reflexivity|]. split; [exact He|].
  split; [split|].
  - apply (nearest_even_ge n _ 0); lia.
  - apply nearest_even_le; lia.
  - intro H. apply nearest_even_ge; [lia | lia | now apply Hl].
Qed.

Lemma pow2_step (a b : Z) : 0 <= a < b -> 2 * 2 ^ a <= 2 ^ b.
Proof.
  intro H. replace (2 * 2 ^ a) with (2 ^ (a + 1)) by (rewrite Z.pow_add_r by lia; lia).
  apply Z.pow_le_mono_r; lia.
Qed.

Lemma bits_step (m X Y : Z) :
  0 <= m <= 2 ^ 53 -> 0 < Y -> 2 * Y <= X -> m * Y <= 2 ^ 52 * X.
Proof.
  intros Hm HY H.
  assert (m * Y <= 2 ^ 53 * Y) by (apply Z.mul_le_mono_nonneg_r; lia).
  change (2 ^ 53) with 9007199254740992 in *.
  change (2 ^ 52) with 4503599627370496 in *. lia.
Qed.

(** Rounding does not cross a binary64 value. *)
Lemma round_units_le (n d K : Z) :
  0 < n -> 0 < d -> rep K -> n <= K * d -> round_units n d <= K.
Proof.
  intros Hn Hd (mc & ec & -> & Hec & [Hm0 Hm1] & Hmn) H.
  destruct (grid_exponent_spec n d Hn Hd) as (He & Hu & Hl).
  unfold round_units. set (e := grid_exponent n d) in *.
  assert (Pe : 0 < 2 ^ e) by (apply Z.pow_pos_nonneg; lia).
  assert (Pc : 0 < 2 ^ ec) by (apply Z.pow_pos_nonneg; lia).
  assert (HD : 0 < d * 2 ^ e) by (apply Z.mul_pos_pos; lia).
  assert (P52 : 2 ^ 52 = 4503599627370496) by reflexivity.
  assert (P53 : 2 ^ 53 = 9007199254740992) by reflexivity.
  destruct (Z.lt_trichotomy e ec) as [Hlt | [Heq | Hgt]].
  - assert (M : nearest_even n (d * 2 ^ e) <= 2 ^ 53) by (apply nearest_even_le; lia).
    pose proof (pow2_step e ec ltac:(lia)) as S.
    pose proof (Hmn ltac:(lia)) as Hmc.
    set (m := nearest_even n (d * 2 ^ e)) in *.
    assert (m0 : 0 <= m) by (apply (nearest_even_ge n _ 0); lia).
    pose proof (bits_step m (2 ^ ec) (2 ^ e) ltac:(lia) Pe S).
    assert (2 ^ 52 * 2 ^ ec <= mc * 2 ^ ec) by (apply Z.mul_le_mono_nonneg_r; lia).
    lia.
  - subst ec. apply Z.mul_le_mono_nonneg_r; [lia|].
    apply nearest_even_le; lia.
  - pose proof (Hl ltac:(lia)) as Hn52.
    pose proof (pow2_step ec e ltac:(lia)) as S.
    pose proof (bits_step mc (2 ^ e) (2 ^ ec) ltac:(lia) Pc S) as T.
    assert (T' : mc * 2 ^ ec * d <= 2 ^ 52 * 2 ^ e * d)
      by (apply Z.mul_le_mono_nonneg_r; lia).
    assert (B : n <= 2 ^ 52 * (d * 2 ^ e)) by lia.
    assert (M : nearest_even n (d * 2 ^ e) <= 2 ^ 52) by (apply nearest_even_le; lia).
    assert (C : 2 ^ 52 * 2 ^ e * d <= mc * 2 ^ ec * d) by lia.
    assert (C' : 2 ^ 52 * 2 ^ e <= mc * 2 ^ ec) by (apply Z.mul_le_mono_pos_r with d; lia).
    set (m := nearest_even n (d * 2 ^ e)) in *.
    assert (m * 2 ^ e <= 2 ^ 52 * 2 ^ e) by (apply Z.mul_le_mono_nonneg_r; lia).
    lia.
Qed.

Lemma round_units_ge (n d K : Z) :
  0 < n -> 0 < d -> rep K -> K * d <= n -> K <= round_units n d.
Proof.
  intros Hn Hd (mc & ec & -> & Hec & [Hm0 Hm1] & Hmn) H.
  destruct (grid_exponent_spec n d Hn Hd) as (He & Hu & Hl).
  unfold round_units. set (e := grid_exponent n d) in *.
  assert (Pe : 0 < 2 ^ e) by (apply Z.pow_pos_nonneg; lia).
  assert (Pc : 0 < 2 ^ ec) by (apply Z.pow_pos_nonneg; lia).
  assert (HD : 0 < d * 2 ^ e) by (apply Z.mul_pos_pos; lia).
  assert (P52 : 2 ^ 52 = 4503599627370496) by reflexivity.
  assert (P53 : 2 ^ 53 = 9007199254740992) by reflexivity.
  destruct (Z.lt_trichotomy e ec) as [Hlt | [Heq | Hgt]].
  - exfalso.
    pose proof (pow2_step e ec ltac:(lia)) as S.
    pose proof (Hmn ltac:(lia)) as Hmc.
    assert (T : 2 ^ 52 * 2 ^ ec <= mc * 2 ^ ec) by (apply Z.mul_le_mono_nonneg_r; lia).
    assert (T' : 2 ^ 52 * 2 ^ ec * d <= mc * 2 ^ ec * d)
      by (apply Z.mul_le_mono_nonneg_r; lia).
    assert (U : 2 * 2 ^ e * d <= 2 ^ ec * d) by (apply Z.mul_le_mono_nonneg_r; lia).
    change (2 ^ 53) with 9007199254740992 in *.
    change (2 ^ 52) with 4503599627370496 in *. lia.
  - subst ec. apply Z.mul_le_mono_nonneg_r; [lia|].
    apply nearest_even_ge; lia.
  - pose proof (Hl ltac:(lia)) as Hn52.
    pose proof (pow2_step ec e ltac:(lia)) as S.
    assert (M : 2 ^ 52 <= nearest_even n (d * 2 ^ e)) by (apply nearest_even_ge; lia).
    set (m := nearest_even n (d * 2 ^ e)) in *.
    pose proof (bits_step mc (2 ^ e) (2 ^ ec) ltac:(lia) Pc S) as T.
    assert (2 ^ 52 * 2 ^ e <= m * 2 ^ e) by (apply Z.mul_le_mono_nonneg_r; lia).
    lia.
Qed.

Lemma rep_nonneg (K : Z) : rep K -> 0 <= K.
Proof.
  intros (m & e & -> & He & [Hm _] & _).
  apply Z.mul_nonneg_nonneg; [exact Hm | apply Z.pow_nonneg; lia].
Qed.

(** 1 and 100 are binary64 values. *)
Lemma rep_one : rep (2 ^ 1074).
Proof.
  exists (2 ^ 52), 1022. split; [now rewrite <- Z.pow_add_r by lia|].
  split; [lia|]. split; [split; [apply Z.pow_nonneg; lia | apply Z.pow_le_mono_r; lia]|].
  intros _. apply Z.le_refl.
Qed.

Lemma rep_hundred : rep (100 * 2 ^ 1074).
Proof.
  exists (25 * 2 ^ 48), 1028. split.
  - replace (2 ^ 1028) with (2 ^ 2 * 2 ^ 52 * 2 ^ 974) by (rewrite <- !Z.pow_add_r by lia; reflexivity).
    replace (2 ^ 1074) with (2 ^ 48 * 2 ^ 52 * 2 ^ 974) by (rewrite <- !Z.pow_add_r by lia; reflexivity).
    change (2 ^ 2) with 4. ring.
  - split; [lia|]. split; [|intros _]; change (2 ^ 48) with 281474976710656;
      change (2 ^ 52) with 4503599627370496;
      change (2 ^ 53) with 9007199254740992; lia.
Qed.

End RoundingZ.

Section RoundingQ.
Local Open Scope Q_scope.

Lemma units_pos : Z.pos (2 ^ 1074) = (2 ^ 1074)%Z.
Proof. apply Pos2Z.inj_pow. Qed.

Lemma of_units_Fin (K : Z) :
  (K < 2 ^ 2098)%Z -> exists r, of_units K = Fin r /\ r == K # 2 ^ 1074.
Proof.
  intro H. unfold of_units.
  replace (2 ^ 2098 <=? K)%Z with false by (symmetry; apply Z.leb_gt; exact H).
  eexists. split; [reflexivity | apply Qred_correct].
Qed.

Lemma round64_units (q : Q) :
  0 < q -> round64 q = of_units (round_units (Qnum q * 2 ^ 1074) (QDen q)).
Proof.
  destruct q as [[|n|n] d]; unfold Qlt; cbn [Qnum Qden]; intro H; try lia.
  reflexivity.
Qed.

Lemma Qnum_pos (q : Q) : 0 < q -> (0 < Qnum q * 2 ^ 1074)%Z.
Proof.
  destruct q as [n d]. unfold Qlt. cbn [Qnum Qden]. intro H.
  apply Z.mul_pos_pos; [lia | apply Z.pow_pos_nonneg; lia].
Qed.

(** A number that is at most a binary64 value is rounded to at most that
    value, and one that is at least a binary64 value to at least that
    value. *)
Lemma round64_le (q c : Q) (K : Z) :
  0 < q -> rep K -> (K < 2 ^ 2098)%Z -> c == K # 2 ^ 1074 -> q <= c ->
  exists r, round64 q = Fin r /\ 0 <= r /\ r <= c.
Proof.
  intros Hq HK Hfin Hc Hle.
  rewrite (round64_units q Hq).
  pose proof (Qnum_pos q Hq) as Hn.
  assert (Hd : (0 < QDen q)%Z) by reflexivity.
  assert (L : (round_units (Qnum q * 2 ^ 1074) (QDen q) <= K)%Z).
  { apply round_units_le; try assumption.
    rewrite Hc in Hle. unfold Qle in Hle. cbn [Qnum Qden] in Hle.
    rewrite units_pos in Hle. exact Hle. }
  pose proof (rep_nonneg _ (round_units_rep _ _ Hn Hd)) as L0.
  destruct (of_units_Fin (round_units (Qnum q * 2 ^ 1074) (QDen q)) ltac:(lia))
    as (r & -> & Hr).
  exists r. split; [reflexivity|]. rewrite Hr, Hc. unfold Qle. cbn [Qnum Qden].
  split; [lia|]. apply Z.mul_le_mono_nonneg_r; lia.
Qed.

Lemma round64_ge (q c : Q) (K : Z) :
  0 < q -> rep K -> c == K # 2 ^ 1074 -> c <= q ->
  round64 q = PInf \/ exists r, round64 q = Fin r /\ c <= r.
Proof.
  intros Hq HK Hc Hle.
  rewrite (round64_units q Hq).
  pose proof (Qnum_pos q Hq) as Hn.
  assert (Hd : (0 < QDen q)%Z) by reflexivity.
  assert (L : (K <= round_units (Qnum q * 2 ^ 1074) (QDen q))%Z).
  { apply round_units_ge; try assumption.
    rewrite Hc in Hle. unfold Qle in Hle. cbn [Qnum Qden] in Hle.
    rewrite units_pos in Hle. exact Hle. }
  unfold of_units. destruct (2 ^ 2098 <=? _)%Z; [now left|right].
  eexists. split; [reflexivity|]. rewrite Qred_correct, Hc.
  unfold Qle. cbn [Qnum Qden]. apply Z.mul_le_mono_nonneg_r; lia.
Qed.

Lemma round64_nonneg (q : Q) :
  0 <= q -> round64 q = PInf \/ exists r, round64 q = Fin r /\ 0 <= r.
Proof.
  intro H. destruct (Qlt_le_dec 0 q) as [Hq | Hq].
  - rewrite (round64_units q Hq).
    assert (Hd : (0 < QDen q)%Z) by reflexivity.
    pose proof (rep_nonneg _ (round_units_rep _ _ (Qnum_pos q Hq) Hd)) as L0.
    unfold of_units. destruct (2 ^ 2098 <=? _)%Z; [now left|right].
    eexists. split; [reflexivity|]. rewrite Qred_correct.
    unfold Qle. cbn [Qnum Qden]. lia.
  - right. exists 0. split; [|apply Qle_refl].
    assert (E : Qnum q = 0%Z).
    { destruct q as [n d]. unfold Qle in *. cbn in *. lia. }
    unfold round64. now rewrite E.
Qed.

(** A positive binary64 value, in units of [2^-1074]. *)
Lemma binary64_units (q : Q) :
  0 < q -> binary64 q -> exists K, rep K /\ (K < 2 ^ 2098)%Z /\ q == K # 2 ^ 1074.
Proof.
  intros Hq B. unfold binary64 in B. rewrite (round64_units q Hq) in B.
  assert (Hd : (0 < QDen q)%Z) by reflexivity.
  pose proof (round_units_rep _ _ (Qnum_pos q Hq) Hd) as R.
  exists (round_units (Qnum q * 2 ^ 1074) (QDen q)). split; [exact R|].
  unfold of_units in B. destruct (Z.leb_spec (2 ^ 2098) (round_units (Qnum q * 2 ^ 1074) (QDen q))) as [H|H];
    [destruct B|].
  split; [exact H|].
  apply Qeq_trans with (Qred (round_units (Qnum q * 2 ^ 1074) (QDen q) # 2 ^ 1074));
    [apply Qeq_sym; exact B | apply Qred_correct].
Qed.

(** An integer result is rounded to a number of the same sign. *)
Lemma round64_sign_Z (q : Q) (z : Z) :
  q == inject_Z z -> gt (round64 q) (Fin 0) = (0 <? z)%Z.
Proof.
  intro H.
  destruct (Z.lt_trichotomy z 0) as [Hz | [-> | Hz]].
  - replace (0 <? z)%Z with false by (symmetry; apply Z.ltb_ge; lia).
    assert (Hq : 0 < - q).
    { rewrite H, <- inject_Z_opp. change 0 with (inject_Z 0).
      rewrite <- Zlt_Qlt. lia. }
    destruct (round64_nonneg (- q) (Qlt_le_weak _ _ Hq)) as [E | (r & E & Hr)];
      destruct q as [[|n|n] d]; unfold Qlt in Hq; cbn in Hq; try lia;
      unfold round64 in *; cbn [Qnum Qden Qopp Z.opp] in *; rewrite E;
      [reflexivity|].
    cbn [neg gt]. apply Qlt_b_false.
    apply (Qopp_le_compat 0 r) in Hr. exact Hr.
  - assert (E : Qnum q = 0%Z).
    { destruct q as [n d]. unfold Qeq in H. cbn in *. lia. }
    unfold round64. now rewrite E.
  - replace (0 <? z)%Z with true by (symmetry; apply Z.ltb_lt; lia).
    assert (H1 : 1 <= q).
    { rewrite H. change 1 with (inject_Z 1). rewrite <- Zle_Qle. lia. }
    assert (Hq : 0 < q) by (eapply Qlt_le_trans; [|exact H1]; reflexivity).
    assert (U : 1 == (2 ^ 1074)%Z # 2 ^ 1074).
    { unfold Qeq. cbn [Qnum Qden]. rewrite units_pos. lia. }
    destruct (round64_ge q 1 (2 ^ 1074) Hq rep_one U H1) as [-> | (r & -> & Hr)];
      [reflexivity|].
    apply Qlt_b_true. eapply Qlt_le_trans; [|exact Hr]. reflexivity.
Qed.

End RoundingQ.

(** The comparator [b - a] on integers places [b] first exactly when
    [a < b]. *)
Lemma sub_pos_Z (a b : Z) :
  gt (sub (of_Z b) (of_Z a)) (Fin 0) = (a <? b)%Z.
Proof.
  unfold sub, of_Z. cbn [neg add].
  rewrite (round64_sign_Z _ (b - a)).
  - destruct (a <? b)%Z eqn:E.
    + apply Z.ltb_lt. apply Z.ltb_lt in E. lia.
    + apply Z.ltb_ge. apply Z.ltb_ge in E. lia.
  - rewrite <- inject_Z_opp, <- inject_Z_plus. reflexivity.
Qed.

(** ** Objects *)

Section ObjFacts.
Context {V : Type}.
Implicit Types (o : JsObj.t V) (k a : string) (v : V).

Lemma get_None_iff o k : JsObj.get o k = None <-> ~ In k (JsObj.keys o).
Proof.
  induction o as [|[k' v'] r IH]; simpl.
  - tauto.
  - destruct (String.eqb k' k) eqn:E.
    + apply String.eqb_eq in E. split; [discriminate | tauto].
    + apply String.eqb_neq in E. rewrite IH. tauto.
Qed.

Lemma has_false_iff o k : JsObj.has o k = false <-> ~ In k (JsObj.keys o).
Proof.
  unfold JsObj.has. rewrite <- get_None_iff.
  destruct (JsObj.get o k); split; congruence.
Qed.

Lemma get_In o k v :
  NoDup (JsObj.keys o) -> In (k, v) o -> JsObj.get o k = Some v.
Proof.
  induction o as [|[k' v'] r IH]; simpl; [tauto|].
  intros Hnd [Heq | Hin].
  - inversion Heq; subst. now rewrite String.eqb_refl.
  - inversion Hnd as [|? ? Hnotin Hnd']; subst.
    destruct (String.eqb k' k) eqn:E.
    + apply String.eqb_eq in E. subst. exfalso. apply Hnotin.
      change (In (fst (k, v)) (map fst r)). now apply in_map.
    + now apply IH.
Qed.

Lemma get_Some_In o k v : JsObj.get o k = Some v -> In (k, v) o.
Proof.
  induction o as [|[k' v'] r IH]; simpl; [discriminate|].
  destruct (String.eqb k' k) eqn:E.
  - apply String.eqb_eq in E. intros [= ->]. subst. now left.
  - intro H. right. now apply IH.
Qed.

Lemma get_replace o k v a :
  JsObj.get o k <> None ->
  JsObj.get (JsObj.replace o k v) a
  = if String.eqb k a then Some v else JsObj.get o a.
Proof.
  induction o as [|[k' v'] r IH]; simpl; [congruence|].
  destruct (String.eqb k' k) eqn:E; intro H.
  - apply String.eqb_eq in E. subst k'. simpl.
    destruct (String.eqb k a); reflexivity.
  - simpl. destruct (String.eqb k' a) eqn:E'.
    + apply String.eqb_eq in E'. subst k'.
      rewrite String.eqb_sym in E. now rewrite E.
    + now apply IH.
Qed.

Lemma get_insert_index o i k v a :
  JsObj.get o k = None ->
  JsObj.get (JsObj.insert_index o i k v) a
  = if String.eqb k a then Some v else JsObj.get o a.
Proof.
  induction o as [|[k' v'] r IH]; simpl; [reflexivity|].
  destruct (String.eqb k' k) eqn:E; [discriminate|]. intro H.
  destruct (JsObj.array_index k') as [j|]; [destruct (j <? i)%N|]; simpl;
    try reflexivity.
  destruct (String.eqb k' a) eqn:E'.
  - apply String.eqb_eq in E'. subst k'.
    rewrite String.eqb_sym in E. now rewrite E.
  - now apply IH.
Qed.

Lemma get_snoc o k v a :
  JsObj.get o k = None ->
  JsObj.get (o ++ [(k, v)]) a
  = if String.eqb k a then Some v else JsObj.get o a.
Proof.
  induction o as [|[k' v'] r IH]; simpl; [reflexivity|].
  destruct (String.eqb k' k) eqn:E; [discriminate|]. intro H.
  destruct (String.eqb k' a) eqn:E'.
  - apply String.eqb_eq in E'. subst k'.
    rewrite String.eqb_sym in E. now rewrite E.
  - now apply IH.
Qed.

(** Reading after writing. *)
Lemma get_set o k v a :
  JsObj.get (JsObj.set o k v) a
  = if String.eqb k a then Some v else JsObj.get o a.
Proof.
  unfold JsObj.set, JsObj.has.
  destruct (JsObj.get o k) eqn:G.
  - apply get_replace. congruence.
  - destruct (JsObj.array_index k).
    + now apply get_insert_index.
    + now apply get_snoc.
Qed.

(** A new key that is not an array index goes to the end. *)
Lemma set_fresh o k v :
  ~ In k (JsObj.keys o) -> JsObj.is_index k = false ->
  JsObj.set o k v = o ++ [(k, v)].
Proof.
  intros Hk Hi. unfold JsObj.set.
  apply has_false_iff in Hk. rewrite Hk.
  unfold JsObj.is_index in Hi.
  destruct (JsObj.array_index k); [discriminate | reflexivity].
Qed.

(** Building an object from entries with distinct keys, none an array
    index, keeps the order of the entries. *)
Lemma fold_set_fresh (l : list (string * V)) o :
  NoDup (JsObj.keys o ++ map fst l) ->
  (forall k, In k (map fst l) -> JsObj.is_index k = false) ->
  fold_left (fun acc e => JsObj.set acc (fst e) (snd e)) l o = o ++ l.
Proof.
  revert o. induction l as [|[k v] r IH]; intros o Hnd Hi; simpl.
  - now rewrite app_nil_r.
  - rewrite set_fresh.
    + rewrite IH.
      * now rewrite <- app_assoc.
      * unfold JsObj.keys in *. rewrite map_app. simpl.
        rewrite <- app_assoc. exact Hnd.
      * intros k' Hk'. apply Hi. now right.
    + intro Hin. simpl in Hnd. apply NoDup_remove_2 in Hnd.
      apply Hnd. apply in_or_app. now left.
    + apply Hi. now left.
Qed.

(** Building an object from entries with distinct keys: every entry can
    be read back. *)
Lemma get_fold_set (l : list (string * V)) o k v :
  NoDup (map fst l) -> In (k, v) l ->
  JsObj.get (fold_left (fun acc e => JsObj.set acc (fst e) (snd e)) l o) k
  = Some v.
Proof.
  revert o. induction l as [|[k' v'] r IH]; intros o Hnd Hin; simpl in *.
  - tauto.
  - inversion Hnd as [|? ? Hnotin Hnd']; subst.
    destruct Hin as [Heq | Hin].
    + inversion Heq; subst. clear IH Heq.
      assert (G : forall (l : list (string * V)) o,
                 ~ In k (map fst l) ->
                 JsObj.get (fold_left (fun acc e => JsObj.set acc (fst e) (snd e)) l o) k
                 = JsObj.get o k).
      { clear. induction l as [|[k1 v1] l IHl]; intros o Hn; simpl in *.
        - reflexivity.
        - rewrite IHl by tauto. rewrite get_set.
          destruct (String.eqb k1 k) eqn:E; [|reflexivity].
          apply String.eqb_eq in E. tauto. }
      rewrite G by assumption. rewrite get_set. now rewrite String.eqb_refl.
    + now apply IH.
Qed.

(** Assignment: the name ['__proto__'] is the only one that a write to an
    object without that own property loses. *)
Lemma assign_proto o v :
  JsObj.has o "__proto__" = false -> JsObj.assign o "__proto__" v = o.
Proof. intro H. unfold JsObj.assign. now rewrite H. Qed.

Lemma assign_set o k v : k <> "__proto__" -> JsObj.assign o k v = JsObj.set o k v.
Proof.
  intro H. unfold JsObj.assign. apply String.eqb_neq in H. rewrite H.
  now rewrite andb_false_r.
Qed.

Lemma has_set o k v a :
  JsObj.has (JsObj.set o k v) a = String.eqb k a || JsObj.has o a.
Proof.
  unfold JsObj.has. rewrite get_set. destruct (String.eqb k a); reflexivity.
Qed.

(** An object built by assignments from one without an own ['__proto__']
    holds what the assignments under other names define. *)
Lemma fold_assign (l : list (string * V)) o :
  JsObj.has o "__proto__" = false ->
  fold_left (fun acc e => JsObj.assign acc (fst e) (snd e)) l o
  = fold_left (fun acc e => JsObj.set acc (fst e) (snd e))
              (filter (fun e => negb (String.eqb (fst e) "__proto__")) l) o.
Proof.
  revert o. induction l as [|[k v] r IH]; intros o H; cbn [fold_left filter fst snd].
  - reflexivity.
  - destruct (String.eqb k "__proto__") eqn:E; cbn [negb fold_left fst snd].
    + apply String.eqb_eq in E. subst k. rewrite assign_proto by exact H.
      now apply IH.
    + rewrite assign_set by (apply String.eqb_neq; exact E).
      apply IH. rewrite has_set, H, E. reflexivity.
Qed.

Lemma get_assign o k v a :
  JsObj.get (JsObj.assign o k v) a
  = if negb (JsObj.has o k) && String.eqb k "__proto__" then JsObj.get o a
    else if String.eqb k a then Some v else JsObj.get o a.
Proof.
  unfold JsObj.assign.
  destruct (negb (JsObj.has o k) && String.eqb k "__proto__"); [reflexivity|].
  apply get_set.
Qed.

(** Reading through the prototype chain. *)
Lemma read_Own o k v : JsObj.get o k = Some v -> JsObj.read o k = JsObj.Own v.
Proof. intro H. unfold JsObj.read. now rewrite H. Qed.

Lemma read_missing o k :
  JsObj.get o k = None ->
  JsObj.read o k = if JsObj.inherited k then JsObj.Inherited else JsObj.Undefined.
Proof. intro H. unfold JsObj.read. now rewrite H. Qed.
End ObjFacts.

Lemma inherited_In (k : string) :
  JsObj.inherited k = true <-> In k JsObj.prototype_members.
Proof.
  unfold JsObj.inherited. rewrite existsb_exists. split.
  - intros (x & Hin & E). apply String.eqb_eq in E. now subst x.
  - intro H. exists k. split; [exact H | apply String.eqb_refl].
Qed.

Lemma not_inherited (k : string) :
  ~ In k JsObj.prototype_members -> JsObj.inherited k = false.
Proof.
  intro H. destruct (JsObj.inherited k) eqn:E; [|reflexivity].
  apply inherited_In in E. contradiction.
Qed.

(** ** Objects keep their keys distinct *)

Section ObjKeys.
Context {V : Type}.
Implicit Types (o : JsObj.t V) (k : string) (v : V).

Lemma In_keys_get o k : In k (JsObj.keys o) <-> JsObj.get o k <> None.
Proof.
  pose proof (get_None_iff o k) as H.
  destruct (JsObj.get o k) eqn:G; split; intro H'.
  - discriminate.
  - destruct (in_dec string_dec k (JsObj.keys o)) as [Hin | Hn]; [exact Hin|].
    apply H in Hn. discriminate.
  - exfalso. now apply (proj1 H).
  - congruence.
Qed.

Lemma In_keys_set o k v k' :
  In k' (JsObj.keys (JsObj.set o k v)) <-> k' = k \/ In k' (JsObj.keys o).
Proof.
  rewrite !In_keys_get, get_set.
  destruct (String.eqb k k') eqn:E.
  - apply String.eqb_eq in E. subst. split; [auto | discriminate].
  - apply String.eqb_neq in E. split; [auto | intros [-> | H]; congruence].
Qed.

Lemma keys_replace o k v : JsObj.keys (JsObj.replace o k v) = JsObj.keys o.
Proof.
  unfold JsObj.keys. induction o as [|[k' v'] r IH]; simpl; [reflexivity|].
  destruct (String.eqb k' k); simpl; [reflexivity | now rewrite IH].
Qed.

Lemma insert_index_perm o i k v :
  Permutation (JsObj.insert_index o i k v) ((k, v) :: o).
Proof.
  induction o as [|[k' v'] r IH]; simpl; [apply Permutation_refl|].
  destruct (JsObj.array_index k') as [j|]; [destruct (j <? i)%N|];
    try apply Permutation_refl.
  eapply perm_trans; [apply perm_skip, IH | apply perm_swap].
Qed.

(** A write replaces a value or adds an entry. *)
Lemma set_perm_fresh o k v :
  JsObj.get o k = None -> Permutation (JsObj.set o k v) ((k, v) :: o).
Proof.
  intro G. unfold JsObj.set, JsObj.has. rewrite G.
  destruct (JsObj.array_index k).
  - apply insert_index_perm.
  - apply Permutation_sym, Permutation_cons_append.
Qed.

Lemma NoDup_keys_set o k v :
  NoDup (JsObj.keys o) -> NoDup (JsObj.keys (JsObj.set o k v)).
Proof.
  intro Hnd. destruct (JsObj.get o k) eqn:G.
  - unfold JsObj.set, JsObj.has. rewrite G. now rewrite keys_replace.
  - eapply Permutation_NoDup.
    + apply Permutation_sym. apply Permutation_map. now apply set_perm_fresh.
    + simpl. constructor; [now apply get_None_iff | exact Hnd].
Qed.

Lemma NoDup_keys_fold (l : list (string * V)) :
  forall o, NoDup (JsObj.keys o) ->
            NoDup (JsObj.keys (fold_left (fun acc e => JsObj.set acc (fst e) (snd e)) l o)).
Proof.
  induction l as [|e l IH]; intros o H; simpl; [exact H|].
  apply IH. now apply NoDup_keys_set.
Qed.

Lemma In_keys_fold (l : list (string * V)) :
  forall o k, In k (JsObj.keys (fold_left (fun acc e => JsObj.set acc (fst e) (snd e)) l o))
              <-> In k (JsObj.keys o) \/ In k (map fst l).
Proof.
  induction l as [|e l IH]; intros o k; simpl; [tauto|].
  rewrite IH, In_keys_set. intuition.
Qed.

(** Entries with distinct keys, written one after the other to the empty
    object, are the entries of the object. *)
Lemma fold_set_perm (l : list (string * V)) :
  forall o, NoDup (JsObj.keys o ++ map fst l) ->
            Permutation (fold_left (fun acc e => JsObj.set acc (fst e) (snd e)) l o)
                        (o ++ l).
Proof.
  induction l as [|[k v] l IH]; intros o Hnd; simpl.
  - rewrite app_nil_r. apply Permutation_refl.
  - assert (G : JsObj.get o k = None).
    { apply get_None_iff. apply NoDup_remove_2 in Hnd.
      intro Hin. apply Hnd. apply in_or_app. now left. }
    pose proof (set_perm_fresh o k v G) as P.
    eapply perm_trans.
    + apply IH.
      eapply Permutation_NoDup; [|exact Hnd].
      unfold JsObj.keys. simpl.
      eapply perm_trans; [apply Permutation_sym, Permutation_middle|].
      apply (Permutation_app_tail (map fst l)
               (l := k :: map fst o) (l' := map fst (JsObj.set o k v))).
      apply Permutation_sym. apply (Permutation_map fst) in P. exact P.
    + eapply perm_trans; [apply Permutation_app_tail, P|].
      simpl. apply Permutation_middle.
Qed.

(** What an object built by writes holds was written or was there. *)
Lemma get_fold_set_In (l : list (string * V)) :
  forall o k v,
    JsObj.get (fold_left (fun acc e => JsObj.set acc (fst e) (snd e)) l o) k = Some v ->
    In (k, v) l \/ JsObj.get o k = Some v.
Proof.
  induction l as [|[k' v'] l IH]; intros o k v H; cbn [fold_left fst snd] in H.
  - now right.
  - destruct (IH _ _ _ H) as [Hin | Hg]; [left; now right|].
    rewrite get_set in Hg. destruct (String.eqb k' k) eqn:E.
    + apply String.eqb_eq in E. subst k'. injection Hg as <-. left. now left.
    + now right.
Qed.
End ObjKeys.

(** ** Sorting *)

Section SortFacts.
Context {A : Type} (comparefn : A -> A -> number).

Lemma sort_insert_perm (a : A) (l : list A) :
  Permutation (sort_insert comparefn a l) (a :: l).
Proof.
  induction l as [|b r IH]; simpl.
  - apply Permutation_refl.
  - destruct (after comparefn a b).
    + eapply perm_trans; [apply perm_skip, IH | apply perm_swap].
    + apply Permutation_refl.
Qed.

(** The sorted array holds the elements of the array. *)
Lemma sort_perm (l : list A) : Permutation (sort comparefn l) l.
Proof.
  induction l as [|a r IH]; simpl.
  - apply perm_nil.
  - eapply perm_trans; [apply sort_insert_perm | now apply perm_skip].
Qed.

Lemma sort_length (l : list A) : List.length (sort comparefn l) = List.length l.
Proof. apply Permutation_length, sort_perm. Qed.

(** A comparator that orders by an integer key, larger keys first. *)
Variable key : A -> Z.
Hypothesis after_key : forall a b, after comparefn a b = (key a <? key b)%Z.

Lemma sort_insert_sorted (a : A) (l : list A) :
  StronglySorted (desc key) l -> StronglySorted (desc key) (sort_insert comparefn a l).
Proof.
  induction 1 as [|b r Hr IH Hb]; simpl.
  - repeat constructor.
  - rewrite after_key. destruct (key a <? key b)%Z eqn:E.
    + apply Z.ltb_lt in E. constructor; [exact IH|].
      eapply Permutation_Forall.
      * apply Permutation_sym, sort_insert_perm.
      * constructor; [unfold desc; lia | exact Hb].
    + apply Z.ltb_ge in E. constructor.
      * now constructor.
      * constructor; [exact E|].
        eapply Forall_impl; [|exact Hb].
        unfold desc. intros c Hc. lia.
Qed.

Lemma sort_sorted (l : list A) : StronglySorted (desc key) (sort comparefn l).
Proof.
  induction l as [|a r IH]; simpl.
  - constructor.
  - now apply sort_insert_sorted.
Qed.

Lemma sort_insert_stable (z : Z) (a : A) (l : list A) :
  filter (with_key key z) (sort_insert comparefn a l) = filter (with_key key z) (a :: l).
Proof.
  induction l as [|b r IH]; simpl.
  - reflexivity.
  - rewrite after_key. destruct (key a <? key b)%Z eqn:E; [|reflexivity].
    apply Z.ltb_lt in E. simpl. rewrite IH. simpl. unfold with_key.
    destruct (key a =? z)%Z eqn:Ea, (key b =? z)%Z eqn:Eb; try reflexivity.
    apply Z.eqb_eq in Ea, Eb. lia.
Qed.

(** Elements with the same key keep their relative order. *)
Lemma sort_stable (z : Z) (l : list A) :
  filter (with_key key z) (sort comparefn l) = filter (with_key key z) l.
Proof.
  induction l as [|a r IH]; simpl.
  - reflexivity.
  - rewrite sort_insert_stable. simpl. now rewrite IH.
Qed.
End SortFacts.

(** Sorting commutes with a change of representation. *)
Lemma sort_map {A B : Type} (f : A -> B) (cmp : B -> B -> number) (l : list A) :
  sort cmp (map f l) = map f (sort (fun a b => cmp (f a) (f b)) l).
Proof.
  induction l as [|a r IH]; simpl; [reflexivity|].
  rewrite IH. generalize (sort (fun a b => cmp (f a) (f b)) r). intro s.
  induction s as [|b s IHs]; simpl; [reflexivity|].
  unfold after.
  destruct (gt (cmp (f a) (f b)) (Fin 0)); simpl; [now rewrite IHs | reflexivity].
Qed.

(** ** Paths through the annotated tree *)

Lemma node_at_addTopContributor (p : list nat) :
  forall t, node_at (addTopContributor t) p
            = option_map addTopContributor (node_at t p).
Proof.
  induction p as [|i p IH]; intros [ty au ch ep ef co sa tc]; simpl.
  - reflexivity.
  - destruct ch as [[|c cs]|]; simpl; try reflexivity.
    + now destruct i.
    + change (addTopContributor c :: map addTopContributor cs)
        with (map addTopContributor (c :: cs)).
      rewrite nth_error_map.
      destruct (nth_error (c :: cs) i); simpl; [apply IH | reflexivity].
Qed.

(** What one visit of a pass leaves in the fields of a node. *)
Lemma addTopContributor_fields (n : TreeNode) :
  type (addTopContributor n) = type n /\
  authors (addTopContributor n) = authors n /\
  singleAuthor (addTopContributor n) = singleAuthor n /\
  topContributor (addTopContributor n)
  = (if is_blob n then Some (topContributorOf (authors n)) else topContributor n).
Proof. destruct n; simpl. unfold is_blob. simpl. auto. Qed.

Lemma addSingleAuthor_fields (n : TreeNode) :
  type (addSingleAuthor n) = type n /\
  authors (addSingleAuthor n) = authors n /\
  singleAuthor (addSingleAuthor n)
  = (if is_blob n then Some (singleAuthorFlag (authors n)) else singleAuthor n) /\
  topContributor (addSingleAuthor n) = topContributor n.
Proof. destruct n; simpl. unfold is_blob. simpl. auto. Qed.

Lemma addMetrics_annotated (n : TreeNode) : annotated n (addMetrics n).
Proof.
  unfold addMetrics, annotated.
  destruct (addTopContributor_fields (addSingleAuthor n)) as (T & A & S & C).
  destruct (addSingleAuthor_fields n) as (T' & A' & S' & C').
  rewrite T, A, S, C. unfold is_blob in *. rewrite T', A', S', C'.
  repeat split; now destruct (String.eqb (type n) "blob").
Qed.

(** Visiting an annotated node once more changes none of these fields. *)
Lemma addTopContributor_annotated (b b' : TreeNode) :
  annotated b b' -> annotated b (addTopContributor b').
Proof.
  intros (T & A & S & C). unfold annotated.
  destruct (addTopContributor_fields b') as (T' & A' & S' & C').
  rewrite T', A', S', C'. unfold is_blob in *. rewrite T, A, S.
  repeat split; destruct (String.eqb (type b) "blob"); solve [reflexivity | exact C].
Qed.

(** Below the root, [addSingleAuthor] is [addMetrics] on the child. *)
Lemma node_at_addSingleAuthor_child (t : TreeNode) (i : nat) (p : list nat) :
  node_at (addSingleAuthor t) (i :: p)
  = match children t with
    | Some cs =>
        match nth_error cs i with
        | Some c => node_at (addMetrics c) p
        | None => None
        end
    | None => None
    end.
Proof.
  destruct t as [ty au ch ep ef co sa tc]; simpl.
  destruct ch as [[|c cs]|]; simpl; try reflexivity.
  - now destruct i.
  - change (addTopContributor (addSingleAuthor c)
              :: map (fun child => addTopContributor (addSingleAuthor child)) cs)
      with (map addMetrics (c :: cs)).
    rewrite nth_error_map.
    now destruct (nth_error (c :: cs) i).
Qed.

Lemma node_at_addMetrics (p : list nat) :
  forall t b, node_at t p = Some b ->
              exists b', node_at (addMetrics t) p = Some b' /\ annotated b b'.
Proof.
  induction p as [|i p IH]; intros t b H.
  - simpl in H. injection H as <-. exists (addMetrics t).
    split; [reflexivity | apply addMetrics_annotated].
  - unfold addMetrics at 1.
    rewrite node_at_addTopContributor, node_at_addSingleAuthor_child.
    simpl in H.
    destruct (children t) as [cs|]; [|discriminate].
    destruct (nth_error cs i) as [c|]; [|discriminate].
    destruct (IH c b H) as (b' & Hb' & Ha).
    rewrite Hb'. simpl. exists (addTopContributor b').
    split; [reflexivity | now apply addTopContributor_annotated].
Qed.

(** ** The scan of [addTopContributor] *)

(** Either no entry exceeds the initial bound and the state is unchanged,
    or the state ends at the first entry that holds the largest value. *)
Lemma scan_from (es : list (string * number)) :
  forall m s,
    let r := fold_left topStep es (m, s) in
    (r = (m, s) /\ forall k v, In (k, v) es -> gt v m = false) \/
    (exists i v,
        nth_error es i = Some (snd r, v) /\ fst r = v /\ gt v m = true /\
        (forall j k' v', nth_error es j = Some (k', v') -> gt v' v = false) /\
        (forall j k' v', (j < i)%nat -> nth_error es j = Some (k', v') ->
                         gt v v' = true \/ v' = NaN)).
Proof.
  induction es as [|[k0 v0] es IH]; intros m s; simpl.
  - left. split; [reflexivity | tauto].
  - destruct (gt v0 m) eqn:G.
    + destruct (IH v0 k0) as [[Hr Hall] | (i & v & Hn & Hf & Hg & Hmax & Hfirst)].
      * right. exists 0%nat, v0. rewrite Hr. simpl.
        repeat split; try assumption.
        -- intros [|j] k' v' Hj; simpl in Hj.
           ++ injection Hj as _ <-. apply gt_irrefl.
           ++ eapply Hall. eapply nth_error_In. eassumption.
        -- intros j k' v' Hlt. inversion Hlt.
      * right. exists (S i), v. simpl.
        repeat split; try assumption.
        -- eapply gt_trans; eassumption.
        -- intros [|j] k' v' Hj; simpl in Hj.
           ++ injection Hj as _ <-. now apply gt_asym.
           ++ eapply Hmax; eassumption.
        -- intros [|j] k' v' Hlt Hj; simpl in Hj.
           ++ injection Hj as _ <-. now left.
           ++ eapply Hfirst; [|eassumption]. lia.
    + destruct (IH m s) as [[Hr Hall] | (i & v & Hn & Hf & Hg & Hmax & Hfirst)].
      * left. split; [assumption|].
        intros k v [Heq | Hin]; [injection Heq as _ <-; exact G | eauto].
      * right. exists (S i), v. simpl.
        repeat split; try assumption.
        -- intros [|j] k' v' Hj; simpl in Hj.
           ++ injection Hj as _ <-. eapply gt_false_mono; eassumption.
           ++ eapply Hmax; eassumption.
        -- intros [|j] k' v' Hlt Hj; simpl in Hj.
           ++ injection Hj as _ <-.
              destruct (is_NaN v0) eqn:N.
              ** right. now destruct v0.
              ** left. eapply gt_le_trans; eassumption.
           ++ eapply Hfirst; [|eassumption]. lia.
Qed.

(* ================================================================== *)
(** ** MetricsAnnotator *)

(** C3, as the code has it.  For every blob of a tree, after
    [addTopContributor] the field [topContributor] holds the result of a
    scan of the [authors] entries in iteration order that starts from the
    bound [-1] and replaces the running maximum under strict [>]: it is the
    empty string when no value exceeds [-1] (the map is empty or absent, or
    every value is [NaN] or at most [-1]), and otherwise it is the key of
    the first entry that holds the largest value, for sorted and unsorted
    maps alike. *)
Theorem topContributor_first_maximum (t : TreeNode) (p : list nat) (b : TreeNode) :
  node_at t p = Some b -> is_blob b = true ->
  exists b' s,
    node_at (addTopContributor t) p = Some b' /\
    topContributor b' = Some s /\
    ((s = "" /\
      forall k v, In (k, v) (JsObj.entries (authors_or_empty (authors b))) ->
                  gt v (of_Z (-1)) = false) \/
     (exists i v,
         nth_error (JsObj.entries (authors_or_empty (authors b))) i = Some (s, v) /\
         gt v (of_Z (-1)) = true /\
         (forall j k' v',
             nth_error (JsObj.entries (authors_or_empty (authors b))) j = Some (k', v') ->
             gt v' v = false) /\
         (forall j k' v',
             (j < i)%nat ->
             nth_error (JsObj.entries (authors_or_empty (authors b))) j = Some (k', v') ->
             gt v v' = true \/ v' = NaN))).
Proof.
  intros Hat Hblob.
  exists (addTopContributor b), (topContributorOf (authors b)).
  split; [now rewrite node_at_addTopContributor, Hat|].
  destruct (addTopContributor_fields b) as (_ & _ & _ & C).
  rewrite Hblob in C. split; [exact C|].
  assert (E : topContributorOf (authors b)
              = snd (scanTop (JsObj.entries (authors_or_empty (authors b))))).
  { now destruct (authors b). }
  rewrite E. unfold scanTop.
  destruct (scan_from (JsObj.entries (authors_or_empty (authors b))) (of_Z (-1)) "")
    as [[Hr Hall] | (i & v & Hn & Hf & Hg & Hmax & Hfirst)].
  - left. rewrite Hr. split; [reflexivity | exact Hall].
  - right. exists i, v. auto.
Qed.

Lemma topContributor_first_maximum_witness :
  node_at exampleTree [0%nat] = Some exampleBlob /\ is_blob exampleBlob = true /\
  exists b' s,
    node_at (addTopContributor exampleTree) [0%nat] = Some b' /\
    topContributor b' = Some s /\
    ((s = "" /\
      forall k v, In (k, v) (JsObj.entries (authors_or_empty (authors exampleBlob))) ->
                  gt v (of_Z (-1)) = false) \/
     (exists i v,
         nth_error (JsObj.entries (authors_or_empty (authors exampleBlob))) i = Some (s, v) /\
         gt v (of_Z (-1)) = true /\
         (forall j k' v',
             nth_error (JsObj.entries (authors_or_empty (authors exampleBlob))) j
             = Some (k', v') ->
             gt v' v = false) /\
         (forall j k' v',
             (j < i)%nat ->
             nth_error (JsObj.entries (authors_or_empty (authors exampleBlob))) j
             = Some (k', v') ->
             gt v v' = true \/ v' = NaN))).
Proof.
  split; [reflexivity|]. split; [reflexivity|].
  apply (topContributor_first_maximum exampleTree [0%nat] exampleBlob); reflexivity.
Defined.

(** C3 fails as stated: normalising a blob whose only author has weight 0
    leaves the percentage [NaN], and the scan then ends on the empty
    string although the map has the key ["A"]. *)
Lemma topContributor_not_a_key :
  authors (updateAuthorValues zeroWeightBlob) = Some [("A", NaN)] /\
  topContributor (addTopContributor (updateAuthorValues zeroWeightBlob)) = Some "" /\
  ~ In "" (JsObj.keys [("A", NaN)]).
Proof.
  split; [reflexivity|]. split; [reflexivity|].
  simpl. intros [H | []]. discriminate H.
Qed.

(** C4.  For every blob of a tree, after [addMetrics] the flag
    [singleAuthor] is [true] exactly when the blob's [authors] map has one
    key, that is when the blob has an [authors] field that holds a single
    entry, and [false] otherwise, also when the map is empty or absent;
    the map itself is left as it was. *)
Theorem singleAuthor_iff_one_author (t : TreeNode) (p : list nat) (b : TreeNode) :
  node_at t p = Some b -> is_blob b = true ->
  exists b',
    node_at (addMetrics t) p = Some b' /\
    authors b' = authors b /\
    (singleAuthor b' = Some true <-> exists k v, authors b = Some [(k, v)]) /\
    (singleAuthor b' = Some false <-> ~ exists k v, authors b = Some [(k, v)]) /\
    (authors b = None \/ authors b = Some [] -> singleAuthor b' = Some false).
Proof.
  intros Hat Hblob.
  destruct (node_at_addMetrics p t b Hat) as (b' & Hb' & _ & A & S & _).
  exists b'. rewrite Hblob in S. rewrite S.
  split; [exact Hb'|]. split; [exact A|].
  unfold singleAuthorFlag, authors_or_empty, JsObj.keys, JsObj.empty.
  destruct (authors b) as [[|[k v] [|e r]]|]; cbn [map List.length Nat.eqb];
    repeat split; intros;
    repeat match goal with
      | |- ~ _ => intro
      | H : exists _, _ |- _ => destruct H
      | H : _ \/ _ |- _ => destruct H
      end;
    try reflexivity; try discriminate; eauto.
  exfalso. eauto.
Qed.

(** On a blob with the single author ["A"] the flag is [true]. *)
Lemma singleAuthor_iff_one_author_witness :
  node_at (dir [soloBlob; exampleBlob]) [0%nat] = Some soloBlob /\
  is_blob soloBlob = true /\
  exists b',
    node_at (addMetrics (dir [soloBlob; exampleBlob])) [0%nat] = Some b' /\
    authors b' = authors soloBlob /\
    singleAuthor b' = Some true.
Proof.
  split; [reflexivity|]. split; [reflexivity|].
  destruct (singleAuthor_iff_one_author (dir [soloBlob; exampleBlob]) [0%nat] soloBlob)
    as (b' & Hb' & A & T & _); [reflexivity | reflexivity |].
  exists b'. split; [exact Hb'|]. split; [exact A|].
  apply T. exists "A", (of_Z 7). reflexivity.
Defined.

(** C10.  [addSingleAuthor] called alone on a node with children sets
    [topContributor] as well as [singleAuthor] on every blob below the
    root, because it descends through [addMetrics]; the root's own
    [topContributor] is left as it was, and the root receives
    [singleAuthor] when it is a blob. *)
Theorem addSingleAuthor_sets_topContributor_below
        (t : TreeNode) (i : nat) (p : list nat) (b : TreeNode) :
  node_at t (i :: p) = Some b -> is_blob b = true ->
  (exists b',
      node_at (addSingleAuthor t) (i :: p) = Some b' /\
      topContributor b' = Some (topContributorOf (authors b)) /\
      singleAuthor b' = Some (singleAuthorFlag (authors b))) /\
  topContributor (addSingleAuthor t) = topContributor t /\
  singleAuthor (addSingleAuthor t)
  = (if is_blob t then Some (singleAuthorFlag (authors t)) else singleAuthor t).
Proof.
  intros Hat Hblob. split.
  - rewrite node_at_addSingleAuthor_child. simpl in Hat.
    destruct (children t) as [cs|]; [|discriminate].
    destruct (nth_error cs i) as [c|]; [|discriminate].
    destruct (node_at_addMetrics p c b Hat) as (b' & Hb' & _ & _ & S & C).
    rewrite Hblob in S, C. exists b'. auto.
  - destruct (addSingleAuthor_fields t) as (_ & _ & S & C). auto.
Qed.

Lemma addSingleAuthor_sets_topContributor_below_witness :
  node_at exampleTree [0%nat] = Some exampleBlob /\ is_blob exampleBlob = true /\
  (exists b',
      node_at (addSingleAuthor exampleTree) [0%nat] = Some b' /\
      topContributor b' = Some (topContributorOf (authors exampleBlob)) /\
      singleAuthor b' = Some (singleAuthorFlag (authors exampleBlob))) /\
  topContributor (addSingleAuthor exampleTree) = topContributor exampleTree /\
  singleAuthor (addSingleAuthor exampleTree)
  = (if is_blob exampleTree then Some (singleAuthorFlag (authors exampleTree))
     else singleAuthor exampleTree).
Proof.
  split; [reflexivity|]. split; [reflexivity|].
  apply (addSingleAuthor_sets_topContributor_below exampleTree 0 [] exampleBlob);
    reflexivity.
Defined.

(* ================================================================== *)
(** ** DateEnricher and CommitEnricher *)



(** No hash in hexadecimal digits is the name of a member of
    [Object.prototype]. *)
Lemma hexadecimal_not_inherited (h : string) :
  hexadecimal h = true -> ~ In h JsObj.prototype_members.
Proof.
  intros H Hin. cbn [In] in Hin.
  repeat (destruct Hin as [<- | Hin]; [vm_compute in H; discriminate H|]).
  exact Hin.
Qed.



(** Enriched records are not hashes: each one is looked up under the key
    that an object converts to. *)
Lemma resolve_records (d : JsObj.t RawCommit) (l : list CommitEntry) :
  JsObj.get d "[object Object]" = None ->
  Forall (fun e => toPropertyKey e = "[object Object]") l ->
  resolve d l = [].
Proof.
  intros H. induction 1 as [|e l He _ IH]; cbn [resolve]; [reflexivity|].
  rewrite He. unfold JsObj.read. rewrite H. exact IH.
Qed.

Section EnricherFacts.
Variable Date : Type.
Variable newDate : number -> Date.
Variable getDate getMonth getFullYear : Date -> option Z.

Local Abbreviation updateLastChangeDate' :=
  (updateLastChangeDate Date newDate getDate getMonth getFullYear).
Local Abbreviation updateCommits' :=
  (updateCommits Date newDate getDate getMonth getFullYear).
Local Abbreviation updatedCommits' :=
  (updatedCommits Date newDate getDate getMonth getFullYear).
Local Abbreviation enrich' := (enrich Date newDate getDate getMonth getFullYear).
Local Abbreviation formatted :=
  (fun unixTime : Z =>
     formatDate Date getDate getMonth getFullYear
                (convertUnixTimeToDate Date newDate unixTime)).

Lemma enrich_records (l : list Resolved) :
  Forall (fun e => toPropertyKey e = "[object Object]") (map enrich' l).
Proof.
  induction l as [|[c|m] l IH]; cbn [map]; constructor; try exact IH; reflexivity.
Qed.


(** C5, as the code has it.  A second run of [updateCommits] on a blob
    whose [commits] already holds enriched records does not raise an
    error: every record is looked up under the key ["[object Object]"],
    so, when the dictionary has no such key, the second run replaces
    [commits] with the empty list.  The operation is therefore not
    idempotent as soon as the first run kept one commit. *)
Theorem updateCommits_second_pass
        (d : JsObj.t RawCommit) (b : TreeNode) (hs : list string) :
  is_blob b = true -> commits b = Some (map CHash hs) ->
  JsObj.get d "[object Object]" = None ->
  exists b1,
    updateCommits' d b = Ok b1 /\
    commits b1 = Some (updatedCommits' d (map CHash hs)) /\
    updateCommits' d b1 = Ok (set_commits b1 []) /\
    (resolve d (map CHash hs) <> [] -> set_commits b1 [] <> b1).
Proof.
  intros Hblob Hco Hkey.
  destruct b as [ty au ch ep ef co sa tc]. unfold is_blob in Hblob.
  simpl in *. subst co. rewrite Hblob.
  eexists. split; [reflexivity|]. split; [reflexivity|]. split.
  - simpl. rewrite Hblob. unfold set_commits. simpl. do 2 f_equal.
    unfold updatedCommits at 1. unfold updatedCommits.
    rewrite (resolve_records d _ Hkey (enrich_records _)). reflexivity.
  - intros Hne Heq. unfold set_commits in Heq. simpl in Heq.
    injection Heq as Heq. unfold updatedCommits in Heq.
    symmetry in Heq. apply map_eq_nil in Heq.
    apply Hne. apply length_zero_iff_nil.
    rewrite <- (sort_length byTimeDesc). now rewrite Heq.
Qed.

(** C9, as the code has it.  On a node of type ['tree'] without a
    [children] field, [updateLastChangeDate] and [updateCommits] raise a
    [TypeError], whereas [updateAuthorValues] returns normally: it rewrites
    the node's own [authors] map when the node carries one and changes
    nothing else, so a node without [authors] is returned unchanged. *)
Theorem tree_without_children (d : JsObj.t RawCommit) (n : TreeNode) :
  is_tree n = true -> children n = None ->
  updateLastChangeDate' n = TypeError /\
  updateCommits' d n = TypeError /\
  updateAuthorValues n
  = match authors n with
    | Some a => set_authors n (sortedAuthors a)
    | None => n
    end.
Proof.
  intros Htree Hch.
  destruct n as [ty au ch ep ef co sa tc]. unfold is_tree in Htree.
  simpl in *. subst ch.
  apply String.eqb_eq in Htree. subst ty. simpl.
  repeat split; destruct au; reflexivity.
Qed.

End EnricherFacts.


(** The same run, computed: ["h0"] is dropped, ["h1"] and ["h3"] share the
    newest [time] and keep their order, ["h2"] comes last. *)
Example updateCommits_tiedBlob :
  UTC.updateCommits tiedCommits tiedBlob
  = Ok (set_commits tiedBlob
          [CRecord (mkCommit "h1" "m1" "14 Nov 2023");
           CRecord (mkCommit "h3" "m3" "14 Nov 2023");
           CRecord (mkCommit "h2" "m2" "22 Jul 2023")]).
Proof. vm_compute. reflexivity. Qed.

(** A hash that names a member of [Object.prototype] resolves to that
    member, which is not [undefined]: the blob is left with a record
    without [hash] and [message]. *)
Example updateCommits_inherited_name :
  UTC.updateCommits exampleCommits
                    (mkNode "blob" None None None None
                            (Some [CHash "constructor"; CHash "h0"]) None None)
  = Ok (mkNode "blob" None None None None
               (Some [CBlank "NaN undefined NaN"]) None None).
Proof. vm_compute. reflexivity. Qed.

Lemma updateCommits_second_pass_witness :
  is_blob exampleBlob = true /\
  commits exampleBlob = Some (map CHash ["h1"; "h2"]) /\
  JsObj.get exampleCommits "[object Object]" = None /\
  exists b1,
    UTC.updateCommits exampleCommits exampleBlob = Ok b1 /\
    commits b1
    = Some (updatedCommits UTC.Date UTC.newDate UTC.getDate UTC.getMonth
                           UTC.getFullYear exampleCommits (map CHash ["h1"; "h2"])) /\
    UTC.updateCommits exampleCommits b1 = Ok (set_commits b1 []) /\
    (resolve exampleCommits (map CHash ["h1"; "h2"]) <> [] -> set_commits b1 [] <> b1).
Proof.
  split; [reflexivity|]. split; [reflexivity|]. split; [reflexivity|].
  apply (updateCommits_second_pass UTC.Date UTC.newDate UTC.getDate UTC.getMonth
                                   UTC.getFullYear exampleCommits exampleBlob
                                   ["h1"; "h2"]);
    reflexivity.
Defined.

(** C5 fails as stated: the second run on the enriched example blob
    returns normally, with an empty [commits]. *)
Lemma second_pass_does_not_fail :
  UTC.updateCommits exampleCommits exampleBlob = Ok enrichedBlob /\
  UTC.updateCommits exampleCommits enrichedBlob = Ok (set_commits enrichedBlob []) /\
  UTC.updateCommits exampleCommits enrichedBlob <> TypeError.
Proof.
  split; [vm_compute; reflexivity|].
  split; [vm_compute; reflexivity|].
  vm_compute. discriminate.
Qed.

Lemma tree_without_children_witness :
  is_tree authoredDir = true /\ children authoredDir = None /\
  UTC.updateLastChangeDate authoredDir = TypeError /\
  UTC.updateCommits exampleCommits authoredDir = TypeError /\
  updateAuthorValues authoredDir
  = match authors authoredDir with
    | Some a => set_authors authoredDir (sortedAuthors a)
    | None => authoredDir
    end.
Proof.
  split; [reflexivity|]. split; [reflexivity|].
  apply (tree_without_children UTC.Date UTC.newDate UTC.getDate UTC.getMonth
                               UTC.getFullYear exampleCommits authoredDir);
    reflexivity.
Defined.

(** C9 fails as stated: a ['tree'] node without [children] that carries
    raw author weights is rewritten by [updateAuthorValues]. *)
Lemma authored_tree_is_rewritten :
  is_tree authoredDir = true /\ children authoredDir = None /\
  updateAuthorValues authoredDir
  = set_authors authoredDir [("B", of_Z 75); ("A", of_Z 25)] /\
  updateAuthorValues authoredDir <> authoredDir.
Proof.
  split; [reflexivity|]. split; [reflexivity|].
  split; [vm_compute; reflexivity|].
  vm_compute. discriminate.
Qed.

(* ================================================================== *)
(** ** AggregateStatsCalculator *)

(** On a node without children that is not a blob carrying the field, the
    four reductions return 0. *)
Lemma empty_tree_statistics (n : TreeNode) :
  is_blob n = false -> (children n = None \/ children n = Some []) ->
  getMinCommits n = of_Z 0 /\ getMaxCommits n = of_Z 0 /\
  getFirstChangeEpoch n = of_Z 0 /\ getLastChangeEpoch n = of_Z 0.
Proof.
  destruct n as [ty au ch ep ef co sa tc]. unfold is_blob. simpl.
  intros Hb [-> | ->]; rewrite Hb; simpl; auto.
Qed.

Lemma gt_of_Z (a b : Z) : gt (of_Z a) (of_Z b) = (b <? a)%Z.
Proof.
  unfold of_Z. simpl. destruct (b <? a)%Z eqn:E.
  - apply Qlt_b_true. rewrite <- Zlt_Qlt. now apply Z.ltb_lt.
  - apply Qlt_b_false. rewrite <- Zle_Qle. now apply Z.ltb_ge.
Qed.

Lemma Math_max_of_Z (a b : Z) : Math_max (of_Z a) (of_Z b) = of_Z (Z.max a b).
Proof.
  change (Math_max (of_Z a) (of_Z b))
    with (if gt (of_Z b) (of_Z a) then of_Z b else of_Z a).
  rewrite gt_of_Z. destruct (a <? b)%Z eqn:E; f_equal.
  - apply Z.ltb_lt in E. lia.
  - apply Z.ltb_ge in E. lia.
Qed.

Lemma Math_min_ext (o : option Z) (z : Z) :
  Math_min (ext o) (of_Z z) = of_Z (min_opt o z).
Proof.
  destruct o as [a|]; [|reflexivity].
  change (Math_min (ext (Some a)) (of_Z z))
    with (if gt (of_Z a) (of_Z z) then of_Z z else of_Z a).
  rewrite gt_of_Z. simpl. destruct (z <? a)%Z eqn:E; f_equal.
  - apply Z.ltb_lt in E. lia.
  - apply Z.ltb_ge in E. lia.
Qed.

Lemma flat_map_nodes (f : TreeNode -> list Z) (cs : list TreeNode) :
  flat_map f (flat_map nodes cs) = flat_map (fun c => flat_map f (nodes c)) cs.
Proof.
  induction cs as [|c cs IH]; simpl; [reflexivity|].
  now rewrite flat_map_app, IH.
Qed.

Lemma fold_max_from (l : list Z) :
  forall a, (0 <= a)%Z ->
            fold_left Z.max l a = Z.max a (fold_left Z.max l 0%Z)
            /\ (0 <= fold_left Z.max l a)%Z.
Proof.
  induction l as [|x l IH]; intros a Ha; simpl.
  - split; lia.
  - destruct (IH (Z.max a x)) as [E1 P1]; [lia|].
    destruct (IH (Z.max 0 x)) as [E2 P2]; [lia|].
    rewrite E1, E2. split; lia.
Qed.

Lemma fold_min_assoc (r : list Z) :
  forall a x, Z.min a (fold_left Z.min r x) = fold_left Z.min r (Z.min a x).
Proof.
  induction r as [|y r IH]; intros a x; simpl; [reflexivity|].
  rewrite IH. f_equal. lia.
Qed.

Lemma fold_min_opt_Some (l : list Z) :
  forall a, fold_left (fun o z => Some (min_opt o z)) l (Some a)
            = Some (fold_left Z.min l a).
Proof.
  induction l as [|x l IH]; intro a; simpl; [reflexivity | apply IH].
Qed.

(** Folding the minimum of a non-empty list is folding the list. *)
Lemma fold_min_opt_minimum (l : list Z) (m : Z) (o : option Z) :
  minimum l = Some m ->
  fold_left (fun o z => Some (min_opt o z)) l o = Some (min_opt o m).
Proof.
  destruct l as [|x r]; simpl; [discriminate|].
  intros [= <-]. rewrite fold_min_opt_Some.
  destruct o as [a|]; simpl; [|reflexivity].
  now rewrite fold_min_assoc.
Qed.

(** The shape shared by [getMaxCommits] and [getLastChangeEpoch]. *)
Section MaxFold.
Variable f : TreeNode -> list Z.
Variable g : TreeNode -> number.
Hypothesis f_small : forall n, f n = [] \/ exists x, f n = [x].
Hypothesis g_eq : forall n,
    g n = fold_left (fun m child => Math_max m (g child)) (kids n)
                    (match f n with
                     | [] => of_Z 0
                     | x :: _ => Math_max (of_Z 0) (of_Z x)
                     end).

Lemma max_fold_children (cs : list TreeNode) :
  Forall (fun c => g c = of_Z (fold_left Z.max (flat_map f (nodes c)) 0%Z)) cs ->
  forall a, (0 <= a)%Z ->
    fold_left (fun m child => Math_max m (g child)) cs (of_Z a)
    = of_Z (fold_left Z.max (flat_map (fun c => flat_map f (nodes c)) cs) a).
Proof.
  induction 1 as [|c cs Hc _ IH]; intros a Ha; cbn [fold_left flat_map];
    [reflexivity|].
  rewrite Hc, Math_max_of_Z, fold_left_app.
  destruct (fold_max_from (flat_map f (nodes c)) a Ha) as [E P].
  rewrite <- E. now apply IH.
Qed.

Lemma max_fold (t : TreeNode) :
  g t = of_Z (fold_left Z.max (flat_map f (nodes t)) 0%Z).
Proof.
  induction t as [ty au ep ef co sa tc | ty au cs ep ef co sa tc IH]
    using TreeNode_ind'; rewrite g_eq.
  - simpl. rewrite app_nil_r.
    destruct (f_small (mkNode ty au None ep ef co sa tc)) as [-> | [x ->]];
      [reflexivity | apply Math_max_of_Z].
  - change (kids (mkNode ty au (Some cs) ep ef co sa tc)) with cs.
    simpl nodes. cbn [flat_map]. rewrite flat_map_nodes, fold_left_app.
    destruct (f_small (mkNode ty au (Some cs) ep ef co sa tc)) as [-> | [x ->]].
    + now apply max_fold_children.
    + rewrite Math_max_of_Z. apply max_fold_children; [exact IH | simpl; lia].
Qed.
End MaxFold.

(** The shape shared by [getMinCommits] and [getFirstChangeEpoch]. *)
Section MinFold.
Variable f : TreeNode -> list Z.
Variable g : TreeNode -> number.
Hypothesis f_small : forall n, f n = [] \/ exists x, f n = [x].
Hypothesis g_eq : forall n,
    g n = let m := fold_left (fun m child => Math_min m (g child)) (kids n)
                             (match f n with
                              | [] => PInf
                              | x :: _ => Math_min PInf (of_Z x)
                              end) in
          if eqb m PInf then of_Z 0 else m.

Lemma min_fold_children (cs : list TreeNode) :
  Forall (fun c => exists m, minimum (flat_map f (nodes c)) = Some m /\ g c = of_Z m)
         cs ->
  forall o,
    fold_left (fun m child => Math_min m (g child)) cs (ext o)
    = ext (fold_left (fun o z => Some (min_opt o z))
                     (flat_map (fun c => flat_map f (nodes c)) cs) o).
Proof.
  induction 1 as [|c cs (m & Hm & Hc) _ IH]; intro o; cbn [fold_left flat_map];
    [reflexivity|].
  rewrite Hc, Math_min_ext, fold_left_app, (fold_min_opt_minimum _ m o Hm).
  apply (IH (Some (min_opt o m))).
Qed.

Lemma populated_children ty au cs ep ef co sa tc :
  populated f (mkNode ty au (Some cs) ep ef co sa tc) -> Forall (populated f) cs.
Proof.
  unfold populated. simpl. intro H. inversion H as [|? ? _ Hcs]; subst.
  now apply Forall_flat_map in Hcs.
Qed.

Lemma populated_root (t : TreeNode) :
  populated f t -> flat_map f (nodes t) <> [].
Proof.
  unfold populated. destruct t as [ty au [cs|] ep ef co sa tc]; simpl;
    intro H; now inversion H.
Qed.

Lemma min_fold (t : TreeNode) :
  populated f t ->
  exists m, minimum (flat_map f (nodes t)) = Some m /\ g t = of_Z m.
Proof.
  induction t as [ty au ep ef co sa tc | ty au cs ep ef co sa tc IH]
    using TreeNode_ind'; intro Hp; pose proof (populated_root _ Hp) as Hne;
    rewrite g_eq.
  - simpl in *. rewrite app_nil_r in *.
    destruct (f_small (mkNode ty au None ep ef co sa tc)) as [E | [x E]];
      rewrite E in *; [congruence|].
    exists x. split; reflexivity.
  - pose proof (populated_children _ _ _ _ _ _ _ _ Hp) as Hcs.
    assert (IH' : Forall (fun c => exists m,
                              minimum (flat_map f (nodes c)) = Some m /\ g c = of_Z m)
                         cs).
    { rewrite Forall_forall in *. intros c Hc. apply IH; auto. }
    change (kids (mkNode ty au (Some cs) ep ef co sa tc)) with cs.
    simpl nodes in *. cbn [flat_map] in *. rewrite flat_map_nodes in *.
    set (L := flat_map (fun c => flat_map f (nodes c)) cs) in *.
    assert (E : fold_left (fun m child => Math_min m (g child)) cs
                          (match f (mkNode ty au (Some cs) ep ef co sa tc) with
                           | [] => PInf
                           | x :: _ => Math_min PInf (of_Z x)
                           end)
                = ext (fold_left (fun o z => Some (min_opt o z))
                                 (f (mkNode ty au (Some cs) ep ef co sa tc) ++ L)
                                 None)).
    { destruct (f_small (mkNode ty au (Some cs) ep ef co sa tc)) as [-> | [x ->]].
      - apply (min_fold_children cs IH' None).
      - apply (min_fold_children cs IH' (Some x)). }
    cbv zeta. rewrite E.
    destruct (f (mkNode ty au (Some cs) ep ef co sa tc) ++ L) as [|x r] eqn:EL;
      [congruence|].
    simpl. rewrite fold_min_opt_Some. exists (fold_left Z.min r x).
    split; reflexivity.
Qed.
End MinFold.

Lemma commitCount_small (n : TreeNode) :
  commitCount n = [] \/ exists x, commitCount n = [x].
Proof.
  unfold commitCount. destruct (is_blob n), (commits n); eauto.
Qed.

Lemma changeEpoch_small (n : TreeNode) :
  changeEpoch n = [] \/ exists x, changeEpoch n = [x].
Proof.
  unfold changeEpoch. destruct (is_blob n), (lastChangeEpoch n); eauto.
Qed.

(** X22.  [getMaxCommits] is the largest number of commits of a blob with
    a [commits] field, and 0 when no blob has one. *)
Lemma getMaxCommits_maximum (t : TreeNode) :
  getMaxCommits t = of_Z (fold_left Z.max (commitCounts t) 0%Z).
Proof.
  apply (max_fold commitCount getMaxCommits commitCount_small).
  intros [ty au [cs|] ep ef co sa tc]; unfold commitCount, is_blob; simpl;
    destruct (String.eqb ty "blob"), co; reflexivity.
Qed.

(** X23.  [getLastChangeEpoch] is the largest [lastChangeEpoch] of a blob
    or 0, whichever is larger: epochs before 1970 are reported as 0. *)
Lemma getLastChangeEpoch_maximum (t : TreeNode) :
  getLastChangeEpoch t = of_Z (fold_left Z.max (changeEpochs t) 0%Z).
Proof.
  apply (max_fold changeEpoch getLastChangeEpoch changeEpoch_small).
  intros [ty au [cs|] ep ef co sa tc]; unfold changeEpoch, is_blob; simpl;
    destruct (String.eqb ty "blob"), ep; reflexivity.
Qed.

(** X24.  When every subtree holds a blob with a [commits] field,
    [getMinCommits] is the least number of commits of such a blob. *)
Lemma getMinCommits_minimum (t : TreeNode) :
  populated commitCount t ->
  exists m, minimum (commitCounts t) = Some m /\ getMinCommits t = of_Z m.
Proof.
  apply (min_fold commitCount getMinCommits commitCount_small).
  intros [ty au [cs|] ep ef co sa tc]; unfold commitCount, is_blob; simpl;
    destruct (String.eqb ty "blob"), co; reflexivity.
Qed.

(** X25.  When every subtree holds a blob with a [lastChangeEpoch],
    [getFirstChangeEpoch] is the least of them. *)
Lemma getFirstChangeEpoch_minimum (t : TreeNode) :
  populated changeEpoch t ->
  exists m, minimum (changeEpochs t) = Some m /\ getFirstChangeEpoch t = of_Z m.
Proof.
  apply (min_fold changeEpoch getFirstChangeEpoch changeEpoch_small).
  intros [ty au [cs|] ep ef co sa tc]; unfold changeEpoch, is_blob; simpl;
    destruct (String.eqb ty "blob"), ep; reflexivity.
Qed.

(** C7 at the inputs where the code departs from it.  In a directory that
    holds a blob with two commits next to a blob without a [commits] field
    (or next to an empty sub-directory), the blobs that carry the field
    have 2 as their least number of commits and 1700000000 as their least
    [lastChangeEpoch], but [getMinCommits] and [getFirstChangeEpoch] both
    return 0: the inner calls turn their "nothing found" value into 0
    before the minimum is taken. *)
Theorem min_reductions_leak_zero :
  minimum (commitCounts partialTree) = Some 2%Z /\
  getMinCommits partialTree = of_Z 0 /\
  minimum (changeEpochs partialTree) = Some 1700000000%Z /\
  getFirstChangeEpoch partialTree = of_Z 0 /\
  minimum (commitCounts sparseTree) = Some 2%Z /\
  getMinCommits sparseTree = of_Z 0 /\
  minimum (changeEpochs sparseTree) = Some 1700000000%Z /\
  getFirstChangeEpoch sparseTree = of_Z 0.
Proof. repeat split; vm_compute; reflexivity. Qed.

(* ================================================================== *)
(** ** ComplexityAggregator *)

Lemma fold_left_sum {A : Type} (f : A -> nat) (l : list A) (acc : nat) :
  fold_left (fun sum x => sum + f x)%nat l acc = (acc + list_sum (map f l))%nat.
Proof.
  revert acc. induction l as [|x l IH]; intro acc; simpl.
  - lia.
  - rewrite IH. lia.
Qed.

Lemma list_sum_flat_map {A B : Type} (g : B -> nat) (f : A -> list B) (l : list A) :
  list_sum (map g (flat_map f l))
  = list_sum (map (fun x => list_sum (map g (f x))) l).
Proof.
  induction l as [|x l IH]; simpl; [reflexivity|].
  now rewrite map_app, list_sum_app, IH.
Qed.

Lemma existsb_flat_map {A B : Type} (g : B -> bool) (f : A -> list B) (l : list A) :
  existsb g (flat_map f l) = existsb (fun x => existsb g (f x)) l.
Proof.
  induction l as [|x l IH]; simpl; [reflexivity|].
  now rewrite existsb_app, IH.
Qed.

Lemma length_filter_flat_map {A B : Type} (g : B -> bool) (f : A -> list B)
      (l : list A) :
  List.length (filter g (flat_map f l))
  = list_sum (map (fun x => List.length (filter g (f x))) l).
Proof.
  induction l as [|x l IH]; simpl; [reflexivity|].
  now rewrite filter_app, length_app, IH.
Qed.

Lemma well_formed_root (n : TreeNode) :
  well_formed n -> leaf_blob n /\ distinct_keys n.
Proof.
  unfold well_formed. destruct n as [ty au [cs|] ep ef co sa tc]; simpl;
    intro H; now inversion H.
Qed.

Lemma well_formed_children ty au cs ep ef co sa tc :
  well_formed (mkNode ty au (Some cs) ep ef co sa tc) -> Forall well_formed cs.
Proof.
  unfold well_formed. simpl. intro H. inversion H as [|? ? _ Hcs]; subst.
  now apply Forall_flat_map in Hcs.
Qed.

(** On a well-formed tree the recursive count of the code is the number of
    blobs under the node. *)
Lemma calculateComplexity_blobCount (t : TreeNode) :
  well_formed t -> calculateComplexity t = blobCount t.
Proof.
  induction t as [ty au ep ef co sa tc | ty au cs ep ef co sa tc IH]
    using TreeNode_ind'; intro W.
  - unfold blobCount, is_blob. simpl.
    now destruct (String.eqb ty "blob").
  - pose proof (well_formed_children _ _ _ _ _ _ _ _ W) as Wcs.
    destruct (well_formed_root _ W) as [L _]. unfold leaf_blob, is_blob in L.
    simpl in L.
    unfold blobCount. simpl. unfold is_blob at 1. simpl.
    destruct (String.eqb ty "blob") eqn:B.
    + destruct (L eq_refl) as [H | H]; [discriminate|].
      injection H as ->. reflexivity.
    + rewrite fold_left_sum, length_filter_flat_map. simpl.
      f_equal. apply map_ext_in. intros c Hc.
      rewrite Forall_forall in IH, Wcs. now apply IH; [|apply Wcs].
Qed.

(** The count of the code depends on the types and the shape only. *)
Lemma calculateComplexity_unfold (n : TreeNode) :
  calculateComplexity n
  = if is_blob n then 1%nat
    else list_sum (map calculateComplexity (kids n)).
Proof.
  destruct n as [ty au [cs|] ep ef co sa tc]; unfold is_blob, kids;
    cbn [calculateComplexity type children];
    destruct (String.eqb ty "blob"); try reflexivity.
  now rewrite fold_left_sum.
Qed.

(** One pass of the loop body changes the entry of its own author and no
    other. *)
Lemma get_credit (c : nat) (o : JsObj.t Tally) (e : string * number) (a : string) :
  JsObj.get (credit c o e) a
  = if String.eqb (fst e) a then credited a (JsObj.get o a) c else JsObj.get o a.
Proof.
  destruct e as [k w]. cbn [fst].
  destruct (String.eqb k a) eqn:E.
  - apply String.eqb_eq in E. subst a.
    assert (R : forall o' v, JsObj.get o' k <> None ->
                JsObj.read o' k
                = match JsObj.get o' k return JsObj.Read Tally with
                  | Some x => JsObj.Own x
                  | None => JsObj.Undefined
                  end /\
                JsObj.get (JsObj.assign o' k v) k = Some v).
    { intros o' v H. unfold JsObj.read. rewrite get_assign. unfold JsObj.has.
      destruct (JsObj.get o' k); [|congruence].
      cbn [negb andb]. now rewrite String.eqb_refl. }
    unfold credit. cbn [fst].
    destruct (JsObj.get o k) as [x|] eqn:G.
    + assert (N : JsObj.get o k <> None) by congruence.
      destruct (R o (Count 0) N) as [R1 R2]. rewrite G in R1. rewrite R1.
      assert (N' : JsObj.get (JsObj.assign o k (Count 0)) k <> None) by congruence.
      destruct x as [[|n]| |m l]; cbn [falsy].
      * destruct (R (JsObj.assign o k (Count 0))
                    (plus k (JsObj.read (JsObj.assign o k (Count 0)) k) c) N')
          as [R3 R4].
        rewrite R4, R3, R2. reflexivity.
      * destruct (R o (plus k (JsObj.Own (Count (S n))) c) N) as [_ R4].
        rewrite R1, R4. reflexivity.
      * destruct (R (JsObj.assign o k (Count 0))
                    (plus k (JsObj.read (JsObj.assign o k (Count 0)) k) c) N')
          as [R3 R4].
        rewrite R4, R3, R2. reflexivity.
      * destruct (R o (plus k (JsObj.Own (Text m l)) c) N) as [_ R4].
        rewrite R1, R4. reflexivity.
    + assert (Rd : JsObj.read o k
                   = if JsObj.inherited k then JsObj.Inherited else JsObj.Undefined).
      { unfold JsObj.read. now rewrite G. }
      cbn [credited].
      destruct (JsObj.inherited k) eqn:I; rewrite !Rd; cbn [falsy].
      * rewrite Rd. cbn [plus].
        rewrite get_assign. unfold JsObj.has. rewrite G. cbn [negb andb].
        destruct (String.eqb k "__proto__"); [reflexivity | now rewrite String.eqb_refl].
      * assert (P : String.eqb k "__proto__" = false).
        { destruct (String.eqb k "__proto__") eqn:P; [|reflexivity].
          apply String.eqb_eq in P. subst k. discriminate I. }
        assert (G0 : JsObj.get (JsObj.assign o k (Count 0)) k = Some (Count 0)).
        { rewrite get_assign, P, andb_false_r. now rewrite String.eqb_refl. }
        assert (N' : JsObj.get (JsObj.assign o k (Count 0)) k <> None) by congruence.
        destruct (R (JsObj.assign o k (Count 0))
                    (plus k (JsObj.read (JsObj.assign o k (Count 0)) k) c) N')
          as [R3 R4].
        rewrite R4, R3, G0. reflexivity.
  - unfold credit. cbn [fst]. rewrite get_assign.
    destruct (falsy (JsObj.read o k)).
    + rewrite get_assign, E.
      repeat match goal with |- context [if ?b then _ else _] => destruct b end;
        reflexivity.
    + rewrite E.
      repeat match goal with |- context [if ?b then _ else _] => destruct b end;
        reflexivity.
Qed.

Lemma has_cons {V : Type} (k : string) (v : V) (r : JsObj.t V) (a : string) :
  JsObj.has ((k, v) :: r) a = String.eqb k a || JsObj.has r a.
Proof. unfold JsObj.has. simpl. now destruct (String.eqb k a). Qed.

Lemma get_fold_credit (c : nat) (es : JsObj.t number) :
  NoDup (JsObj.keys es) ->
  forall (o : JsObj.t Tally) (a : string),
    JsObj.get (fold_left (credit c) (JsObj.entries es) o) a
    = if JsObj.has es a then credited a (JsObj.get o a) c else JsObj.get o a.
Proof.
  unfold JsObj.entries.
  induction es as [|[k v] r IH]; intros Hnd o a; cbn [fold_left].
  - reflexivity.
  - inversion Hnd as [|? ? Hnotin Hnd']; subst.
    rewrite IH by assumption. rewrite get_credit, has_cons. cbn [fst].
    destruct (String.eqb k a) eqn:E; cbn [orb].
    + apply String.eqb_eq in E. subst a.
      apply has_false_iff in Hnotin. rewrite Hnotin. reflexivity.
    + reflexivity.
Qed.

Lemma distinct_keys_root (n : TreeNode) :
  Forall distinct_keys (nodes n) -> distinct_keys n.
Proof. destruct n as [ty au [cs|] ep ef co sa tc]; intro H; now inversion H. Qed.

Lemma credits_node ty au cs ep ef co sa tc (a : string) :
  credits (mkNode ty au (Some cs) ep ef co sa tc) a
  = (if carries (mkNode ty au (Some cs) ep ef co sa tc) a
     then [calculateComplexity (mkNode ty au (Some cs) ep ef co sa tc)] else [])
    ++ flat_map (fun c => credits c a) cs.
Proof.
  unfold credits. cbn [nodes flat_map]. f_equal.
  induction cs as [|c cs IH]; cbn [flat_map]; [reflexivity|].
  now rewrite flat_map_app, IH.
Qed.

(** The entry of [a] after a traversal that starts from [o]: the credits
    of [a], applied one after the other to the entry that [o] has. *)
Lemma get_traverseTree (t : TreeNode) :
  Forall distinct_keys (nodes t) ->
  forall (o : JsObj.t Tally) (a : string),
    JsObj.get (traverseTree t o) a
    = fold_left (credited a) (credits t a) (JsObj.get o a).
Proof.
  induction t as [ty au ep ef co sa tc | ty au cs ep ef co sa tc IH]
    using TreeNode_ind'; intros W o a.
  - pose proof (distinct_keys_root _ W) as D. unfold distinct_keys in D.
    cbn [authors] in D.
    unfold credits, carries. cbn [nodes flat_map authors traverseTree].
    rewrite app_nil_r.
    destruct au as [es|]; [|reflexivity].
    rewrite get_fold_credit by exact D.
    now destruct (JsObj.has es a).
  - pose proof (distinct_keys_root _ W) as D. unfold distinct_keys in D.
    cbn [authors] in D.
    assert (Wcs : Forall (fun c => Forall distinct_keys (nodes c)) cs).
    { cbn [nodes] in W. inversion W as [|? ? _ Hcs]; subst.
      now apply Forall_flat_map in Hcs. }
    rewrite credits_node, fold_left_app.
    set (n := mkNode ty au (Some cs) ep ef co sa tc) in *.
    change (traverseTree n o)
      with (fold_left (fun acc child => traverseTree child acc) cs
                      (match au with
                       | Some es => fold_left (credit (calculateComplexity n))
                                              (JsObj.entries es) o
                       | None => o
                       end)).
    assert (Hown : JsObj.get (match au with
                              | Some es => fold_left (credit (calculateComplexity n))
                                                     (JsObj.entries es) o
                              | None => o
                              end) a
                   = fold_left (credited a)
                               (if carries n a then [calculateComplexity n] else [])
                               (JsObj.get o a)).
    { unfold carries. change (authors n) with au.
      destruct au as [es|]; [|reflexivity].
      rewrite get_fold_credit by exact D.
      now destruct (JsObj.has es a). }
    rewrite <- Hown. clear Hown W D.
    generalize (match au with
                | Some es => fold_left (credit (calculateComplexity n))
                                       (JsObj.entries es) o
                | None => o
                end). clear o. subst n.
    induction cs as [|c cs IHcs]; intro o; cbn [fold_left flat_map].
    + reflexivity.
    + inversion IH; inversion Wcs; subst.
      rewrite fold_left_app. rewrite IHcs by assumption.
      f_equal. auto.
Qed.

(** An author whose name no object inherits is counted. *)
Lemma fold_credited_Count (a : string) (cs : list nat) (n : nat) :
  fold_left (credited a) cs (Some (Count n)) = Some (Count (n + list_sum cs)).
Proof.
  revert n. induction cs as [|c cs IH]; intro n; cbn [fold_left list_sum fold_right].
  - now rewrite Nat.add_0_r.
  - cbn [credited]. rewrite IH. now rewrite Nat.add_assoc.
Qed.

Lemma fold_credited_plain (a : string) (cs : list nat) :
  JsObj.inherited a = false ->
  fold_left (credited a) cs None
  = match cs with
    | [] => None
    | _ :: _ => Some (Count (list_sum cs))
    end.
Proof.
  intro I. destruct cs as [|c cs]; [reflexivity|].
  cbn [fold_left credited]. rewrite I. rewrite fold_credited_Count. reflexivity.
Qed.

(** The name ['__proto__'] never gets an entry. *)
Lemma fold_credited_proto (cs : list nat) :
  fold_left (credited "__proto__") cs None = None.
Proof. induction cs as [|c cs IH]; [reflexivity | exact IH]. Qed.

Lemma credits_listed (t : TreeNode) (a : string) :
  credits t a = [] <-> listed t a = false.
Proof.
  unfold credits, listed. induction (nodes t) as [|n l IH]; cbn [flat_map existsb].
  - tauto.
  - destruct (carries n a); cbn [orb app].
    + split; discriminate.
    + exact IH.
Qed.

(** On a well-formed tree the credits are the numbers of blobs under the
    nodes that list the author. *)
Lemma credits_sum (t : TreeNode) (a : string) :
  well_formed t -> list_sum (credits t a) = creditOf t a.
Proof.
  induction t as [ty au ep ef co sa tc | ty au cs ep ef co sa tc IH]
    using TreeNode_ind'; intro W.
  - pose proof (calculateComplexity_blobCount _ W) as Hc.
    unfold credits, creditOf. cbn [nodes flat_map map list_sum fold_right].
    rewrite app_nil_r, Hc.
    destruct (carries _ a); cbn [list_sum fold_right]; lia.
  - pose proof (calculateComplexity_blobCount _ W) as Hc.
    pose proof (well_formed_children _ _ _ _ _ _ _ _ W) as Wcs.
    rewrite credits_node, list_sum_app, Hc.
    unfold creditOf. cbn [nodes map list_sum fold_right].
    rewrite list_sum_flat_map.
    f_equal.
    + destruct (carries _ a); cbn [list_sum fold_right]; lia.
    + clear Hc W. induction cs as [|c cs IHcs]; cbn [flat_map map list_sum fold_right].
      * reflexivity.
      * inversion IH; inversion Wcs; subst.
        rewrite list_sum_app. f_equal; [|now apply IHcs].
        unfold creditOf in *. auto.
Qed.

Lemma well_formed_distinct (t : TreeNode) :
  well_formed t -> Forall distinct_keys (nodes t).
Proof. unfold well_formed. apply Forall_impl. tauto. Qed.

Lemma well_formed_dir (t : TreeNode) : well_formed t -> well_formed (dir [t]).
Proof.
  unfold well_formed. intro W. simpl. rewrite app_nil_r.
  constructor; [|exact W].
  split; [intro H; discriminate H | exact I].
Qed.

(** The entry of an author on a well-formed tree, when the author's name
    is not the name of a member of [Object.prototype]. *)
Lemma get_calculateComplexityMetric (t : TreeNode) (a : string) :
  well_formed t -> JsObj.inherited a = false ->
  JsObj.get (calculateComplexityMetric t) a
  = if listed t a then Some (Count (creditOf t a)) else None.
Proof.
  intros W I. unfold calculateComplexityMetric.
  rewrite get_traverseTree by now apply well_formed_distinct.
  cbn [JsObj.get JsObj.empty]. rewrite (fold_credited_plain a _ I).
  rewrite <- (credits_sum t a W).
  destruct (credits t a) as [|c cs] eqn:C.
  - apply credits_listed in C. now rewrite C.
  - destruct (listed t a) eqn:L; [reflexivity|].
    apply credits_listed in L. congruence.
Qed.

(** C8, where the code departs from it.  An author whose name is the name
    of a member of [Object.prototype] is not counted: on a single blob
    with the single author ["toString"], [authorComplexity["toString"]] is
    the function that every object inherits, so the entry is not
    initialised to 0, and [+=] leaves a string, the text of the function
    followed by ["1"], where the total should be 1.  An author named
    ["__proto__"] gets no entry at all.  The same blob with the author
    ["A"] gives 1. *)
Theorem complexity_inherited_name :
  is_blob toStringBlob = true /\
  authors toStringBlob = Some [("toString", of_Z 100)] /\
  calculateComplexityMetric toStringBlob = [("toString", Text "toString" [1%nat])] /\
  JsObj.get (calculateComplexityMetric toStringBlob) "toString" <> Some (Count 1) /\
  calculateComplexityMetric (blobOf [("__proto__", of_Z 100)]) = [] /\
  calculateComplexityMetric (blobOf [("A", of_Z 100)]) = [("A", Count 1)].
Proof.
  repeat split. vm_compute. discriminate.
Qed.

(** X17.  On a well-formed tree (a blob is a leaf, the keys of a map are
    distinct), [calculateComplexityMetric] gives an author whose name is
    not the name of a member of [Object.prototype] no entry when no node
    lists the author, and otherwise the sum, over the nodes (trees and
    blobs) whose [authors] map lists the author, of the number of blobs
    under the node, a blob counting itself: an author listed by a
    directory and by a blob below it is credited at both.  For a single
    blob with a single such author the total is 1, alone or as the only
    child of a directory. *)
Theorem complexity_of_plain_authors (t : TreeNode) :
  well_formed t ->
  (forall a, ~ In a JsObj.prototype_members ->
             JsObj.get (calculateComplexityMetric t) a
             = if listed t a then Some (Count (creditOf t a)) else None) /\
  (forall k v, is_blob t = true -> authors t = Some [(k, v)] ->
               ~ In k JsObj.prototype_members ->
               JsObj.get (calculateComplexityMetric t) k = Some (Count 1) /\
               JsObj.get (calculateComplexityMetric (dir [t])) k = Some (Count 1)).
Proof.
  intro W.
  split; [intros a I; apply get_calculateComplexityMetric;
          [exact W | now apply not_inherited]|].
  intros k v Hblob Hau I. apply not_inherited in I.
  assert (Hnodes : nodes t = [t]).
  { destruct (well_formed_root _ W) as [L _].
    destruct t as [ty au ch ep ef co sa tc].
    destruct (L Hblob) as [H | H]; simpl in H; subst ch; reflexivity. }
  assert (Hl : listed t k = true).
  { unfold listed, carries. rewrite Hnodes. simpl. rewrite Hau.
    unfold JsObj.has. simpl. now rewrite String.eqb_refl. }
  assert (Hc : creditOf t k = 1%nat).
  { unfold creditOf. rewrite Hnodes. cbn [map list_sum fold_right].
    unfold blobCount. rewrite Hnodes. cbn [filter]. rewrite Hblob.
    unfold carries. rewrite Hau. unfold JsObj.has. simpl.
    now rewrite String.eqb_refl. }
  split.
  - rewrite get_calculateComplexityMetric by assumption. now rewrite Hl, Hc.
  - rewrite get_calculateComplexityMetric by (try assumption; now apply well_formed_dir).
    unfold listed, creditOf in *. simpl. rewrite app_nil_r.
    now rewrite Hl, Hc.
Qed.

Ltac distinct_strings :=
  repeat (apply NoDup_cons; [simpl; intuition discriminate|]); apply NoDup_nil.

Ltac leaf_or_dir :=
  unfold leaf_blob; simpl; first [now left | discriminate].

Lemma well_formed_sharedTree : well_formed sharedTree.
Proof.
  unfold well_formed. simpl.
  repeat (apply Forall_cons; [split; [leaf_or_dir | simpl; distinct_strings]|]).
  apply Forall_nil.
Qed.

Lemma well_formed_soloBlob : well_formed soloBlob.
Proof.
  unfold well_formed. simpl.
  repeat (apply Forall_cons; [split; [leaf_or_dir | simpl; distinct_strings]|]).
  apply Forall_nil.
Qed.

(** On the blob with the single author ["A"], alone and under a
    directory, the total is 1. *)
Lemma complexity_of_plain_authors_witness :
  well_formed soloBlob /\
  (forall a, ~ In a JsObj.prototype_members ->
             JsObj.get (calculateComplexityMetric soloBlob) a
             = if listed soloBlob a then Some (Count (creditOf soloBlob a)) else None) /\
  JsObj.get (calculateComplexityMetric soloBlob) "A" = Some (Count 1) /\
  JsObj.get (calculateComplexityMetric (dir [soloBlob])) "A" = Some (Count 1).
Proof.
  split; [exact well_formed_soloBlob|].
  destruct (complexity_of_plain_authors soloBlob well_formed_soloBlob) as [G S].
  split; [exact G|].
  apply (S "A" (of_Z 7)); [reflexivity | reflexivity |].
  simpl. intuition discriminate.
Defined.

(** The author of the directory and of its first blob is credited for the
    two blobs under the directory and once more for the blob. *)
Example complexity_sharedTree :
  calculateComplexityMetric sharedTree = [("A", Count 3); ("B", Count 2)] /\
  creditOf sharedTree "A" = 3%nat /\ creditOf sharedTree "B" = 2%nat.
Proof. repeat split. Qed.

(* ================================================================== *)
(** ** AuthorValueNormalizer *)

Lemma keys_rawEntry (raw : list (string * Q)) :
  JsObj.keys (map rawEntry raw) = map fst raw.
Proof. unfold JsObj.keys. rewrite map_map. reflexivity. Qed.

Lemma updateAuthorValues_authors (n : TreeNode) :
  authors (updateAuthorValues n) = option_map sortedAuthors (authors n).
Proof. destruct n as [ty [a|] ch ep ef co sa tc]; reflexivity. Qed.

Lemma node_at_updateAuthorValues (p : list nat) :
  forall t, node_at (updateAuthorValues t) p
            = option_map updateAuthorValues (node_at t p).
Proof.
  induction p as [|i p IH]; intros [ty au ch ep ef co sa tc]; simpl.
  - reflexivity.
  - destruct ch as [cs|]; simpl; [|reflexivity].
    rewrite nth_error_map.
    destruct (nth_error cs i); simpl; [apply IH | reflexivity].
Qed.

(** The rebuilt map holds what the sorted records define under the names
    other than ['__proto__']. *)
Lemma sortedAuthors_fold (a : JsObj.t number) :
  sortedAuthors a
  = fold_left (fun acc e => JsObj.set acc (fst e) (snd e))
              (filter (fun e => negb (String.eqb (fst e) "__proto__"))
                      (map fromAuthor
                           (sort byContributionDesc (authorsWithPercentage a))))
              JsObj.empty.
Proof.
  unfold sortedAuthors. rewrite <- fold_assign by reflexivity.
  generalize (@JsObj.empty number).
  induction (sort byContributionDesc (authorsWithPercentage a)) as [|x l IH];
    intro o; cbn [map fold_left]; [reflexivity | apply IH].
Qed.

Lemma keys_authorsWithPercentage (a : JsObj.t number) :
  map author (authorsWithPercentage a) = JsObj.keys a.
Proof.
  unfold authorsWithPercentage. rewrite map_map. cbn [author]. apply map_id.
Qed.

(** The keys of the rebuilt map are distinct; they are the keys of the
    map, without ['__proto__']. *)
Lemma NoDup_keys_sortedAuthors (a : JsObj.t number) :
  NoDup (JsObj.keys (sortedAuthors a)).
Proof. rewrite sortedAuthors_fold. apply NoDup_keys_fold. constructor. Qed.

Lemma keys_sortedAuthors (a : JsObj.t number) (k : string) :
  In k (JsObj.keys (sortedAuthors a)) <-> In k (JsObj.keys a) /\ k <> "__proto__".
Proof.
  rewrite sortedAuthors_fold, In_keys_fold.
  assert (P : Permutation
                (map author (sort byContributionDesc (authorsWithPercentage a)))
                (JsObj.keys a)).
  { rewrite <- keys_authorsWithPercentage. apply Permutation_map, sort_perm. }
  set (l := sort byContributionDesc (authorsWithPercentage a)) in *.
  assert (E : In k (map fst (filter (fun e => negb (String.eqb (fst e) "__proto__"))
                                    (map fromAuthor l)))
              <-> In k (map author l) /\ k <> "__proto__").
  { rewrite in_map_iff. split.
    - intros ([k' v] & <- & Hin). apply filter_In in Hin as [Hin Hk].
      apply in_map_iff in Hin as (x & Hx & Hin). cbn [fst] in *.
      injection Hx as <- _. split; [now apply in_map|].
      apply negb_true_iff, String.eqb_neq in Hk. exact Hk.
    - intros [Hin Hk]. apply in_map_iff in Hin as (x & <- & Hin).
      exists (fromAuthor x). split; [reflexivity|].
      apply filter_In. split; [now apply in_map|].
      apply negb_true_iff, String.eqb_neq. exact Hk. }
  rewrite E. split.
  - intros [[] | [Hin Hk]]. split; [|exact Hk].
    eapply Permutation_in; eassumption.
  - intros [Hin Hk]. right. split; [|exact Hk].
    eapply Permutation_in; [apply Permutation_sym, P | exact Hin].
Qed.

(** Every value of the rebuilt map is the contribution of a record. *)
Lemma sortedAuthors_values (a : JsObj.t number) (k : string) (v : number) :
  In (k, v) (sortedAuthors a) -> In (mkAuthor k v) (authorsWithPercentage a).
Proof.
  intro Hin.
  pose proof (get_In _ _ _ (NoDup_keys_sortedAuthors a) Hin) as G.
  rewrite sortedAuthors_fold in G.
  apply get_fold_set_In in G as [H | H]; [|discriminate H].
  apply filter_In in H as [H _].
  apply in_map_iff in H as ([k' v'] & Hx & H). injection Hx as -> ->.
  eapply Permutation_in; [apply sort_perm | exact H].
Qed.

(** *** A total of 0 *)

Section ZeroTotal.
Local Open Scope Q_scope.

Lemma fold_left_Qplus (l : list Q) :
  forall s, fold_left Qplus l s == s + fold_right Qplus 0 l.
Proof.
  induction l as [|x l IH]; intro s; simpl.
  - ring.
  - rewrite IH. ring.
Qed.

Lemma fold_right_Qplus_nonneg (l : list Q) :
  (forall q, In q l -> 0 <= q) -> 0 <= fold_right Qplus 0 l.
Proof.
  induction l as [|x l IH]; intro H; simpl.
  - apply Qle_refl.
  - assert (0 <= x) by (apply H; now left).
    assert (0 <= fold_right Qplus 0 l) by (apply IH; intros; apply H; now right).
    lra.
Qed.

(** Weights that are not negative and add up to 0 are all 0. *)
Lemma nonneg_sum_zero (l : list Q) :
  (forall q, In q l -> 0 <= q) -> fold_left Qplus l 0 == 0 ->
  forall q, In q l -> q == 0.
Proof.
  intros Hpos HT. rewrite fold_left_Qplus in HT.
  induction l as [|x l IH]; intros q Hin; [destruct Hin|].
  simpl in HT.
  assert (Hx : 0 <= x) by (apply Hpos; now left).
  assert (Hl : 0 <= fold_right Qplus 0 l)
    by (apply fold_right_Qplus_nonneg; intros; apply Hpos; now right).
  destruct Hin as [<- | Hin]; [lra|].
  apply IH; [intros; apply Hpos; now right | lra | exact Hin].
Qed.

Lemma add_zero (q : Q) : q == 0 -> add (Fin 0) (Fin q) = Fin 0.
Proof.
  intro H. unfold add, round64.
  assert (E : Qnum (0 + q) = 0%Z).
  { destruct q as [n d]. unfold Qeq in H. cbn in *. lia. }
  now rewrite E.
Qed.

Lemma zero_over_zero (q : Q) : q == 0 -> div (Fin q) (Fin 0) = NaN.
Proof.
  intro H. unfold div. change (Qeq_bool 0 0) with true. cbv iota.
  replace (Qpos_b q) with false
    by (symmetry; apply Qlt_b_false; rewrite H; apply Qle_refl).
  replace (Qneg_b q) with false
    by (symmetry; apply Qlt_b_false; rewrite H; apply Qle_refl).
  reflexivity.
Qed.
End ZeroTotal.

(** *** Percentages of weights that are not negative *)

Section Percentages.
Local Open Scope Q_scope.

Lemma one_units : 1 == (2 ^ 1074)%Z # 2 ^ 1074.
Proof. unfold Qeq. cbn [Qnum Qden]. rewrite units_pos. lia. Qed.

Lemma hundred_units : 100 == (100 * 2 ^ 1074)%Z # 2 ^ 1074.
Proof. unfold Qeq. cbn [Qnum Qden]. rewrite units_pos. lia. Qed.

Lemma hundred_finite : (100 * 2 ^ 1074 < 2 ^ 2098)%Z.
Proof.
  replace (2 ^ 2098)%Z with (2 ^ 1024 * 2 ^ 1074)%Z
    by (rewrite <- Z.pow_add_r by lia; reflexivity).
  apply Z.mul_lt_mono_pos_r; [apply Z.pow_pos_nonneg; lia|].
  apply Z.lt_le_trans with (2 ^ 7)%Z; [reflexivity | apply Z.pow_le_mono_r; lia].
Qed.

Lemma one_finite : (2 ^ 1074 < 2 ^ 2098)%Z.
Proof. apply Z.pow_lt_mono_r; lia. Qed.

(** A number from 0 to a binary64 value is rounded to such a number. *)
Lemma round64_range (x c : Q) (K : Z) :
  rep K -> (K < 2 ^ 2098)%Z -> c == K # 2 ^ 1074 -> 0 <= x -> x <= c ->
  exists r, round64 x = Fin r /\ 0 <= r /\ r <= c.
Proof.
  intros HK Hfin Hc H0 H1.
  destruct (Qlt_le_dec 0 x) as [Hx | Hx].
  - now apply (round64_le x c K).
  - exists 0. split; [|split; [apply Qle_refl | eapply Qle_trans; eassumption]].
    assert (E : Qnum x = 0%Z).
    { destruct x as [n d]. unfold Qle in *. cbn in *. lia. }
    unfold round64. now rewrite E.
Qed.

(** The running total only grows. *)
Lemma above_add (s : number) (c q : Q) :
  above s 0 -> above s c -> 0 <= q -> (0 < c -> binary64 c) ->
  above (add s (Fin q)) c.
Proof.
  intros [-> | (x & -> & Hx0)] [Hc | (x' & Hx' & Hxc)] Hq Hb;
    try discriminate; try (left; reflexivity).
  injection Hx' as <-. cbn [add].
  assert (Hs : 0 <= x + q) by lra.
  destruct (Qlt_le_dec 0 c) as [Hc | Hc].
  - destruct (binary64_units c Hc (Hb Hc)) as (K & HK & _ & Hu).
    assert (Hp : 0 < x + q) by lra.
    destruct (round64_ge (x + q) c K Hp HK Hu ltac:(lra)) as [-> | (r & -> & Hr)];
      [now left | right; now exists r].
  - destruct (round64_nonneg (x + q) Hs) as [-> | (r & -> & Hr)];
      [now left | right; exists r; split; [reflexivity | lra]].
Qed.

Lemma above_add_weight (s : number) (q : Q) :
  above s 0 -> 0 <= q -> binary64 q -> above (add s (Fin q)) q.
Proof.
  intros [-> | (x & -> & Hx0)] Hq Hb; [left; reflexivity|]. cbn [add].
  destruct (Qlt_le_dec 0 q) as [Hp | Hp].
  - destruct (binary64_units q Hp Hb) as (K & HK & _ & Hu).
    destruct (round64_ge (x + q) q K ltac:(lra) HK Hu ltac:(lra))
      as [-> | (r & -> & Hr)]; [now left | right; now exists r].
  - destruct (round64_nonneg (x + q) ltac:(lra)) as [-> | (r & -> & Hr)];
      [now left | right; exists r; split; [reflexivity | lra]].
Qed.

Lemma roundedTotal_above (raw : list (string * Q)) :
  (forall k q, In (k, q) raw -> 0 <= q /\ binary64 q) ->
  forall s c, above s 0 -> above s c -> (0 < c -> binary64 c) ->
    above (fold_left (fun sum e => add sum (Fin (snd e))) raw s) 0 /\
    above (fold_left (fun sum e => add sum (Fin (snd e))) raw s) c /\
    forall k q, In (k, q) raw ->
                above (fold_left (fun sum e => add sum (Fin (snd e))) raw s) q.
Proof.
  induction raw as [|[k0 q0] raw IH]; intros H s c H0 Hc Hb; cbn [fold_left snd].
  - split; [exact H0|]. split; [exact Hc|]. intros k q [].
  - destruct (H k0 q0 (or_introl eq_refl)) as [Hq0 Hb0].
    assert (H' : forall k q, In (k, q) raw -> 0 <= q /\ binary64 q)
      by (intros; eapply H; right; eassumption).
    assert (A0 : above (add s (Fin q0)) 0).
    { apply above_add; try assumption. intro F. exact (False_ind _ (Qlt_irrefl _ F)). }
    assert (Ac : above (add s (Fin q0)) c) by (apply above_add; assumption).
    assert (Aq : above (add s (Fin q0)) q0) by (apply above_add_weight; assumption).
    destruct (IH H' _ c A0 Ac Hb) as (R0 & Rc & Rl).
    split; [exact R0|]. split; [exact Rc|].
    intros k q [Heq | Hin]; [|eapply Rl; eassumption].
    injection Heq as _ <-.
    destruct (IH H' _ q0 A0 Aq (fun _ => Hb0)) as (_ & Rq & _). exact Rq.
Qed.

Lemma positive_weight (l : list Q) :
  (forall q, In q l -> 0 <= q) -> 0 < fold_left Qplus l 0 ->
  exists q, In q l /\ 0 < q.
Proof.
  intros Hpos HT. rewrite fold_left_Qplus in HT.
  induction l as [|x l IH]; simpl in HT; [exfalso; lra|].
  destruct (Qlt_le_dec 0 x) as [Hx | Hx]; [exists x; split; [now left | exact Hx]|].
  destruct IH as (q & Hin & Hq).
  - intros; apply Hpos; now right.
  - lra.
  - exists q. split; [now right | exact Hq].
Qed.

(** The percentage of a weight that is not negative and not above the
    total is an integer from 0 to 100. *)
Lemma percentage_range (q : Q) (T : number) :
  0 <= q -> above T q -> gt T (Fin 0) = true ->
  Math_round (mul (div (Fin q) T) (Fin 100)) = of_Z (percentage q T) /\
  (0 <= percentage q T <= 100)%Z.
Proof.
  intros Hq HT Hpos.
  assert (P : exists p, div (Fin q) T = Fin p /\ 0 <= p /\ p <= 1).
  { destruct HT as [-> | (t & -> & Ht)].
    - exists 0. repeat split; [apply Qle_refl | discriminate].
    - apply gt_Fin in Hpos. cbn [div].
      replace (Qeq_bool t 0) with false.
      + apply (round64_range (q / t) 1 (2 ^ 1074) rep_one one_finite one_units).
        * apply Qle_shift_div_l; [exact Hpos | lra].
        * apply Qle_shift_div_r; [exact Hpos | lra].
      + symmetry. destruct (Qeq_bool t 0) eqn:E; [|reflexivity].
        apply Qeq_bool_iff in E. lra. }
  destruct P as (p & Ep & Hp0 & Hp1).
  destruct (round64_range (p * 100) 100 (100 * 2 ^ 1074)
                          rep_hundred hundred_finite hundred_units) as (y & Ey & Hy0 & Hy1);
    [lra | lra |].
  unfold percentage. rewrite Ep. cbn [mul]. rewrite Ey. cbn [Math_round].
  unfold of_Z. rewrite Qfloor_Z. split; [reflexivity|].
  split.
  - change 0%Z with (Qfloor 0). apply Qfloor_resp_le. lra.
  - change 100%Z with (Qfloor (100 + (1 # 2))). apply Qfloor_resp_le. lra.
Qed.

End Percentages.

Lemma weight_of_rawEntry (raw : list (string * Q)) (k : string) (q : Q) :
  NoDup (map fst raw) -> In (k, q) raw ->
  weight_of (map rawEntry raw) k = Fin q.
Proof.
  intros Hnd Hin. unfold weight_of.
  rewrite (get_In (map rawEntry raw) k (Fin q)); [reflexivity | |].
  - now rewrite keys_rawEntry.
  - change (k, Fin q) with (rawEntry (k, q)). now apply in_map.
Qed.

Lemma totalSum_rawEntry (raw : list (string * Q)) :
  NoDup (map fst raw) -> totalSum (map rawEntry raw) = roundedTotal raw.
Proof.
  intro Hnd. unfold totalSum, roundedTotal. rewrite keys_rawEntry.
  assert (G : forall l s,
             (forall k q, In (k, q) l -> weight_of (map rawEntry raw) k = Fin q) ->
             fold_left (fun sum key => add sum (weight_of (map rawEntry raw) key))
                       (map fst l) s
             = fold_left (fun sum e => add sum (Fin (snd e))) l s).
  { induction l as [|[k q] l IH]; intros s H; cbn [map fold_left fst snd];
      [reflexivity|].
    rewrite (H k q) by now left. apply IH.
    intros k' q' Hin. apply H. now right. }
  apply G. intros k q Hin. now apply weight_of_rawEntry.
Qed.

Lemma after_byPercentage (x y : string * Z) :
  after (fun a b : string * Z => sub (snd (pctEntry b)) (snd (pctEntry a))) x y
  = (snd x <? snd y)%Z.
Proof. unfold after. simpl. apply sub_pos_Z. Qed.

(** The percentage records of a map of binary64 weights, none negative,
    with a positive total. *)
Lemma authorsWithPercentage_rawEntry (raw : list (string * Q)) :
  NoDup (map fst raw) ->
  (forall k q, In (k, q) raw -> (0 <= q)%Q /\ binary64 q) ->
  (0 < total raw)%Q ->
  authorsWithPercentage (map rawEntry raw)
  = map toAuthor (map pctEntry (percentages raw)) /\
  Forall (fun e => (0 <= snd e <= 100)%Z) (percentages raw).
Proof.
  intros Hnd Hw HT.
  assert (A0 : above (Fin 0) 0) by (right; exists 0%Q; split; [reflexivity | apply Qle_refl]).
  destruct (roundedTotal_above raw Hw (Fin 0) 0%Q A0 A0
              (fun F => False_ind _ (Qlt_irrefl _ F))) as (T0 & _ & Tq).
  fold (roundedTotal raw) in T0, Tq.
  assert (Tpos : gt (roundedTotal raw) (Fin 0) = true).
  { destruct (positive_weight (map snd raw)) as (q & Hin & Hq).
    - intros q Hin. apply in_map_iff in Hin as ([k q'] & <- & Hin).
      exact (proj1 (Hw _ _ Hin)).
    - exact HT.
    - apply in_map_iff in Hin as ([k q'] & Heq & Hin). cbn [snd] in Heq. subst q'.
      destruct (Tq k q Hin) as [-> | (t & -> & Ht)]; [reflexivity|].
      apply gt_Fin. eapply Qlt_le_trans; eassumption. }
  assert (R : forall k q, In (k, q) raw ->
                Math_round (mul (div (Fin q) (roundedTotal raw)) (Fin 100))
                = of_Z (percentage q (roundedTotal raw)) /\
                (0 <= percentage q (roundedTotal raw) <= 100)%Z).
  { intros k q Hin. apply percentage_range; [exact (proj1 (Hw _ _ Hin)) | | exact Tpos].
    eapply Tq; eassumption. }
  split.
  - unfold authorsWithPercentage, percentages.
    rewrite keys_rawEntry, (totalSum_rawEntry raw Hnd), !map_map.
    apply map_ext_in. intros [k q] Hin. cbn [fst snd].
    rewrite (weight_of_rawEntry raw k q Hnd Hin).
    now rewrite (proj1 (R k q Hin)).
  - unfold percentages. apply Forall_forall.
    intros e He. apply in_map_iff in He as ([k q] & <- & Hin). cbn [fst snd].
    exact (proj2 (R k q Hin)).
Qed.

Lemma sort_toAuthor (l : list (string * Z)) :
  map fromAuthor (sort byContributionDesc (map toAuthor (map pctEntry l)))
  = map pctEntry
        (sort (fun a b : string * Z => sub (snd (pctEntry b)) (snd (pctEntry a))) l).
Proof.
  rewrite (sort_map toAuthor byContributionDesc), map_map.
  rewrite (map_ext (fun x => fromAuthor (toAuthor x)) (fun x => x))
    by (intros [k v]; reflexivity).
  rewrite map_id.
  change (fun a b : string * number =>
            byContributionDesc (toAuthor a) (toAuthor b))
    with (fun a b : string * number => sub (snd b) (snd a)).
  apply (sort_map pctEntry (fun a b : string * number => sub (snd b) (snd a))).
Qed.

Lemma NoDup_map_filter {A B : Type} (g : A -> B) (f : A -> bool) (l : list A) :
  NoDup (map g l) -> NoDup (map g (filter f l)).
Proof.
  induction l as [|x l IH]; cbn [map filter]; intro H; [constructor|].
  inversion H as [|? ? Hx Hl]; subst.
  destruct (f x); cbn [map]; [|now apply IH].
  constructor; [|now apply IH].
  intro Hin. apply Hx. apply in_map_iff in Hin as (y & Hy & Hin).
  apply filter_In in Hin as [Hin _]. rewrite <- Hy. now apply in_map.
Qed.

(** The normalised map of such a node: every author but ['__proto__'] can
    be read back with the author's percentage. *)
Lemma sortedAuthors_get (raw : list (string * Q)) (k : string) (q : Q) :
  NoDup (map fst raw) ->
  (forall k q, In (k, q) raw -> (0 <= q)%Q /\ binary64 q) ->
  (0 < total raw)%Q ->
  In (k, q) raw -> k <> "__proto__" ->
  JsObj.get (sortedAuthors (map rawEntry raw)) k
  = Some (of_Z (percentage q (roundedTotal raw))).
Proof.
  intros Hnd Hw HT Hin Hk.
  destruct (authorsWithPercentage_rawEntry raw Hnd Hw HT) as [E _].
  rewrite sortedAuthors_fold, E, sort_toAuthor.
  set (s := sort _ (percentages raw)).
  assert (P : Permutation s (percentages raw)) by apply sort_perm.
  assert (Hs : Permutation (map fst (map pctEntry s)) (map fst raw)).
  { rewrite map_map. cbn [pctEntry fst].
    eapply perm_trans; [apply Permutation_map, P|].
    unfold percentages. rewrite map_map. cbn [fst]. apply Permutation_refl. }
  apply get_fold_set.
  - apply NoDup_map_filter.
    eapply Permutation_NoDup; [apply Permutation_sym, Hs | exact Hnd].
  - apply filter_In. split.
    + change (k, of_Z (percentage q (roundedTotal raw)))
        with (pctEntry (k, percentage q (roundedTotal raw))).
      apply in_map. eapply Permutation_in; [apply Permutation_sym, P|].
      unfold percentages.
      change (k, percentage q (roundedTotal raw))
        with ((fun e : string * Q =>
                 (fst e, percentage (snd e) (roundedTotal raw))) (k, q)).
      now apply in_map.
    + cbn [fst]. apply negb_true_iff, String.eqb_neq. exact Hk.
Qed.

(** The normalised map of such a node when moreover no key is an array
    index or ['__proto__']: the percentage entries, sorted. *)
Lemma sortedAuthors_rawEntry (raw : list (string * Q)) :
  NoDup (map fst raw) ->
  (forall k, In k (map fst raw) -> JsObj.is_index k = false /\ k <> "__proto__") ->
  (forall k q, In (k, q) raw -> (0 <= q)%Q /\ binary64 q) ->
  (0 < total raw)%Q ->
  sortedAuthors (map rawEntry raw)
  = map pctEntry
        (sort (fun a b : string * Z => sub (snd (pctEntry b)) (snd (pctEntry a)))
              (percentages raw)) /\
  Forall (fun e => (0 <= snd e <= 100)%Z) (percentages raw).
Proof.
  intros Hnd Hkeys Hw HT.
  destruct (authorsWithPercentage_rawEntry raw Hnd Hw HT) as [E R].
  split; [|exact R].
  rewrite sortedAuthors_fold, E, sort_toAuthor.
  set (s := sort _ (percentages raw)).
  assert (Hs : Permutation (map fst (map pctEntry s)) (map fst raw)).
  { rewrite map_map. cbn [pctEntry fst].
    eapply perm_trans; [apply Permutation_map, sort_perm|].
    unfold percentages. rewrite map_map. cbn [fst]. apply Permutation_refl. }
  assert (F : filter (fun e => negb (String.eqb (fst e) "__proto__")) (map pctEntry s)
              = map pctEntry s).
  { apply forallb_filter_id. apply forallb_forall. intros e He.
    apply negb_true_iff, String.eqb_neq.
    apply (Hkeys (fst e)). eapply Permutation_in; [exact Hs | now apply in_map]. }
  rewrite F. rewrite fold_set_fresh; [reflexivity | |].
  - cbn [JsObj.keys JsObj.empty map app].
    eapply Permutation_NoDup; [apply Permutation_sym, Hs | exact Hnd].
  - intros k Hk. apply (Hkeys k). eapply Permutation_in; eassumption.
Qed.

(** X27.  For every tree and every node in it whose [authors] map holds
    binary64 weights, none negative, with a positive total, after
    [updateAuthorValues] the node's [authors] maps each author (but one
    named ['__proto__'], which is lost) to
    [round(weight / totalWeight * 100)] as binary64 arithmetic computes
    it, an integer from 0 to 100, and holds nothing else.  When moreover
    no author's name is an array index or ['__proto__'], the entries of
    the map are in descending order of that percentage, authors with the
    same percentage keeping the order they had in the raw map. *)
Theorem normalised_percentages
        (t : TreeNode) (p : list nat) (n : TreeNode) (raw : list (string * Q)) :
  node_at t p = Some n ->
  authors n = Some (map rawEntry raw) ->
  NoDup (map fst raw) ->
  (forall k q, In (k, q) raw -> (0 <= q)%Q /\ binary64 q) ->
  (0 < total raw)%Q ->
  exists n' a',
    node_at (updateAuthorValues t) p = Some n' /\
    authors n' = Some a' /\
    (forall k q, In (k, q) raw -> k <> "__proto__" ->
                 JsObj.get a' k = Some (of_Z (percentage q (roundedTotal raw))) /\
                 (0 <= percentage q (roundedTotal raw) <= 100)%Z) /\
    (forall k v, In (k, v) a' ->
                 exists q, In (k, q) raw /\
                           v = of_Z (percentage q (roundedTotal raw))) /\
    ((forall k, In k (map fst raw) ->
                JsObj.is_index k = false /\ k <> "__proto__") ->
     exists es,
       a' = map pctEntry es /\
       Permutation es (percentages raw) /\
       StronglySorted (desc snd) es /\
       (forall z, filter (with_key snd z) es
                  = filter (with_key snd z) (percentages raw))).
Proof.
  intros Hat Hau Hnd Hw HT.
  destruct (authorsWithPercentage_rawEntry raw Hnd Hw HT) as [E R].
  exists (updateAuthorValues n), (sortedAuthors (map rawEntry raw)).
  split; [now rewrite node_at_updateAuthorValues, Hat|].
  split; [now rewrite updateAuthorValues_authors, Hau|].
  split; [|split].
  - intros k q Hin Hk. split; [now apply sortedAuthors_get|].
    rewrite Forall_forall in R.
    apply (R (k, percentage q (roundedTotal raw))). unfold percentages.
    change (k, percentage q (roundedTotal raw))
      with ((fun e : string * Q =>
               (fst e, percentage (snd e) (roundedTotal raw))) (k, q)).
    now apply in_map.
  - intros k v Hin. apply sortedAuthors_values in Hin. rewrite E in Hin.
    rewrite map_map in Hin. unfold percentages in Hin. rewrite map_map in Hin.
    apply in_map_iff in Hin as ([k' q] & Heq & Hin). cbn in Heq.
    injection Heq as -> <-. now exists q.
  - intro Hkeys.
    destruct (sortedAuthors_rawEntry raw Hnd Hkeys Hw HT) as [S _].
    exists (sort (fun a b : string * Z => sub (snd (pctEntry b)) (snd (pctEntry a)))
                 (percentages raw)).
    split; [exact S|]. split; [apply sort_perm|].
    split.
    + apply sort_sorted. apply after_byPercentage.
    + intro z. apply sort_stable. apply after_byPercentage.
Qed.

(** Weights whose shares are 57.5 and 42.5 percent: the first is computed
    as 57.49999999999999 and stored as 57. *)
Lemma normalised_percentages_witness :
  node_at (dir [blobOf [("A", of_Z 23); ("B", of_Z 17)]]) [0%nat]
  = Some (blobOf [("A", of_Z 23); ("B", of_Z 17)]) /\
  authors (blobOf [("A", of_Z 23); ("B", of_Z 17)])
  = Some (map rawEntry [("A", 23%Q); ("B", 17%Q)]) /\
  percentages [("A", 23%Q); ("B", 17%Q)] = [("A", 57%Z); ("B", 43%Z)] /\
  exists n' a',
    node_at (updateAuthorValues (dir [blobOf [("A", of_Z 23); ("B", of_Z 17)]]))
            [0%nat] = Some n' /\
    authors n' = Some a' /\
    (forall k q, In (k, q) [("A", 23%Q); ("B", 17%Q)] -> k <> "__proto__" ->
                 JsObj.get a' k
                 = Some (of_Z (percentage
                                 q (roundedTotal [("A", 23%Q); ("B", 17%Q)]))) /\
                 (0 <= percentage q (roundedTotal [("A", 23%Q); ("B", 17%Q)])
                  <= 100)%Z) /\
    (forall k v, In (k, v) a' ->
                 exists q, In (k, q) [("A", 23%Q); ("B", 17%Q)] /\
                           v = of_Z (percentage
                                       q (roundedTotal [("A", 23%Q); ("B", 17%Q)]))) /\
    exists es,
      a' = map pctEntry es /\
      Permutation es (percentages [("A", 23%Q); ("B", 17%Q)]) /\
      StronglySorted (desc snd) es /\
      (forall z, filter (with_key snd z) es
                 = filter (with_key snd z) (percentages [("A", 23%Q); ("B", 17%Q)])).
Proof.
  split; [reflexivity|]. split; [reflexivity|].
  split; [vm_compute; reflexivity|].
  destruct (normalised_percentages
              (dir [blobOf [("A", of_Z 23); ("B", of_Z 17)]]) [0%nat]
              (blobOf [("A", of_Z 23); ("B", of_Z 17)]) [("A", 23%Q); ("B", 17%Q)])
    as (n' & a' & H1 & H2 & H3 & H4 & H5).
  - reflexivity.
  - reflexivity.
  - simpl. distinct_strings.
  - simpl. intros k q [H | [H | []]]; injection H as _ <-;
      (split; [discriminate | vm_compute; reflexivity]).
  - reflexivity.
  - exists n', a'. split; [exact H1|]. split; [exact H2|]. split; [exact H3|].
    split; [exact H4|]. apply H5.
    simpl. intros k [<- | [<- | []]]; split; (reflexivity || discriminate).
Defined.

(** C1, where the code departs from it.  The sort puts the records in
    descending order, but the map rebuilt from them is a plain object,
    and an object enumerates its array-index keys first, in ascending
    numeric order: with the authors ["1"] of weight 1 and ["2"] of weight
    3 the result lists 25 before 75.  The same weights under the names
    ["a"] and ["b"] come out as the claim says, 75 before 25.  (The shares
    1/4 and 3/4 and their products by 100 are binary64 values, so no
    rounding is involved.)  For the same reason an author named
    ["__proto__"] is lost. *)
Theorem index_keys_defeat_the_order :
  authors (updateAuthorValues (blobOf indexKeys))
  = Some [("1", of_Z 25); ("2", of_Z 75)] /\
  authors (updateAuthorValues (blobOf [("a", of_Z 1); ("b", of_Z 3)]))
  = Some [("b", of_Z 75); ("a", of_Z 25)] /\
  authors (updateAuthorValues (blobOf [("__proto__", of_Z 1); ("b", of_Z 3)]))
  = Some [("b", of_Z 75)].
Proof. split; [|split]; vm_compute; reflexivity. Qed.

(** Binary64 rounding shows in the percentages: 23 of 40 is 57.5 percent,
    but [23 / 40 * 100] is computed as 57.49999999999999 and rounds to
    57. *)
Example percentage_is_rounded_twice :
  authors (updateAuthorValues (blobOf [("A", of_Z 23); ("B", of_Z 17)]))
  = Some [("A", of_Z 57); ("B", of_Z 43)].
Proof. vm_compute. reflexivity. Qed.

(** On a map of weights that are all 0, the total is 0 and every share is
    [0 / 0]. *)
Lemma authorsWithPercentage_zero (a : JsObj.t number) :
  (forall k v, In (k, v) a -> exists q, v = Fin q /\ (q == 0)%Q) ->
  authorsWithPercentage a = map (fun key => mkAuthor key NaN) (JsObj.keys a).
Proof.
  intro H.
  assert (W : forall k, In k (JsObj.keys a) ->
                        exists q, weight_of a k = Fin q /\ (q == 0)%Q).
  { intros k Hk. unfold weight_of. apply In_keys_get in Hk.
    destruct (JsObj.get a k) as [v|] eqn:G; [|congruence].
    apply get_Some_In in G. exact (H _ _ G). }
  assert (T : totalSum a = Fin 0).
  { unfold totalSum. revert W. generalize (JsObj.keys a) as ks.
    induction ks as [|k ks IH]; intro W; cbn [fold_left]; [reflexivity|].
    destruct (W k (or_introl eq_refl)) as (q & -> & Hq).
    rewrite (add_zero q Hq). apply IH. intros k' Hk'. apply W. now right. }
  unfold authorsWithPercentage. rewrite T. apply map_ext_in. intros k Hk.
  destruct (W k Hk) as (q & -> & Hq).
  now rewrite (zero_over_zero q Hq).
Qed.

(** The sort leaves records alone whose contributions are all [NaN]. *)
Lemma sort_all_NaN (l : list Author) :
  Forall (fun x => contribution x = NaN) l -> sort byContributionDesc l = l.
Proof.
  induction 1 as [|x l Hx Hl IH]; cbn [sort]; [reflexivity|].
  rewrite IH. destruct Hl as [|y l Hy _]; cbn [sort_insert]; [reflexivity|].
  unfold after, byContributionDesc. now rewrite Hx, Hy.
Qed.

(** C6.  For every node whose [authors] map is not empty and holds
    finite weights, none negative, that add up to 0, [updateAuthorValues]
    returns normally and leaves [NaN] as every percentage of the map: no
    error is raised, and no other value is given.  Every author is in the
    map (but an author named ['__proto__']: a plain object cannot hold
    that name). *)
Theorem zero_total_gives_NaN (n : TreeNode) (raw : list (string * Q)) :
  authors n = Some (map rawEntry raw) ->
  raw <> [] ->
  (forall k q, In (k, q) raw -> (0 <= q)%Q) ->
  (total raw == 0)%Q ->
  exists a',
    authors (updateAuthorValues n) = Some a' /\
    (forall k v, In (k, v) a' -> v = NaN) /\
    (forall k, In k (map fst raw) -> k <> "__proto__" ->
               JsObj.get a' k = Some NaN).
Proof.
  intros Hau _ Hpos HT.
  exists (sortedAuthors (map rawEntry raw)).
  split; [now rewrite updateAuthorValues_authors, Hau|].
  assert (Z : forall k v, In (k, v) (map rawEntry raw) ->
                          exists q, v = Fin q /\ (q == 0)%Q).
  { intros k v Hin. apply in_map_iff in Hin as ([k' q] & Heq & Hin).
    injection Heq as -> <-. exists q. split; [reflexivity|].
    apply (nonneg_sum_zero (map snd raw)).
    - intros q' Hq'. apply in_map_iff in Hq' as ([k1 q1] & <- & H1).
      exact (Hpos _ _ H1).
    - exact HT.
    - change q with (snd (k, q)). now apply in_map. }
  assert (V : forall k v, In (k, v) (sortedAuthors (map rawEntry raw)) -> v = NaN).
  { intros k v Hin. apply sortedAuthors_values in Hin.
    rewrite (authorsWithPercentage_zero _ Z) in Hin.
    apply in_map_iff in Hin as (k' & Heq & _). now injection Heq. }
  split; [exact V|].
  intros k Hk Hp.
  assert (Hin : In k (JsObj.keys (sortedAuthors (map rawEntry raw)))).
  { apply keys_sortedAuthors. now rewrite keys_rawEntry. }
  apply In_keys_get in Hin.
  destruct (JsObj.get (sortedAuthors (map rawEntry raw)) k) as [v|] eqn:G;
    [|congruence].
  apply get_Some_In in G. now rewrite (V _ _ G).
Qed.

Lemma zero_total_gives_NaN_witness :
  authors (blobOf zeroWeights) = Some (map rawEntry [("A", 0%Q); ("B", 0%Q)]) /\
  [("A", 0%Q); ("B", 0%Q)] <> [] /\
  (forall k q, In (k, q) [("A", 0%Q); ("B", 0%Q)] -> (0 <= q)%Q) /\
  (total [("A", 0%Q); ("B", 0%Q)] == 0)%Q /\
  exists a',
    authors (updateAuthorValues (blobOf zeroWeights)) = Some a' /\
    (forall k v, In (k, v) a' -> v = NaN) /\
    (forall k, In k (map fst [("A", 0%Q); ("B", 0%Q)]) -> k <> "__proto__" ->
               JsObj.get a' k = Some NaN).
Proof.
  assert (P : forall k q, In (k, q) [("A", 0%Q); ("B", 0%Q)] -> (0 <= q)%Q).
  { simpl. intros k q [H | [H | []]]; injection H as _ <-; discriminate. }
  split; [reflexivity|]. split; [discriminate|]. split; [exact P|].
  split; [reflexivity|].
  apply (zero_total_gives_NaN (blobOf zeroWeights) [("A", 0%Q); ("B", 0%Q)]).
  - reflexivity.
  - discriminate.
  - exact P.
  - reflexivity.
Defined.

(** The same map, computed. *)
Example zero_total_computed :
  authors (updateAuthorValues (blobOf zeroWeights)) = Some [("A", NaN); ("B", NaN)].
Proof. vm_compute. reflexivity. Qed.

(* ================================================================== *)
(** ** The worked example *)

(** The pipeline on the example tree: percentages 75 and 25, the metrics
    of the blob, the commits newest first, and the four statistics. *)
Example worked_example :
  node_at (addMetrics (updateAuthorValues exampleTree)) [0%nat]
  = Some (mkNode "blob" (Some [("A", of_Z 75); ("B", of_Z 25)]) None
                 (Some 1700000000%Z) None (Some [CHash "h1"; CHash "h2"])
                 (Some false) (Some "A")) /\
  UTC.updateCommits exampleCommits exampleTree = Ok (dir [enrichedBlob]) /\
  option_map lastChangeEpochFormatted
             (match UTC.updateLastChangeDate exampleTree with
              | Ok t => node_at t [0%nat]
              | TypeError => None
              end)
  = Some (Some "14 Nov 2023") /\
  getMinCommits exampleTree = of_Z 2 /\ getMaxCommits exampleTree = of_Z 2 /\
  getFirstChangeEpoch exampleTree = of_Z 1700000000 /\
  getLastChangeEpoch exampleTree = of_Z 1700000000 /\
  calculateComplexityMetric (updateAuthorValues exampleTree)
  = [("A", Count 1); ("B", Count 1)].
Proof.
  repeat match goal with |- _ /\ _ => split end; vm_compute; reflexivity.
Qed.

(* ================================================================== *)
(** * Further properties of the module *)

(** ** ContributionSimplifier *)

Lemma singleton_entries {V : Type} (k : string) (v : V) :
  JsObj.singleton k v = [(k, v)].
Proof.
  unfold JsObj.singleton, JsObj.set, JsObj.has. simpl.
  now destruct (JsObj.array_index k).
Qed.

(** The simplified map is the first entry of the map, if there is one. *)
Lemma simplifiedAuthors_first (a : JsObj.t number) :
  simplifiedAuthors a = firstn 1 a.
Proof.
  destruct a as [|[k v] r]; [reflexivity|].
  unfold simplifiedAuthors. simpl. rewrite String.eqb_refl.
  apply singleton_entries.
Qed.

Lemma node_at_simplifyContributions (p : list nat) :
  forall t, node_at (simplifyContributions t) p
            = option_map simplifyContributions (node_at t p).
Proof.
  induction p as [|i p IH]; intros [ty au ch ep ef co sa tc]; simpl.
  - reflexivity.
  - destruct ch as [cs|]; simpl; [|reflexivity].
    rewrite nth_error_map.
    destruct (nth_error cs i); simpl; [apply IH | reflexivity].
Qed.

(** X1.  In the tree returned by [simplifyContributions] no [authors] map,
    at any depth, has more than one entry. *)
Theorem simplifyContributions_at_most_one (t : TreeNode) :
  Forall (fun n => match authors n with
                   | Some a => (List.length (JsObj.keys a) <= 1)%nat
                   | None => True
                   end)
         (nodes (simplifyContributions t)).
Proof.
  induction t as [ty au ep ef co sa tc | ty au cs ep ef co sa tc IH]
    using TreeNode_ind'; simpl.
  - constructor; [|constructor]. simpl.
    destruct au as [a|]; [|exact I].
    rewrite simplifiedAuthors_first. destruct a as [|e [|e' r]]; simpl; lia.
  - constructor.
    + simpl. destruct au as [a|]; [|exact I].
      rewrite simplifiedAuthors_first. destruct a as [|e [|e' r]]; simpl; lia.
    + apply Forall_flat_map. rewrite Forall_map. exact IH.
Qed.

(** X2.  [simplifyContributions] keeps the shape of the tree and, at every
    node, every field but [authors] and [children]; a non-empty [authors]
    map is cut down to its first entry, key and value unchanged, and an
    empty or absent one is kept. *)
Theorem simplifyContributions_keeps_first
        (t : TreeNode) (p : list nat) (n : TreeNode) :
  node_at t p = Some n ->
  exists n',
    node_at (simplifyContributions t) p = Some n' /\
    authors n' = option_map (firstn 1) (authors n) /\
    type n' = type n /\ commits n' = commits n /\
    lastChangeEpoch n' = lastChangeEpoch n /\
    lastChangeEpochFormatted n' = lastChangeEpochFormatted n /\
    singleAuthor n' = singleAuthor n /\ topContributor n' = topContributor n /\
    option_map (@List.length TreeNode) (children n')
    = option_map (@List.length TreeNode) (children n).
Proof.
  intro Hat. exists (simplifyContributions n).
  split; [now rewrite node_at_simplifyContributions, Hat|].
  destruct n as [ty [a|] [cs|] ep ef co sa tc]; simpl;
    rewrite ?simplifiedAuthors_first, ?length_map; repeat split.
Qed.

Lemma simplifyContributions_keeps_first_witness :
  node_at (updateAuthorValues exampleTree) [0%nat]
  = Some (updateAuthorValues exampleBlob) /\
  exists n',
    node_at (simplifyContributions (updateAuthorValues exampleTree)) [0%nat]
    = Some n' /\
    authors n' = option_map (firstn 1) (authors (updateAuthorValues exampleBlob)) /\
    type n' = type (updateAuthorValues exampleBlob) /\
    commits n' = commits (updateAuthorValues exampleBlob) /\
    lastChangeEpoch n' = lastChangeEpoch (updateAuthorValues exampleBlob) /\
    lastChangeEpochFormatted n'
    = lastChangeEpochFormatted (updateAuthorValues exampleBlob) /\
    singleAuthor n' = singleAuthor (updateAuthorValues exampleBlob) /\
    topContributor n' = topContributor (updateAuthorValues exampleBlob) /\
    option_map (@List.length TreeNode) (children n')
    = option_map (@List.length TreeNode)
                 (children (updateAuthorValues exampleBlob)).
Proof.
  split; [reflexivity|].
  apply (simplifyContributions_keeps_first
           (updateAuthorValues exampleTree) [0%nat] (updateAuthorValues exampleBlob)).
  reflexivity.
Defined.

(** X3.  Simplifying a simplified tree changes nothing. *)
Theorem simplifyContributions_idempotent (t : TreeNode) :
  simplifyContributions (simplifyContributions t) = simplifyContributions t.
Proof.
  induction t as [ty au ep ef co sa tc | ty au cs ep ef co sa tc IH]
    using TreeNode_ind'; simpl.
  - f_equal. destruct au as [a|]; [|reflexivity].
    rewrite !simplifiedAuthors_first. now destruct a as [|e r].
  - f_equal.
    + destruct au as [a|]; [|reflexivity].
      rewrite !simplifiedAuthors_first. now destruct a as [|e r].
    + f_equal. rewrite map_map. apply map_ext_in.
      intros c Hc. rewrite Forall_forall in IH. now apply IH.
Qed.

(** ** ContributionGrouper *)

(** One pass of the loop fails when the author is named as a member of
    [Object.prototype] and has no bucket; otherwise it appends the commit
    to its author's bucket, which it creates when missing, and touches no
    other bucket. *)
Lemma groupCommit_TypeError (o : JsObj.t (list RawCommit)) (c : RawCommit) :
  JsObj.get o (raw_author c) = None -> JsObj.inherited (raw_author c) = true ->
  groupCommit o c = TypeError.
Proof.
  intros G I. unfold groupCommit, JsObj.read. cbv zeta. rewrite G, I.
  cbv beta iota. now rewrite G.
Qed.

Lemma groupCommit_Ok (o : JsObj.t (list RawCommit)) (c : RawCommit) :
  JsObj.inherited (raw_author c) = false ->
  groupCommit o c
  = Ok (JsObj.set (match JsObj.get o (raw_author c) with
                   | Some _ => o
                   | None => JsObj.set o (raw_author c) []
                   end)
                  (raw_author c)
                  (match JsObj.get o (raw_author c) with
                   | Some b => b
                   | None => []
                   end ++ [c])).
Proof.
  intro I. unfold groupCommit, JsObj.read. cbv zeta.
  destruct (JsObj.get o (raw_author c)) as [b|] eqn:G.
  - now rewrite G.
  - rewrite I, get_set, String.eqb_refl. reflexivity.
Qed.

Lemma groupCommit_get (o : JsObj.t (list RawCommit)) (c : RawCommit) :
  JsObj.inherited (raw_author c) = false ->
  exists o',
    groupCommit o c = Ok o' /\
    forall a, JsObj.get o' a
              = if String.eqb (raw_author c) a
                then Some (match JsObj.get o a with Some b => b | None => [] end ++ [c])
                else JsObj.get o a.
Proof.
  intro I. rewrite (groupCommit_Ok o c I).
  eexists. split; [reflexivity|]. intro a. rewrite get_set.
  destruct (String.eqb (raw_author c) a) eqn:E.
  - apply String.eqb_eq in E. subst a. reflexivity.
  - destruct (JsObj.get o (raw_author c)); [reflexivity|]. now rewrite get_set, E.
Qed.

Lemma groupCommits_get (l : list RawCommit) :
  existsb (fun c => JsObj.inherited (raw_author c)) l = false ->
  forall o, exists o',
    groupCommits l o = Ok o' /\
    forall a, JsObj.get o' a
              = match JsObj.get o a with
                | Some b => Some (b ++ commitsBy a l)
                | None => match commitsBy a l with
                          | [] => None
                          | b => Some b
                          end
                end.
Proof.
  induction l as [|c l IH]; intros Hl o; simpl.
  - exists o. split; [reflexivity|]. intro a.
    destruct (JsObj.get o a); [now rewrite app_nil_r | reflexivity].
  - simpl in Hl. apply orb_false_iff in Hl as [Hc Hl].
    destruct (groupCommit_get o c Hc) as (o1 & H1 & G1). rewrite H1. simpl.
    destruct (IH Hl o1) as (o' & H' & G'). exists o'. split; [exact H'|].
    intro a. rewrite G', G1.
    destruct (String.eqb (raw_author c) a) eqn:E.
    + destruct (JsObj.get o a) as [b|]; simpl; [now rewrite <- app_assoc|reflexivity].
    + reflexivity.
Qed.

(** From an object whose keys are not inherited names, the loop fails at
    the first author who is named as a member of [Object.prototype]. *)
Lemma groupCommits_TypeError (l : list RawCommit) :
  existsb (fun c => JsObj.inherited (raw_author c)) l = true ->
  forall o, (forall k, JsObj.inherited k = true -> JsObj.get o k = None) ->
            groupCommits l o = TypeError.
Proof.
  induction l as [|c l IH]; intros Hl o Ho; simpl in *; [discriminate|].
  destruct (JsObj.inherited (raw_author c)) eqn:Hc.
  - now rewrite (groupCommit_TypeError o c (Ho _ Hc) Hc).
  - destruct (groupCommit_get o c Hc) as (o1 & H1 & G1). rewrite H1. simpl.
    apply IH; [exact Hl|]. intros k Hk. rewrite G1.
    destruct (String.eqb (raw_author c) k) eqn:E; [|now apply Ho].
    apply String.eqb_eq in E. congruence.
Qed.

(** X4.  On an argument that is not an array
    [getContributionCommitsDetailed] gives the empty object.  On an array
    it fails with a [TypeError] when the author of some commit is named
    as a member of [Object.prototype] (['constructor'], ['toString'],
    ['__proto__'], ...): the inherited member is taken for the author's
    bucket, and it has no [push].  Otherwise it maps every author of a
    commit to that author's commits, in the order of the array, and has
    no entry for anyone else. *)
Theorem getContributionCommitsDetailed_groups (l : list RawCommit) :
  getContributionCommitsDetailed None = Ok JsObj.empty /\
  if existsb (fun c => existsb (String.eqb (raw_author c)) JsObj.prototype_members) l
  then getContributionCommitsDetailed (Some l) = TypeError
  else exists o,
      getContributionCommitsDetailed (Some l) = Ok o /\
      forall a, JsObj.get o a
                = if existsb (fun c => String.eqb (raw_author c) a) l
                  then Some (commitsBy a l)
                  else None.
Proof.
  split; [reflexivity|].
  change (existsb (fun c => existsb (String.eqb (raw_author c))
                                    JsObj.prototype_members) l)
    with (existsb (fun c => JsObj.inherited (raw_author c)) l).
  destruct (existsb (fun c => JsObj.inherited (raw_author c)) l) eqn:Hl.
  - apply groupCommits_TypeError; [exact Hl | reflexivity].
  - destruct (groupCommits_get l Hl JsObj.empty) as (o & H & G).
    exists o. split; [exact H|]. intro a. rewrite G. simpl.
    unfold commitsBy. clear.
    induction l as [|c l IH]; simpl; [reflexivity|].
    destruct (String.eqb (raw_author c) a); simpl; [reflexivity | exact IH].
Qed.

(** The commits of the example dictionary grouped; and a list with an
    author named ['toString']. *)
Example getContributionCommitsDetailed_examples :
  getContributionCommitsDetailed (Some (map snd tiedCommits)) = Ok tiedGroups /\
  getContributionCommitsDetailed
    (Some [mkRawCommit "h1" "m1" 1700000000 "A";
           mkRawCommit "h2" "m2" 1690000000 "toString"])
  = TypeError.
Proof. split; reflexivity. Qed.

Lemma bucketsOf_insert_index (o : JsObj.t (list RawCommit)) (i : N) (k : string) :
  bucketsOf (JsObj.insert_index o i k []) = bucketsOf o.
Proof.
  unfold bucketsOf. induction o as [|[k' b] r IH]; simpl; [reflexivity|].
  destruct (JsObj.array_index k') as [j|]; [destruct (j <? i)%N|]; simpl;
    try reflexivity.
  now rewrite IH.
Qed.

Lemma bucketsOf_set_empty (o : JsObj.t (list RawCommit)) (k : string) :
  JsObj.get o k = None -> bucketsOf (JsObj.set o k []) = bucketsOf o.
Proof.
  intro G. unfold JsObj.set, JsObj.has. rewrite G.
  destruct (JsObj.array_index k).
  - apply bucketsOf_insert_index.
  - unfold bucketsOf. rewrite map_app, concat_app. simpl. now rewrite app_nil_r.
Qed.

Lemma bucketsOf_push (o : JsObj.t (list RawCommit)) (k : string)
      (b : list RawCommit) (c : RawCommit) :
  JsObj.get o k = Some b ->
  Permutation (bucketsOf (JsObj.set o k (b ++ [c]))) (c :: bucketsOf o).
Proof.
  intro G. unfold JsObj.set, JsObj.has. rewrite G. unfold bucketsOf.
  revert G. induction o as [|[k' b'] r IH]; simpl; [discriminate|].
  destruct (String.eqb k' k) eqn:E.
  - intros [= ->]. simpl. rewrite <- app_assoc. simpl.
    apply Permutation_sym, Permutation_middle.
  - intro G. simpl.
    eapply perm_trans; [apply Permutation_app_head, IH, G|].
    apply Permutation_sym, Permutation_middle.
Qed.

Lemma groupCommits_buckets (l : list RawCommit) :
  forall o o', groupCommits l o = Ok o' ->
               Permutation (bucketsOf o') (bucketsOf o ++ l).
Proof.
  induction l as [|c l IH]; intros o o'; simpl.
  - intros [= <-]. now rewrite app_nil_r.
  - destruct (JsObj.inherited (raw_author c)) eqn:I.
    + unfold groupCommit, JsObj.read. cbv zeta.
      destruct (JsObj.get o (raw_author c)) as [b|] eqn:G.
      * rewrite G. simpl. intro H. apply IH in H.
        eapply perm_trans; [exact H|].
        eapply perm_trans; [apply Permutation_app_tail, bucketsOf_push, G|].
        simpl. apply Permutation_middle.
      * rewrite I. cbv beta iota. rewrite G. discriminate.
    + rewrite (groupCommit_Ok o c I). simpl. intro H. apply IH in H.
      eapply perm_trans; [exact H|].
      destruct (JsObj.get o (raw_author c)) as [b|] eqn:G.
      * eapply perm_trans; [apply Permutation_app_tail, bucketsOf_push, G|].
        simpl. apply Permutation_middle.
      * eapply perm_trans.
        -- apply Permutation_app_tail.
           apply (bucketsOf_push (JsObj.set o (raw_author c) []) (raw_author c) [] c).
           now rewrite get_set, String.eqb_refl.
        -- simpl. rewrite (bucketsOf_set_empty o _ G). apply Permutation_middle.
Qed.

(** X5.  When [getContributionCommitsDetailed] returns, the buckets of
    the grouping hold the commits of the array, each one once: nothing is
    lost and nothing is repeated. *)
Theorem getContributionCommitsDetailed_partition
        (l : list RawCommit) (o : JsObj.t (list RawCommit)) :
  getContributionCommitsDetailed (Some l) = Ok o ->
  Permutation (bucketsOf o) l /\
  list_sum (map (fun e => List.length (snd e)) o) = List.length l.
Proof.
  intro H. apply groupCommits_buckets in H. simpl in H.
  split; [exact H|].
  apply Permutation_length in H. rewrite <- H. unfold bucketsOf.
  clear. induction o as [|[k b] r IH]; simpl; [reflexivity|].
  now rewrite length_app, IH.
Qed.

Lemma getContributionCommitsDetailed_partition_witness :
  getContributionCommitsDetailed (Some (map snd tiedCommits)) = Ok tiedGroups /\
  Permutation (bucketsOf tiedGroups) (map snd tiedCommits) /\
  list_sum (map (fun e => List.length (snd e)) tiedGroups)
  = List.length (map snd tiedCommits).
Proof.
  split; [reflexivity|].
  apply (getContributionCommitsDetailed_partition (map snd tiedCommits) tiedGroups).
  reflexivity.
Defined.

(** ** The payload of the script block *)

Lemma slice_from_app (p s : string) : slice_from (String.length p) (p ++ s) = s.
Proof. induction p as [|c p IH]; simpl; [reflexivity | exact IH]. Qed.

Lemma slice_init_snoc (s : string) (c : ascii) :
  slice_init (s ++ String c EmptyString) = s.
Proof.
  induction s as [|c' s IH]; simpl; [reflexivity|].
  rewrite IH. now destruct s.
Qed.

Lemma slice_from_length (n : nat) :
  forall s, String.length (slice_from n s) = (String.length s - n)%nat.
Proof.
  induction n as [|n IH]; intros [|c s]; simpl; try reflexivity; try lia.
  apply IH.
Qed.

Lemma slice_init_length (s : string) :
  String.length (slice_init s) = (String.length s - 1)%nat.
Proof.
  induction s as [|c s IH]; simpl; [reflexivity|].
  destruct s as [|c' s]; [reflexivity|].
  simpl in *. rewrite IH. lia.
Qed.

(** X6.  The text handed to [JSON.parse] is the script content without its
    first 24 characters and its last one: it is 25 characters shorter (and
    empty for a content of 25 characters or fewer), and from a content made
    of a 24-character prefix, a payload and one closing character it is
    the payload. *)
Theorem contentWithoutLastPart_payload (scriptContent : string) :
  String.length (contentWithoutLastPart scriptContent)
  = (String.length scriptContent - 25)%nat /\
  forall (prefix payload : string) (c : ascii),
    String.length prefix = 24%nat ->
    scriptContent = (prefix ++ payload ++ String c EmptyString)%string ->
    contentWithoutLastPart scriptContent = payload.
Proof.
  unfold contentWithoutLastPart. split.
  - rewrite slice_init_length, slice_from_length. lia.
  - intros prefix payload c Hlen ->.
    rewrite <- Hlen, slice_from_app. apply slice_init_snoc.
Qed.

Lemma contentWithoutLastPart_payload_witness :
  String.length "window.__remixContext = " = 24%nat /\
  contentWithoutLastPart "window.__remixContext = {};" = "{}".
Proof.
  split; [reflexivity|].
  apply (proj2 (contentWithoutLastPart_payload "window.__remixContext = {};")
               "window.__remixContext = " "{}" ";"%char);
    reflexivity.
Defined.

(** ** What the statistics depend on *)

Lemma getMinCommits_unfold (n : TreeNode) :
  getMinCommits n
  = let m := fold_left (fun m child => Math_min m (getMinCommits child)) (kids n)
                       (match commitCount n with
                        | [] => PInf
                        | x :: _ => Math_min PInf (of_Z x)
                        end) in
    if eqb m PInf then of_Z 0 else m.
Proof.
  destruct n as [ty au [cs|] ep ef co sa tc]; unfold commitCount, is_blob; simpl;
    destruct (String.eqb ty "blob"), co; reflexivity.
Qed.

Lemma getMaxCommits_unfold (n : TreeNode) :
  getMaxCommits n
  = fold_left (fun m child => Math_max m (getMaxCommits child)) (kids n)
              (match commitCount n with
               | [] => of_Z 0
               | x :: _ => Math_max (of_Z 0) (of_Z x)
               end).
Proof.
  destruct n as [ty au [cs|] ep ef co sa tc]; unfold commitCount, is_blob; simpl;
    destruct (String.eqb ty "blob"), co; reflexivity.
Qed.

Lemma getFirstChangeEpoch_unfold (n : TreeNode) :
  getFirstChangeEpoch n
  = let m := fold_left (fun m child => Math_min m (getFirstChangeEpoch child))
                       (kids n)
                       (match changeEpoch n with
                        | [] => PInf
                        | x :: _ => Math_min PInf (of_Z x)
                        end) in
    if eqb m PInf then of_Z 0 else m.
Proof.
  destruct n as [ty au [cs|] ep ef co sa tc]; unfold changeEpoch, is_blob; simpl;
    destruct (String.eqb ty "blob"), ep; reflexivity.
Qed.

Lemma getLastChangeEpoch_unfold (n : TreeNode) :
  getLastChangeEpoch n
  = fold_left (fun m child => Math_max m (getLastChangeEpoch child)) (kids n)
              (match changeEpoch n with
               | [] => of_Z 0
               | x :: _ => Math_max (of_Z 0) (of_Z x)
               end).
Proof.
  destruct n as [ty au [cs|] ep ef co sa tc]; unfold changeEpoch, is_blob; simpl;
    destruct (String.eqb ty "blob"), ep; reflexivity.
Qed.

Lemma fold_left_through {A B C : Type} (op : C -> B -> C) (g : A -> B)
      (l : list A) (i : C) :
  fold_left (fun m x => op m (g x)) l i = fold_left op (map g l) i.
Proof. revert i. induction l as [|x l IH]; intro i; simpl; [reflexivity | apply IH]. Qed.

(** Two nodes with the same commit count and epoch whose children have the
    same statistics have the same statistics. *)
Lemma stats_node (n n' : TreeNode) :
  commitCount n' = commitCount n -> changeEpoch n' = changeEpoch n ->
  map stats (kids n') = map stats (kids n) ->
  stats n' = stats n.
Proof.
  intros Hc He Hk. unfold stats.
  rewrite (getMinCommits_unfold n'), (getMinCommits_unfold n),
    (getMaxCommits_unfold n'), (getMaxCommits_unfold n),
    (getFirstChangeEpoch_unfold n'), (getFirstChangeEpoch_unfold n),
    (getLastChangeEpoch_unfold n'), (getLastChangeEpoch_unfold n).
  cbv zeta.
  rewrite (fold_left_through Math_min getMinCommits (kids n')),
    (fold_left_through Math_min getMinCommits (kids n)),
    (fold_left_through Math_max getMaxCommits (kids n')),
    (fold_left_through Math_max getMaxCommits (kids n)),
    (fold_left_through Math_min getFirstChangeEpoch (kids n')),
    (fold_left_through Math_min getFirstChangeEpoch (kids n)),
    (fold_left_through Math_max getLastChangeEpoch (kids n')),
    (fold_left_through Math_max getLastChangeEpoch (kids n)), Hc, He.
  assert (H1 : map getMinCommits (kids n') = map getMinCommits (kids n)).
  { apply (f_equal (map (fun s => fst (fst (fst s))))) in Hk.
    now rewrite !map_map in Hk. }
  assert (H2 : map getMaxCommits (kids n') = map getMaxCommits (kids n)).
  { apply (f_equal (map (fun s => snd (fst (fst s))))) in Hk.
    now rewrite !map_map in Hk. }
  assert (H3 : map getFirstChangeEpoch (kids n') = map getFirstChangeEpoch (kids n)).
  { apply (f_equal (map (fun s => snd (fst s)))) in Hk.
    now rewrite !map_map in Hk. }
  assert (H4 : map getLastChangeEpoch (kids n') = map getLastChangeEpoch (kids n)).
  { apply (f_equal (map (fun s : number * number * number * number => snd s))) in Hk.
    now rewrite !map_map in Hk. }
  now rewrite H1, H2, H3, H4.
Qed.

(** A pass that rewrites each node in place and descends into every child
    keeps the statistics when it keeps commit counts and epochs. *)
Section StatsFrame.
Variable h : TreeNode -> TreeNode.
Hypothesis h_commits : forall n, commitCount (h n) = commitCount n.
Hypothesis h_epoch : forall n, changeEpoch (h n) = changeEpoch n.
Hypothesis h_kids : forall n, kids (h n) = map h (kids n).

Lemma stats_frame (t : TreeNode) : stats (h t) = stats t.
Proof.
  induction t as [ty au ep ef co sa tc | ty au cs ep ef co sa tc IH]
    using TreeNode_ind'; apply stats_node; auto; rewrite h_kids.
  - reflexivity.
  - change (kids (mkNode ty au (Some cs) ep ef co sa tc)) with cs.
    rewrite map_map. apply map_ext_in. intros c Hc.
    rewrite Forall_forall in IH. now apply IH.
Qed.
End StatsFrame.

Lemma stats_updateAuthorValues (t : TreeNode) : stats (updateAuthorValues t) = stats t.
Proof.
  apply stats_frame; intros [ty au [cs|] ep ef co sa tc]; reflexivity.
Qed.

Lemma stats_simplifyContributions (t : TreeNode) :
  stats (simplifyContributions t) = stats t.
Proof.
  apply stats_frame; intros [ty au [cs|] ep ef co sa tc]; reflexivity.
Qed.

Lemma stats_addTopContributor (t : TreeNode) : stats (addTopContributor t) = stats t.
Proof.
  apply stats_frame; intros [ty au [[|c cs]|] ep ef co sa tc]; reflexivity.
Qed.

Lemma stats_addMetrics (t : TreeNode) : stats (addMetrics t) = stats t.
Proof.
  unfold addMetrics. rewrite stats_addTopContributor.
  induction t as [ty au ep ef co sa tc | ty au cs ep ef co sa tc IH]
    using TreeNode_ind'; apply stats_node; try reflexivity.
  destruct cs as [|c cs]; [reflexivity|].
  change (kids (addSingleAuthor (mkNode ty au (Some (c :: cs)) ep ef co sa tc)))
    with (map (fun child => addTopContributor (addSingleAuthor child)) (c :: cs)).
  change (kids (mkNode ty au (Some (c :: cs)) ep ef co sa tc)) with (c :: cs).
  rewrite map_map. apply map_ext_in. intros c' Hc'.
  rewrite stats_addTopContributor.
  rewrite Forall_forall in IH. now apply IH.
Qed.

(** X7.  The four statistics read only node types, commit counts, epochs
    and the shape of the tree: normalising the authors, annotating the
    metrics or simplifying the contributions leaves all four as they
    were. *)
Theorem stats_unchanged_by_passes (t : TreeNode) :
  stats (updateAuthorValues t) = stats t /\
  stats (addMetrics t) = stats t /\
  stats (simplifyContributions t) = stats t.
Proof.
  split; [apply stats_updateAuthorValues|].
  split; [apply stats_addMetrics | apply stats_simplifyContributions].
Qed.

(** ** The traversals of the two enrichers *)

Lemma is_tree_not_blob (n : TreeNode) : is_tree n = true -> is_blob n = false.
Proof.
  unfold is_tree, is_blob. intro H. apply String.eqb_eq in H. now rewrite H.
Qed.

Lemma forEachM_Ok {A : Type} (f : A -> result A) (l : list A) :
  forall l', forEachM f l = Ok l' -> Forall2 (fun x x' => f x = Ok x') l l'.
Proof.
  induction l as [|x l IH]; intros l'; simpl.
  - intros [= <-]. constructor.
  - destruct (f x) as [x'|] eqn:Fx; [|discriminate].
    destruct (forEachM f l) as [r|]; [|discriminate].
    intros [= <-]. constructor; [exact Fx | now apply IH].
Qed.

Lemma forEachM_TypeError {A : Type} (f : A -> result A) (l : list A) :
  forEachM f l = TypeError <-> exists x, In x l /\ f x = TypeError.
Proof.
  induction l as [|x l IH]; simpl.
  - split; [discriminate | intros (x & [] & _)].
  - destruct (f x) as [x'|] eqn:Fx.
    + destruct (forEachM f l) as [r|].
      * split; [discriminate|].
        intros (y & [<- | Hin] & Hy); [congruence|].
        assert (H : @Ok (list A) r = TypeError) by (apply IH; eauto).
        discriminate H.
      * split; [|reflexivity]. intros _.
        destruct (proj1 IH eq_refl) as (y & Hin & Hy). eauto.
    + split; [|reflexivity]. intros _. exists x. auto.
Qed.

Lemma Forall2_nth_error {A B : Type} (R : A -> B -> Prop) (l : list A) (l' : list B) :
  Forall2 R l l' ->
  forall i x, nth_error l i = Some x ->
              exists x', nth_error l' i = Some x' /\ R x x'.
Proof.
  induction 1 as [|a b l l' Hab _ IH]; intros [|i] x; simpl; try discriminate.
  - intros [= <-]. eauto.
  - apply IH.
Qed.

Lemma forEachM_cons_then {A : Type} (f g : A -> result A) (x : A) (l : list A) :
  bind (forEachM f (x :: l)) (forEachM g)
  = both (bind (f x) g) (bind (forEachM f l) (forEachM g)).
Proof.
  simpl. destruct (f x) as [x'|]; simpl; [|reflexivity].
  destruct (forEachM f l) as [l'|]; simpl.
  - destruct (g x'); reflexivity.
  - now destruct (g x').
Qed.

(** Visiting a list with one pass and then the other is visiting it in the
    other order, when this holds of every element. *)
Lemma forEachM_commute {A : Type} (f g : A -> result A) (l : list A) :
  Forall (fun x => bind (f x) g = bind (g x) f) l ->
  bind (forEachM f l) (forEachM g) = bind (forEachM g l) (forEachM f).
Proof.
  induction 1 as [|x l Hx _ IH]; [reflexivity|].
  now rewrite !forEachM_cons_then, Hx, IH.
Qed.

(** A traversal that rewrites the blobs it is after, descends through
    ['tree'] nodes and leaves every other node alone. *)
Section Traversal.
Variable visit : TreeNode -> result TreeNode.
Variable hit : TreeNode -> bool.
Variable upd : TreeNode -> TreeNode.
Hypothesis hit_blob : forall n, hit n = true -> is_blob n = true.
Hypothesis upd_children : forall n, children (upd n) = children n.
Hypothesis visit_eq : forall n,
    visit n = if hit n then Ok (upd n)
              else if is_tree n then
                     match children n with
                     | None => TypeError
                     | Some cs =>
                         cs' <- forEachM visit cs ;; Ok (set_children n cs')
                     end
                   else Ok n.

Lemma hit_not_tree (n : TreeNode) : is_tree n = true -> hit n = false.
Proof.
  intro H. destruct (hit n) eqn:E; [|reflexivity].
  apply hit_blob in E. apply is_tree_not_blob in H. congruence.
Qed.

(** The traversal fails exactly when it reaches a ['tree'] node without
    [children]. *)
Lemma visit_fails_iff (t : TreeNode) :
  visit t = TypeError <->
  exists p n, reach t p = Some n /\ is_tree n = true /\ children n = None.
Proof.
  split.
  - induction t as [ty au ep ef co sa tc | ty au cs ep ef co sa tc IH]
      using TreeNode_ind'; rewrite visit_eq.
    + destruct (hit _); [discriminate|].
      destruct (is_tree _) eqn:T; [|discriminate].
      intros _. exists [], (mkNode ty au None ep ef co sa tc). auto.
    + destruct (hit _); [discriminate|].
      destruct (is_tree _) eqn:T; [|discriminate].
      simpl. destruct (forEachM visit cs) as [cs'|] eqn:F; [discriminate|].
      intros _. apply forEachM_TypeError in F as (c & Hin & Hc).
      rewrite Forall_forall in IH.
      destruct (IH c Hin Hc) as (p & n & Hr & Hn).
      apply In_nth_error in Hin as (i & Hi).
      exists (i :: p), n. split; [|exact Hn].
      simpl. rewrite T. simpl. now rewrite Hi.
  - intros (p & n & Hr & Ht & Hc). revert t Hr.
    induction p as [|i p IH]; intros t Hr; simpl in Hr.
    + injection Hr as ->. rewrite visit_eq, (hit_not_tree n Ht), Ht, Hc.
      reflexivity.
    + destruct (is_tree t) eqn:T; [|discriminate].
      destruct (children t) as [cs|] eqn:C; [|discriminate].
      destruct (nth_error cs i) as [c|] eqn:Hi; [|discriminate].
      rewrite visit_eq, (hit_not_tree t T), T, C.
      assert (F : forEachM visit cs = TypeError).
      { apply forEachM_TypeError. exists c.
        split; [eapply nth_error_In; eassumption | now apply IH]. }
      now rewrite F.
Qed.

(** After a successful traversal, every node that could be reached can
    still be reached, and holds what the traversal returns for it. *)
Lemma visit_reach (p : list nat) :
  forall t t' n, visit t = Ok t' -> reach t p = Some n ->
                 exists n', reach t' p = Some n' /\ visit n = Ok n'.
Proof.
  induction p as [|i p IH]; intros t t' n Hv Hr; simpl in Hr.
  - injection Hr as <-. exists t'. split; [reflexivity | exact Hv].
  - destruct (is_tree t) eqn:T; [|discriminate].
    destruct (children t) as [cs|] eqn:C; [|discriminate].
    destruct (nth_error cs i) as [c|] eqn:Hi; [|discriminate].
    rewrite visit_eq, (hit_not_tree t T), T, C in Hv.
    destruct (forEachM visit cs) as [cs'|] eqn:F; [|discriminate].
    simpl in Hv. injection Hv as <-.
    apply forEachM_Ok in F.
    destruct (Forall2_nth_error _ _ _ F i c Hi) as (c' & Hi' & Hc').
    destruct (IH c c' n Hc' Hr) as (n' & Hr' & Hn').
    exists n'. split; [|exact Hn'].
    simpl. unfold is_tree in *. simpl. rewrite T. now rewrite Hi'.
Qed.

(** What the traversal returns for a node: the rewritten blob, or the
    node with, at most, other children. *)
Lemma visit_local (n n' : TreeNode) :
  visit n = Ok n' ->
  if hit n then n' = upd n
  else type n' = type n /\ authors n' = authors n /\
       lastChangeEpoch n' = lastChangeEpoch n /\
       lastChangeEpochFormatted n' = lastChangeEpochFormatted n /\
       commits n' = commits n /\ singleAuthor n' = singleAuthor n /\
       topContributor n' = topContributor n.
Proof.
  rewrite visit_eq. destruct (hit n); [now intros [= <-]|].
  destruct (is_tree n).
  - destruct (children n) as [cs|]; [|discriminate].
    destruct (forEachM visit cs) as [cs'|]; [|discriminate].
    simpl. intros [= <-]. repeat split.
  - intros [= <-]. repeat split.
Qed.

(** A node that the traversal cannot reach is left as it was. *)
Lemma visit_unreached (p : list nat) :
  forall t t' n, visit t = Ok t' -> node_at t p = Some n -> reach t p = None ->
                 node_at t' p = Some n.
Proof.
  induction p as [|i p IH]; intros t t' n Hv Hat Hr; simpl in *.
  - discriminate.
  - destruct (children t) as [cs|] eqn:C; [|discriminate].
    destruct (nth_error cs i) as [c|] eqn:Hi; [|discriminate].
    rewrite visit_eq in Hv. destruct (hit t) eqn:H.
    + injection Hv as <-. now rewrite upd_children, C, Hi.
    + destruct (is_tree t) eqn:T.
      * rewrite C in Hv.
        destruct (forEachM visit cs) as [cs'|] eqn:F; [|discriminate].
        simpl in Hv. injection Hv as <-. simpl.
        apply forEachM_Ok in F.
        destruct (Forall2_nth_error _ _ _ F i c Hi) as (c' & Hi' & Hc').
        rewrite Hi'. now apply (IH c c' n).
      * injection Hv as <-. now rewrite C, Hi.
Qed.
End Traversal.

(** Two such traversals that rewrite different fields can run in either
    order. *)
Section TwoTraversals.
Variables visit1 visit2 : TreeNode -> result TreeNode.
Variables hit1 hit2 : TreeNode -> bool.
Variables upd1 upd2 : TreeNode -> TreeNode.
Hypothesis hit1_blob : forall n, hit1 n = true -> is_blob n = true.
Hypothesis hit2_blob : forall n, hit2 n = true -> is_blob n = true.
Hypothesis upd1_type : forall n, type (upd1 n) = type n.
Hypothesis upd2_type : forall n, type (upd2 n) = type n.
Hypothesis upd1_hit2 : forall n, hit2 (upd1 n) = hit2 n.
Hypothesis upd2_hit1 : forall n, hit1 (upd2 n) = hit1 n.
Hypothesis hit1_children : forall n cs, hit1 (set_children n cs) = hit1 n.
Hypothesis hit2_children : forall n cs, hit2 (set_children n cs) = hit2 n.
Hypothesis upd_commute : forall n, upd1 (upd2 n) = upd2 (upd1 n).
Hypothesis visit1_eq : forall n,
    visit1 n = if hit1 n then Ok (upd1 n)
               else if is_tree n then
                      match children n with
                      | None => TypeError
                      | Some cs =>
                          cs' <- forEachM visit1 cs ;; Ok (set_children n cs')
                      end
                    else Ok n.
Hypothesis visit2_eq : forall n,
    visit2 n = if hit2 n then Ok (upd2 n)
               else if is_tree n then
                      match children n with
                      | None => TypeError
                      | Some cs =>
                          cs' <- forEachM visit2 cs ;; Ok (set_children n cs')
                      end
                    else Ok n.

Lemma blob_not_tree (n : TreeNode) : is_blob n = true -> is_tree n = false.
Proof.
  intro H. destruct (is_tree n) eqn:T; [|reflexivity].
  apply is_tree_not_blob in T. congruence.
Qed.

Lemma is_tree_type (n n' : TreeNode) : type n' = type n -> is_tree n' = is_tree n.
Proof. unfold is_tree. now intros ->. Qed.

Lemma visits_commute (t : TreeNode) :
  bind (visit1 t) visit2 = bind (visit2 t) visit1.
Proof.
  induction t as [ty au ep ef co sa tc | ty au cs ep ef co sa tc IH]
    using TreeNode_ind'.
  - set (n := mkNode ty au None ep ef co sa tc).
    rewrite (visit1_eq n), (visit2_eq n).
    destruct (hit1 n) eqn:H1, (hit2 n) eqn:H2; simpl.
    + rewrite visit1_eq, visit2_eq, upd1_hit2, upd2_hit1, H1, H2.
      now rewrite upd_commute.
    + rewrite (blob_not_tree n (hit1_blob n H1)). simpl.
      rewrite visit1_eq, visit2_eq, upd1_hit2, H1, H2.
      now rewrite (is_tree_type _ _ (upd1_type n)), (blob_not_tree n (hit1_blob n H1)).
    + rewrite (blob_not_tree n (hit2_blob n H2)). simpl.
      rewrite visit1_eq, visit2_eq, upd2_hit1, H1, H2.
      now rewrite (is_tree_type _ _ (upd2_type n)), (blob_not_tree n (hit2_blob n H2)).
    + destruct (is_tree n) eqn:T; simpl; [reflexivity|].
      now rewrite visit1_eq, visit2_eq, H1, H2, T.
  - set (n := mkNode ty au (Some cs) ep ef co sa tc).
    rewrite (visit1_eq n), (visit2_eq n).
    destruct (hit1 n) eqn:H1, (hit2 n) eqn:H2; simpl.
    + rewrite visit1_eq, visit2_eq, upd1_hit2, upd2_hit1, H1, H2.
      now rewrite upd_commute.
    + rewrite (blob_not_tree n (hit1_blob n H1)). simpl.
      rewrite visit1_eq, visit2_eq, upd1_hit2, H1, H2.
      now rewrite (is_tree_type _ _ (upd1_type n)), (blob_not_tree n (hit1_blob n H1)).
    + rewrite (blob_not_tree n (hit2_blob n H2)). simpl.
      rewrite visit1_eq, visit2_eq, upd2_hit1, H1, H2.
      now rewrite (is_tree_type _ _ (upd2_type n)), (blob_not_tree n (hit2_blob n H2)).
    + destruct (is_tree n) eqn:T; simpl;
        [|now rewrite visit1_eq, visit2_eq, H1, H2, T].
      assert (L : bind (bind (forEachM visit1 cs)
                             (fun cs' => Ok (set_children n cs'))) visit2
                  = bind (bind (forEachM visit1 cs) (forEachM visit2))
                         (fun cs' => Ok (set_children n cs'))).
      { destruct (forEachM visit1 cs) as [cs1|]; simpl; [|reflexivity].
        rewrite visit2_eq, hit2_children, H2.
        change (is_tree (set_children n cs1)) with (is_tree n). rewrite T.
        reflexivity. }
      assert (R : bind (bind (forEachM visit2 cs)
                             (fun cs' => Ok (set_children n cs'))) visit1
                  = bind (bind (forEachM visit2 cs) (forEachM visit1))
                         (fun cs' => Ok (set_children n cs'))).
      { destruct (forEachM visit2 cs) as [cs2|]; simpl; [|reflexivity].
        rewrite visit1_eq, hit1_children, H1.
        change (is_tree (set_children n cs2)) with (is_tree n). rewrite T.
        reflexivity. }
      change (bind (bind (forEachM visit1 cs)
                         (fun cs' => Ok (set_children n cs'))) visit2
              = bind (bind (forEachM visit2 cs)
                           (fun cs' => Ok (set_children n cs'))) visit1).
      rewrite L, R. now rewrite (forEachM_commute visit1 visit2 cs IH).
Qed.
End TwoTraversals.

Section EnricherTraversals.
Variable Date : Type.
Variable newDate : number -> Date.
Variable getDate getMonth getFullYear : Date -> option Z.

Local Abbreviation uLCD :=
  (updateLastChangeDate Date newDate getDate getMonth getFullYear).
Local Abbreviation uC :=
  (updateCommits Date newDate getDate getMonth getFullYear).
Local Abbreviation dated :=
  (withFormattedDate Date newDate getDate getMonth getFullYear).
Local Abbreviation enriched :=
  (withUpdatedCommits Date newDate getDate getMonth getFullYear).

Lemma updateLastChangeDate_unfold (n : TreeNode) :
  uLCD n = if datedBlob n then Ok (dated n)
           else if is_tree n then
                  match children n with
                  | None => TypeError
                  | Some cs => cs' <- forEachM uLCD cs ;; Ok (set_children n cs')
                  end
                else Ok n.
Proof.
  destruct n as [ty au ch ep ef co sa tc].
  unfold datedBlob, withFormattedDate, is_blob, is_tree. simpl.
  destruct (String.eqb ty "blob"), ep; simpl; try reflexivity;
    destruct (String.eqb ty "tree"), ch; reflexivity.
Qed.

Lemma updateCommits_unfold (d : JsObj.t RawCommit) (n : TreeNode) :
  uC d n = if commitBlob n then Ok (enriched d n)
           else if is_tree n then
                  match children n with
                  | None => TypeError
                  | Some cs => cs' <- forEachM (uC d) cs ;; Ok (set_children n cs')
                  end
                else Ok n.
Proof.
  destruct n as [ty au ch ep ef co sa tc].
  unfold commitBlob, withUpdatedCommits, is_blob, is_tree. simpl.
  destruct (String.eqb ty "blob"), co; simpl; try reflexivity;
    destruct (String.eqb ty "tree"), ch; reflexivity.
Qed.

Lemma datedBlob_blob (n : TreeNode) : datedBlob n = true -> is_blob n = true.
Proof. unfold datedBlob. now intros H%andb_prop. Qed.

Lemma commitBlob_blob (n : TreeNode) : commitBlob n = true -> is_blob n = true.
Proof. unfold commitBlob. now intros H%andb_prop. Qed.

Lemma dated_children (n : TreeNode) : children (dated n) = children n.
Proof. unfold withFormattedDate. now destruct (lastChangeEpoch n). Qed.

Lemma enriched_children (d : JsObj.t RawCommit) (n : TreeNode) :
  children (enriched d n) = children n.
Proof. unfold withUpdatedCommits. now destruct (commits n). Qed.

(** X8.  Each of the two enrichers raises a [TypeError] exactly when, going
    down from the root through nodes of type ['tree'], it comes to a node
    of type ['tree'] that has no [children]; so the two fail on the same
    trees, whatever the commit dictionary. *)
Theorem enrichers_fail_iff (d : JsObj.t RawCommit) (t : TreeNode) :
  (uLCD t = TypeError <->
   exists p n, reach t p = Some n /\ is_tree n = true /\ children n = None) /\
  (uC d t = TypeError <->
   exists p n, reach t p = Some n /\ is_tree n = true /\ children n = None).
Proof.
  split.
  - apply (visit_fails_iff uLCD datedBlob dated datedBlob_blob
                           updateLastChangeDate_unfold).
  - apply (visit_fails_iff (uC d) commitBlob (enriched d) commitBlob_blob
                           (updateCommits_unfold d)).
Qed.

(** X9.  When [updateLastChangeDate] succeeds, every node it can reach
    through ['tree'] nodes is still there; a blob with a [lastChangeEpoch]
    has [lastChangeEpochFormatted] set to the formatted date of that epoch,
    any other node keeps the value it had, and no other field of a node but
    [children] changes. *)
Theorem updateLastChangeDate_formats
        (t t' : TreeNode) (p : list nat) (n : TreeNode) :
  uLCD t = Ok t' -> reach t p = Some n ->
  exists n',
    reach t' p = Some n' /\
    lastChangeEpochFormatted n'
    = (match is_blob n, lastChangeEpoch n with
       | true, Some e =>
           Some (formatDate Date getDate getMonth getFullYear
                            (convertUnixTimeToDate Date newDate e))
       | _, _ => lastChangeEpochFormatted n
       end) /\
    type n' = type n /\ authors n' = authors n /\
    lastChangeEpoch n' = lastChangeEpoch n /\ commits n' = commits n /\
    singleAuthor n' = singleAuthor n /\ topContributor n' = topContributor n.
Proof.
  intros Hv Hr.
  destruct (visit_reach uLCD datedBlob dated datedBlob_blob
                        updateLastChangeDate_unfold p t t' n Hv Hr)
    as (n' & Hr' & Hn').
  exists n'. split; [exact Hr'|].
  pose proof (visit_local uLCD datedBlob dated updateLastChangeDate_unfold n n' Hn')
    as L.
  unfold datedBlob in L. destruct (is_blob n); simpl in L.
  - destruct n as [ty au ch [e|] ef co sa tc]; simpl in *.
    + subst n'. repeat split.
    + destruct L as (? & ? & ? & ? & ? & ? & ?). repeat split; assumption.
  - destruct L as (? & ? & ? & ? & ? & ? & ?). repeat split; assumption.
Qed.


(** X11.  The enrichers do not look below a node that is not of type
    ['tree']: a node of the tree that cannot be reached through ['tree']
    nodes is left exactly as it was by a successful run of either. *)
Theorem enrichers_skip_unreached (t : TreeNode) (p : list nat) (n : TreeNode) :
  node_at t p = Some n -> reach t p = None ->
  (forall t', uLCD t = Ok t' -> node_at t' p = Some n) /\
  (forall d t', uC d t = Ok t' -> node_at t' p = Some n).
Proof.
  intros Hat Hr. split.
  - intros t' Hv.
    apply (visit_unreached uLCD datedBlob dated dated_children
                           updateLastChangeDate_unfold p t t' n Hv Hat Hr).
  - intros d t' Hv.
    apply (visit_unreached (uC d) commitBlob (enriched d) (enriched_children d)
                           (updateCommits_unfold d) p t t' n Hv Hat Hr).
Qed.

(** X12.  The two enrichers can run in either order: formatting the dates
    and then enriching the commits gives the tree, or the error, that
    enriching the commits and then formatting the dates gives. *)
Theorem enrichers_commute (d : JsObj.t RawCommit) (t : TreeNode) :
  bind (uLCD t) (uC d) = bind (uC d t) uLCD.
Proof.
  apply (visits_commute uLCD (uC d) datedBlob commitBlob dated (enriched d)).
  - exact datedBlob_blob.
  - exact commitBlob_blob.
  - intro n. unfold withFormattedDate. now destruct (lastChangeEpoch n).
  - intro n. unfold withUpdatedCommits. now destruct (commits n).
  - intro n. unfold withFormattedDate. now destruct (lastChangeEpoch n).
  - intro n. unfold withUpdatedCommits. now destruct (commits n).
  - reflexivity.
  - reflexivity.
  - intro n. unfold withFormattedDate, withUpdatedCommits.
    destruct n as [ty au ch [e|] ef [l|] sa tc]; reflexivity.
  - exact updateLastChangeDate_unfold.
  - exact (updateCommits_unfold d).
Qed.

(** A successful [updateLastChangeDate] keeps the four statistics. *)
Lemma stats_updateLastChangeDate (t : TreeNode) :
  forall t', uLCD t = Ok t' -> stats t' = stats t.
Proof.
  induction t as [ty au ep ef co sa tc | ty au cs ep ef co sa tc IH]
    using TreeNode_ind'; intros t'; rewrite updateLastChangeDate_unfold.
  - destruct (datedBlob _).
    + intros [= <-]. apply stats_node; unfold withFormattedDate; simpl;
        now destruct ep.
    + destruct (is_tree _); [discriminate | now intros [= <-]].
  - destruct (datedBlob _).
    + intros [= <-]. apply stats_node; unfold withFormattedDate; simpl;
        now destruct ep.
    + destruct (is_tree _); [|now intros [= <-]].
      simpl. destruct (forEachM uLCD cs) as [cs'|] eqn:F; [|discriminate].
      simpl. intros [= <-]. apply stats_node; try reflexivity.
      apply forEachM_Ok in F. simpl. clear - F IH.
      induction F as [|c c' cs cs' Hc _ IHF]; [reflexivity|].
      inversion IH; subst. simpl. f_equal; auto.
Qed.

End EnricherTraversals.

Lemma updateLastChangeDate_formats_witness :
  UTC.updateLastChangeDate exampleTree = Ok datedTree /\
  reach exampleTree [0%nat] = Some exampleBlob /\
  exists n',
    reach datedTree [0%nat] = Some n' /\
    lastChangeEpochFormatted n'
    = (match is_blob exampleBlob, lastChangeEpoch exampleBlob with
       | true, Some e =>
           Some (formatDate UTC.Date UTC.getDate UTC.getMonth UTC.getFullYear
                            (convertUnixTimeToDate UTC.Date UTC.newDate e))
       | _, _ => lastChangeEpochFormatted exampleBlob
       end) /\
    type n' = type exampleBlob /\ authors n' = authors exampleBlob /\
    lastChangeEpoch n' = lastChangeEpoch exampleBlob /\
    commits n' = commits exampleBlob /\
    singleAuthor n' = singleAuthor exampleBlob /\
    topContributor n' = topContributor exampleBlob.
Proof.
  split; [vm_compute; reflexivity|]. split; [reflexivity|].
  apply (updateLastChangeDate_formats
           UTC.Date UTC.newDate UTC.getDate UTC.getMonth UTC.getFullYear
           exampleTree datedTree [0%nat] exampleBlob).
  - vm_compute. reflexivity.
  - reflexivity.
Defined.


Lemma enrichers_skip_unreached_witness :
  node_at submodule [0%nat] = Some exampleBlob /\
  reach submodule [0%nat] = None /\
  (forall t', UTC.updateLastChangeDate submodule = Ok t' ->
              node_at t' [0%nat] = Some exampleBlob) /\
  (forall d t', UTC.updateCommits d submodule = Ok t' ->
                node_at t' [0%nat] = Some exampleBlob).
Proof.
  split; [reflexivity|]. split; [reflexivity|].
  apply (enrichers_skip_unreached
           UTC.Date UTC.newDate UTC.getDate UTC.getMonth UTC.getFullYear
           submodule [0%nat] exampleBlob); reflexivity.
Defined.

(** ** The parsers *)

Lemma reach_node_at (p : list nat) :
  forall t n, reach t p = Some n -> node_at t p = Some n.
Proof.
  induction p as [|i p IH]; intros t n; simpl; [trivial|].
  destruct (is_tree t); [|discriminate].
  destruct (children t) as [cs|]; [|discriminate].
  destruct (nth_error cs i); [apply IH | discriminate].
Qed.

Lemma reach_updateAuthorValues (p : list nat) :
  forall t, reach (updateAuthorValues t) p
            = option_map updateAuthorValues (reach t p).
Proof.
  induction p as [|i p IH]; intros [ty au ch ep ef co sa tc]; simpl.
  - reflexivity.
  - unfold is_tree. simpl. destruct (String.eqb ty "tree"); [|reflexivity].
    destruct ch as [cs|]; simpl; [|reflexivity].
    rewrite nth_error_map.
    destruct (nth_error cs i); simpl; [apply IH | reflexivity].
Qed.

Lemma updateAuthorValues_shape (n : TreeNode) :
  is_tree (updateAuthorValues n) = is_tree n /\
  (children (updateAuthorValues n) = None <-> children n = None).
Proof.
  destruct n as [ty au [cs|] ep ef co sa tc]; simpl; split; try reflexivity;
    split; discriminate.
Qed.

Section ParserFacts.
Variable Date : Type.
Variable newDate : number -> Date.
Variable getDate getMonth getFullYear : Date -> option Z.

Local Abbreviation uLCD :=
  (updateLastChangeDate Date newDate getDate getMonth getFullYear).

(** After a successful [updateLastChangeDate] every node of the tree is
    still in its place with its type and its authors. *)
Lemma updateLastChangeDate_node_at (t t' : TreeNode) (p : list nat) (n : TreeNode) :
  uLCD t = Ok t' -> node_at t p = Some n ->
  exists n', node_at t' p = Some n' /\ type n' = type n /\ authors n' = authors n.
Proof.
  intros Hv Hat. destruct (reach t p) as [m|] eqn:Hr.
  - pose proof (reach_node_at p t m Hr) as Hm. rewrite Hat in Hm.
    injection Hm as <-.
    destruct (visit_reach uLCD datedBlob _ (datedBlob_blob)
                (updateLastChangeDate_unfold Date newDate getDate getMonth getFullYear)
                p t t' n Hv Hr) as (n' & Hr' & Hn').
    exists n'. split; [now apply reach_node_at|].
    pose proof (visit_local uLCD datedBlob _
                  (updateLastChangeDate_unfold Date newDate getDate getMonth getFullYear)
                  n n' Hn') as L.
    destruct (datedBlob n).
    + subst n'. unfold withFormattedDate. now destruct (lastChangeEpoch n).
    + destruct L as (T & A & _). auto.
  - exists n. split; [|auto].
    apply (visit_unreached uLCD datedBlob _
             (dated_children Date newDate getDate getMonth getFullYear)
             (updateLastChangeDate_unfold Date newDate getDate getMonth getFullYear)
             p t t' n Hv Hat Hr).
Qed.
End ParserFacts.

Section ParserTheorems.
Variable Date : Type.
Variable newDate : number -> Date.
Variable getDate getMonth getFullYear : Date -> option Z.

Local Abbreviation uLCD :=
  (updateLastChangeDate Date newDate getDate getMonth getFullYear).

(** X13.  [parseBranchData] takes the statistics from the tree as it was
    parsed and then rewrites the tree; the four numbers it returns are
    nevertheless the statistics of the tree it returns, and [authors] is
    passed through. *)
Theorem parseBranchData_statistics
        {A : Type} (t : TreeNode) (a : A) (bd : BranchData A) :
  parseBranchData Date newDate getDate getMonth getFullYear t a = Ok bd ->
  bd_authors bd = a /\
  (bd_minCommits bd, bd_maxCommits bd, bd_firstChange bd, bd_lastChange bd)
  = stats t /\
  stats (bd_tree bd) = stats t.
Proof.
  unfold parseBranchData.
  destruct (uLCD (updateAuthorValues t)) as [t1|] eqn:E; [|discriminate].
  simpl. intros [= <-]. simpl. repeat split.
  rewrite stats_addMetrics.
  rewrite (stats_updateLastChangeDate Date newDate getDate getMonth getFullYear
                                      _ _ E).
  apply stats_updateAuthorValues.
Qed.

(** X14.  [parseBranchData] fails, once the payload is parsed, exactly when
    the tree has a node of type ['tree'] without [children] that can be
    reached from the root through ['tree'] nodes. *)
Theorem parseBranchData_fails_iff {A : Type} (t : TreeNode) (a : A) :
  parseBranchData Date newDate getDate getMonth getFullYear t a = TypeError <->
  exists p n, reach t p = Some n /\ is_tree n = true /\ children n = None.
Proof.
  unfold parseBranchData.
  assert (E : uLCD (updateAuthorValues t) = TypeError <->
              exists p n, reach t p = Some n /\ is_tree n = true /\ children n = None).
  { rewrite (visit_fails_iff uLCD datedBlob _ datedBlob_blob
               (updateLastChangeDate_unfold Date newDate getDate getMonth getFullYear)).
    split; intros (p & n & Hr & Ht & Hc).
    - rewrite reach_updateAuthorValues in Hr.
      destruct (reach t p) as [m|] eqn:Rm; [|discriminate].
      injection Hr as <-. exists p, m.
      destruct (updateAuthorValues_shape m) as [T C].
      rewrite T in Ht. apply C in Hc. auto.
    - exists p, (updateAuthorValues n).
      rewrite reach_updateAuthorValues, Hr.
      destruct (updateAuthorValues_shape n) as [T C].
      rewrite T. split; [reflexivity|]. split; [exact Ht | now apply C]. }
  rewrite <- E.
  destruct (uLCD (updateAuthorValues t)); simpl; split; congruence.
Qed.

(** X15.  In the tree that [parseBranchData] returns, every blob of the
    parsed tree is in its place with its [authors] normalised, with
    [singleAuthor] telling whether the normalised map has one key and
    with [topContributor] the result of the scan of the normalised map. *)
Theorem parseBranchData_blobs
        {A : Type} (t : TreeNode) (a : A) (bd : BranchData A)
        (p : list nat) (b : TreeNode) :
  parseBranchData Date newDate getDate getMonth getFullYear t a = Ok bd -> node_at t p = Some b -> is_blob b = true ->
  exists b',
    node_at (bd_tree bd) p = Some b' /\
    authors b' = option_map sortedAuthors (authors b) /\
    singleAuthor b' = Some (singleAuthorFlag (authors b')) /\
    topContributor b' = Some (topContributorOf (authors b')).
Proof.
  unfold parseBranchData.
  destruct (uLCD (updateAuthorValues t)) as [t1|] eqn:E; [|discriminate].
  simpl. intros [= <-] Hat Hblob. simpl.
  assert (Hat1 : node_at (updateAuthorValues t) p = Some (updateAuthorValues b)).
  { now rewrite node_at_updateAuthorValues, Hat. }
  destruct (updateLastChangeDate_node_at Date newDate getDate getMonth getFullYear
              _ _ p _ E Hat1) as (n1 & Hn1 & T1 & A1).
  destruct (node_at_addMetrics p t1 n1 Hn1) as (b' & Hb' & _ & A' & S' & C').
  assert (B1 : is_blob n1 = true).
  { unfold is_blob in *. rewrite T1. now destruct b. }
  rewrite B1 in S', C'.
  exists b'. rewrite S', C', A', A1, updateAuthorValues_authors. auto.
Qed.
End ParserTheorems.

Lemma parseBranchData_statistics_witness :
  parseBranchData UTC.Date UTC.newDate UTC.getDate UTC.getMonth UTC.getFullYear
                  exampleTree tt = Ok exampleBranchData /\
  bd_authors exampleBranchData = tt /\
  (bd_minCommits exampleBranchData, bd_maxCommits exampleBranchData,
   bd_firstChange exampleBranchData, bd_lastChange exampleBranchData)
  = stats exampleTree /\
  stats (bd_tree exampleBranchData) = stats exampleTree.
Proof.
  split; [vm_compute; reflexivity|].
  apply (parseBranchData_statistics
           UTC.Date UTC.newDate UTC.getDate UTC.getMonth UTC.getFullYear
           exampleTree tt exampleBranchData).
  vm_compute. reflexivity.
Defined.

Lemma parseBranchData_blobs_witness :
  parseBranchData UTC.Date UTC.newDate UTC.getDate UTC.getMonth UTC.getFullYear
                  exampleTree tt = Ok exampleBranchData /\
  node_at exampleTree [0%nat] = Some exampleBlob /\ is_blob exampleBlob = true /\
  exists b',
    node_at (bd_tree exampleBranchData) [0%nat] = Some b' /\
    authors b' = option_map sortedAuthors (authors exampleBlob) /\
    singleAuthor b' = Some (singleAuthorFlag (authors b')) /\
    topContributor b' = Some (topContributorOf (authors b')).
Proof.
  split; [vm_compute; reflexivity|]. split; [reflexivity|]. split; [reflexivity|].
  apply (parseBranchData_blobs
           UTC.Date UTC.newDate UTC.getDate UTC.getMonth UTC.getFullYear
           exampleTree tt exampleBranchData [0%nat] exampleBlob).
  - vm_compute. reflexivity.
  - reflexivity.
  - reflexivity.
Defined.

(** ** More on the normaliser *)

(** X16.  [updateAuthorValues] keeps every node in its place with all its
    fields but [authors] and [children]; a node without [authors] stays
    without, and a node with [authors] gets a map, under distinct keys,
    of the same authors but one named ['__proto__']: the rebuilt map is a
    plain object, and the assignment to that name reaches the setter it
    inherits and defines nothing.  No other author is dropped and none is
    added. *)
Theorem updateAuthorValues_keeps_authors
        (t : TreeNode) (p : list nat) (n : TreeNode) :
  node_at t p = Some n ->
  exists n',
    node_at (updateAuthorValues t) p = Some n' /\
    type n' = type n /\ commits n' = commits n /\
    lastChangeEpoch n' = lastChangeEpoch n /\
    lastChangeEpochFormatted n' = lastChangeEpochFormatted n /\
    singleAuthor n' = singleAuthor n /\ topContributor n' = topContributor n /\
    match authors n with
    | None => authors n' = None
    | Some a =>
        exists a', authors n' = Some a' /\
                   NoDup (JsObj.keys a') /\
                   (forall k, In k (JsObj.keys a')
                              <-> In k (JsObj.keys a) /\ k <> "__proto__") /\
                   (NoDup (JsObj.keys a) ->
                    Permutation
                      (JsObj.keys a')
                      (filter (fun k => negb (String.eqb k "__proto__"))
                              (JsObj.keys a)))
    end.
Proof.
  intro Hat. exists (updateAuthorValues n).
  split; [now rewrite node_at_updateAuthorValues, Hat|].
  destruct n as [ty [a|] ch ep ef co sa tc]; simpl; repeat split.
  exists (sortedAuthors a). split; [reflexivity|].
  split; [apply NoDup_keys_sortedAuthors|].
  split; [apply keys_sortedAuthors|].
  intro Hnd. apply NoDup_Permutation;
    [apply NoDup_keys_sortedAuthors | now apply NoDup_filter |].
  intro k. rewrite keys_sortedAuthors, filter_In, negb_true_iff, String.eqb_neq.
  tauto.
Qed.

(** A blob with an author named ['__proto__'] and another. *)
Lemma updateAuthorValues_keeps_authors_witness :
  node_at (dir [protoBlob]) [0%nat] = Some protoBlob /\
  exists n',
    node_at (updateAuthorValues (dir [protoBlob])) [0%nat] = Some n' /\
    type n' = type protoBlob /\ commits n' = commits protoBlob /\
    lastChangeEpoch n' = lastChangeEpoch protoBlob /\
    lastChangeEpochFormatted n' = lastChangeEpochFormatted protoBlob /\
    singleAuthor n' = singleAuthor protoBlob /\
    topContributor n' = topContributor protoBlob /\
    match authors protoBlob with
    | None => authors n' = None
    | Some a =>
        exists a', authors n' = Some a' /\
                   NoDup (JsObj.keys a') /\
                   (forall k, In k (JsObj.keys a')
                              <-> In k (JsObj.keys a) /\ k <> "__proto__") /\
                   (NoDup (JsObj.keys a) ->
                    Permutation
                      (JsObj.keys a')
                      (filter (fun k => negb (String.eqb k "__proto__"))
                              (JsObj.keys a)))
    end.
Proof.
  split; [reflexivity|].
  apply (updateAuthorValues_keeps_authors (dir [protoBlob]) [0%nat] protoBlob).
  reflexivity.
Defined.

Example updateAuthorValues_protoBlob :
  authors (updateAuthorValues protoBlob) = Some [("B", of_Z 75)].
Proof. vm_compute. reflexivity. Qed.

(** On a map sorted by descending percentage whose first percentage is not
    negative, the scan stays on the first entry. *)
Lemma scan_sorted (k0 : string) (z0 : Z) (r : list (string * Z)) :
  (0 <= z0)%Z -> Forall (fun e => (snd e <= z0)%Z) r ->
  scanTop (map pctEntry ((k0, z0) :: r)) = (of_Z z0, k0).
Proof.
  intros H0 Hr. unfold scanTop. cbn [map fold_left].
  assert (E0 : topStep (of_Z (-1), "") (pctEntry (k0, z0)) = (of_Z z0, k0)).
  { unfold topStep, pctEntry. cbn [fst snd]. rewrite gt_of_Z.
    replace (-1 <? z0)%Z with true by (symmetry; apply Z.ltb_lt; lia).
    reflexivity. }
  rewrite E0. clear E0.
  induction Hr as [|[k z] r Hz _ IH]; [reflexivity|].
  cbn [map fold_left].
  assert (E : topStep (of_Z z0, k0) (pctEntry (k, z)) = (of_Z z0, k0)).
  { unfold topStep, pctEntry. cbn [fst snd]. rewrite gt_of_Z. simpl in Hz.
    replace (z0 <? z)%Z with false by (symmetry; apply Z.ltb_ge; lia).
    reflexivity. }
  rewrite E. exact IH.
Qed.

(** X18.  After normalisation of a map of binary64 weights, none
    negative, with a positive total and keys that are neither array
    indices nor ['__proto__'], the one author that [simplifyContributions]
    keeps is the author that [addTopContributor] names, and no author has
    a larger percentage. *)
Theorem simplified_author_is_top_contributor
        (n : TreeNode) (raw : list (string * Q)) :
  authors n = Some (map rawEntry raw) ->
  NoDup (map fst raw) ->
  (forall k, In k (map fst raw) -> JsObj.is_index k = false /\ k <> "__proto__") ->
  (forall k q, In (k, q) raw -> (0 <= q)%Q /\ binary64 q) ->
  (0 < total raw)%Q ->
  exists k0 z0,
    authors (simplifyContributions (updateAuthorValues n)) = Some [(k0, of_Z z0)] /\
    topContributorOf (authors (updateAuthorValues n)) = k0 /\
    In (k0, z0) (percentages raw) /\
    forall k q, In (k, q) raw -> (percentage q (roundedTotal raw) <= z0)%Z.
Proof.
  intros Hau Hnd Hkeys Hw HT.
  destruct (sortedAuthors_rawEntry raw Hnd Hkeys Hw HT) as [E R].
  set (es := sort (fun a b : string * Z => sub (snd (pctEntry b)) (snd (pctEntry a)))
                  (percentages raw)) in *.
  assert (P : Permutation es (percentages raw)) by apply sort_perm.
  assert (S : StronglySorted (desc snd) es)
    by (apply sort_sorted; apply after_byPercentage).
  assert (A1 : authors (updateAuthorValues n) = Some (map pctEntry es)).
  { now rewrite updateAuthorValues_authors, Hau; simpl; rewrite E. }
  destruct es as [|[k0 z0] r] eqn:Ees.
  { exfalso. apply Permutation_nil in P.
    unfold percentages in P. apply map_eq_nil in P. subst raw.
    revert HT. discriminate. }
  assert (Hin0 : In (k0, z0) (percentages raw)).
  { eapply Permutation_in; [exact P | now left]. }
  assert (H0 : (0 <= z0)%Z).
  { rewrite Forall_forall in R. exact (proj1 (R _ Hin0)). }
  inversion S as [|? ? _ Hr]; subst.
  exists k0, z0. split; [|split; [|split]].
  - assert (A2 : authors (simplifyContributions (updateAuthorValues n))
                 = option_map simplifiedAuthors (authors (updateAuthorValues n))).
    { now destruct (updateAuthorValues n) as [ty [a|] ch ep ef co sa tc]. }
    rewrite A2, A1. simpl. now rewrite simplifiedAuthors_first.
  - rewrite A1. unfold topContributorOf, JsObj.entries.
    now rewrite (scan_sorted k0 z0 r H0 Hr).
  - exact Hin0.
  - intros k q Hin.
    assert (Hk : In (k, percentage q (roundedTotal raw)) ((k0, z0) :: r)).
    { eapply Permutation_in; [apply Permutation_sym, P|].
      unfold percentages.
      change (k, percentage q (roundedTotal raw))
        with ((fun e : string * Q =>
                 (fst e, percentage (snd e) (roundedTotal raw))) (k, q)).
      now apply in_map. }
    destruct Hk as [Heq | Hk]; [injection Heq as _ <-; lia|].
    rewrite Forall_forall in Hr. exact (Hr _ Hk).
Qed.

Lemma simplified_author_is_top_contributor_witness :
  authors exampleBlob = Some (map rawEntry [("A", 3%Q); ("B", 1%Q)]) /\
  exists k0 z0,
    authors (simplifyContributions (updateAuthorValues exampleBlob))
    = Some [(k0, of_Z z0)] /\
    topContributorOf (authors (updateAuthorValues exampleBlob)) = k0 /\
    In (k0, z0) (percentages [("A", 3%Q); ("B", 1%Q)]) /\
    forall k q, In (k, q) [("A", 3%Q); ("B", 1%Q)] ->
                (percentage q (roundedTotal [("A", 3%Q); ("B", 1%Q)]) <= z0)%Z.
Proof.
  split; [reflexivity|].
  apply (simplified_author_is_top_contributor exampleBlob [("A", 3%Q); ("B", 1%Q)]).
  - reflexivity.
  - simpl. distinct_strings.
  - simpl. intros k [<- | [<- | []]]; split; (reflexivity || discriminate).
  - simpl. intros k q [H | [H | []]]; injection H as _ <-;
      (split; [discriminate | vm_compute; reflexivity]).
  - reflexivity.
Defined.

(** ** The annotation passes as one traversal *)

Lemma addTopContributor_annotateEveryBlob (t : TreeNode) :
  addTopContributor (annotateEveryBlob t) = annotateEveryBlob t.
Proof.
  induction t as [ty au ep ef co sa tc | ty au cs ep ef co sa tc IH]
    using TreeNode_ind'; simpl.
  - now destruct (String.eqb ty "blob").
  - assert (E : map addTopContributor (map annotateEveryBlob cs)
                = map annotateEveryBlob cs).
    { rewrite map_map. apply map_ext_in. intros c Hc.
      rewrite Forall_forall in IH. now apply IH. }
    destruct cs as [|c cs]; simpl in *.
    + now destruct (String.eqb ty "blob").
    + rewrite E. now destruct (String.eqb ty "blob").
Qed.

Lemma addMetrics_annotateEveryBlob (t : TreeNode) :
  addMetrics t = annotateEveryBlob t.
Proof.
  unfold addMetrics.
  induction t as [ty au ep ef co sa tc | ty au cs ep ef co sa tc IH]
    using TreeNode_ind'; simpl.
  - reflexivity.
  - assert (E : map addTopContributor
                    (map (fun child => addTopContributor (addSingleAuthor child)) cs)
                = map annotateEveryBlob cs).
    { rewrite map_map. apply map_ext_in. intros c Hc.
      rewrite Forall_forall in IH. rewrite (IH c Hc).
      apply addTopContributor_annotateEveryBlob. }
    destruct cs as [|c cs]; simpl in *; [reflexivity|].
    now rewrite E.
Qed.

Lemma annotateEveryBlob_idempotent (t : TreeNode) :
  annotateEveryBlob (annotateEveryBlob t) = annotateEveryBlob t.
Proof.
  induction t as [ty au ep ef co sa tc | ty au cs ep ef co sa tc IH]
    using TreeNode_ind'; simpl.
  - now destruct (String.eqb ty "blob").
  - f_equal; try now destruct (String.eqb ty "blob").
    f_equal. rewrite map_map. apply map_ext_in. intros c Hc.
    rewrite Forall_forall in IH. now apply IH.
Qed.

Lemma annotateEveryBlob_addTopContributor (t : TreeNode) :
  annotateEveryBlob (addTopContributor t) = annotateEveryBlob t.
Proof.
  induction t as [ty au ep ef co sa tc | ty au cs ep ef co sa tc IH]
    using TreeNode_ind'; simpl.
  - now destruct (String.eqb ty "blob").
  - assert (E : map annotateEveryBlob (map addTopContributor cs)
                = map annotateEveryBlob cs).
    { rewrite map_map. apply map_ext_in. intros c Hc.
      rewrite Forall_forall in IH. now apply IH. }
    destruct cs as [|c cs]; simpl in *.
    + now destruct (String.eqb ty "blob").
    + rewrite E. now destruct (String.eqb ty "blob").
Qed.

(** X19.  Running [addMetrics] on a tree that it has annotated changes
    nothing, although the traversal visits a blob once for every ancestor
    it has. *)
Theorem addMetrics_idempotent (t : TreeNode) :
  addMetrics (addMetrics t) = addMetrics t.
Proof.
  rewrite !addMetrics_annotateEveryBlob. apply annotateEveryBlob_idempotent.
Qed.

(** X20.  The two annotations can be called in either order:
    [addSingleAuthor] after [addTopContributor] gives the tree that
    [addMetrics] gives. *)
Theorem annotations_commute (t : TreeNode) :
  addSingleAuthor (addTopContributor t) = addMetrics t.
Proof.
  rewrite addMetrics_annotateEveryBlob.
  destruct t as [ty au ch ep ef co sa tc]. simpl.
  destruct ch as [[|c cs]|]; simpl; try reflexivity.
  f_equal. f_equal.
  change (addTopContributor (addSingleAuthor (addTopContributor c))
            :: map (fun child => addTopContributor (addSingleAuthor child))
                   (map addTopContributor cs))
    with (map addMetrics (map addTopContributor (c :: cs))).
  change (annotateEveryBlob c :: map annotateEveryBlob cs)
    with (map annotateEveryBlob (c :: cs)).
  rewrite map_map. apply map_ext. intro x.
  now rewrite addMetrics_annotateEveryBlob, annotateEveryBlob_addTopContributor.
Qed.

(** ** The statistics are integers in order *)

Section MinMax.
Variable f : TreeNode -> list Z.
Variables gmin gmax : TreeNode -> number.
Hypothesis f_small : forall n, f n = [] \/ exists x, f n = [x].
Hypothesis gmin_eq : forall n,
    gmin n = let m := fold_left (fun m child => Math_min m (gmin child)) (kids n)
                                (match f n with
                                 | [] => PInf
                                 | x :: _ => Math_min PInf (of_Z x)
                                 end) in
             if eqb m PInf then of_Z 0 else m.
Hypothesis gmax_eq : forall n,
    gmax n = fold_left (fun m child => Math_max m (gmax child)) (kids n)
                       (match f n with
                        | [] => of_Z 0
                        | x :: _ => Math_max (of_Z 0) (of_Z x)
                        end).

Lemma min_max_children (cs : list TreeNode) :
  Forall (fun c => exists a b,
              gmin c = of_Z a /\ gmax c = of_Z b /\ (a <= b)%Z /\ (0 <= b)%Z /\
              (a = 0%Z \/ In a (flat_map f (nodes c)))) cs ->
  forall (o : option Z) (B : Z) (L : list Z),
    (0 <= B)%Z ->
    (forall x, o = Some x -> (x <= B)%Z /\ (x = 0%Z \/ In x L)) ->
    exists o' B',
      fold_left (fun m child => Math_min m (gmin child)) cs (ext o) = ext o' /\
      fold_left (fun m child => Math_max m (gmax child)) cs (of_Z B) = of_Z B' /\
      (0 <= B')%Z /\
      (forall x, o' = Some x ->
                 (x <= B')%Z /\
                 (x = 0%Z \/ In x (L ++ flat_map (fun c => flat_map f (nodes c)) cs))).
Proof.
  induction 1 as [|c cs (a & b & Ha & Hb & Hab & Hb0 & Hin) _ IH];
    intros o B L HB Ho; cbn [fold_left flat_map].
  - exists o, B. rewrite app_nil_r. auto.
  - rewrite Ha, Hb, Math_min_ext, Math_max_of_Z.
    destruct (IH (Some (min_opt o a)) (Z.max B b) (L ++ flat_map f (nodes c)))
      as (o' & B' & E1 & E2 & HB' & Ho').
    + lia.
    + intros x [= <-]. destruct o as [y|]; simpl.
      * destruct (Ho y eq_refl) as [Hy Hy'].
        split; [lia|].
        destruct (Z.min_spec y a) as [[_ ->] | [_ ->]].
        -- destruct Hy'; [now left | right; apply in_or_app; now left].
        -- destruct Hin; [now left | right; apply in_or_app; now right].
      * split; [lia|].
        destruct Hin; [now left | right; apply in_or_app; now right].
    + exists o', B'. rewrite app_assoc. auto.
Qed.

Lemma min_max_ordered (t : TreeNode) :
  exists a b,
    gmin t = of_Z a /\ gmax t = of_Z b /\ (a <= b)%Z /\ (0 <= b)%Z /\
    (a = 0%Z \/ In a (flat_map f (nodes t))).
Proof.
  induction t as [ty au ep ef co sa tc | ty au cs ep ef co sa tc IH]
    using TreeNode_ind'; rewrite gmin_eq, gmax_eq.
  - change (kids (mkNode ty au None ep ef co sa tc)) with (@nil TreeNode).
    cbn [fold_left nodes flat_map]. rewrite app_nil_r.
    destruct (f_small (mkNode ty au None ep ef co sa tc)) as [-> | [x ->]].
    + exists 0%Z, 0%Z. repeat split; auto; lia.
    + exists x, (Z.max 0 x). rewrite Math_max_of_Z.
      repeat split; try lia. right. now left.
  - change (kids (mkNode ty au (Some cs) ep ef co sa tc)) with cs.
    simpl nodes. cbn [flat_map]. rewrite flat_map_nodes.
    set (n := mkNode ty au (Some cs) ep ef co sa tc).
    assert (G : exists o B,
               match f n with [] => PInf | x :: _ => Math_min PInf (of_Z x) end
               = ext o /\
               match f n with
               | [] => of_Z 0
               | x :: _ => Math_max (of_Z 0) (of_Z x)
               end = of_Z B /\
               (0 <= B)%Z /\
               (forall x, o = Some x -> (x <= B)%Z /\ (x = 0%Z \/ In x (f n)))).
    { destruct (f_small n) as [-> | [x ->]].
      - exists None, 0%Z. repeat split; try lia; discriminate.
      - exists (Some x), (Z.max 0 x). rewrite Math_max_of_Z.
        repeat split; try lia; injection H as <-; try lia. right. now left. }
    destruct G as (o & B & -> & -> & HB & Ho).
    destruct (min_max_children cs IH o B (f n) HB Ho)
      as (o' & B' & -> & -> & HB' & Ho').
    cbv zeta. destruct o' as [x|]; simpl.
    + destruct (Ho' x eq_refl) as [Hx Hx'].
      exists x, B'. auto.
    + exists 0%Z, B'. repeat split; auto; lia.
Qed.
End MinMax.

Lemma commitCounts_nonneg (t : TreeNode) (x : Z) :
  In x (commitCounts t) -> (0 <= x)%Z.
Proof.
  unfold commitCounts. intro H. apply in_flat_map in H as (n & _ & Hn).
  unfold commitCount in Hn.
  destruct (is_blob n), (commits n); simpl in Hn; try tauto.
  destruct Hn as [<- | []]. lia.
Qed.

(** X21.  Whatever the tree, the four statistics are integers, never
    [Infinity] or [NaN]: the commit statistics satisfy
    [0 <= min <= max], the epoch statistics [first <= last] and
    [0 <= last], and each minimum is 0 or a value that a blob of the tree
    has. *)
Theorem statistics_are_ordered (t : TreeNode) :
  (exists a b,
      getMinCommits t = of_Z a /\ getMaxCommits t = of_Z b /\
      (0 <= a <= b)%Z /\ (a = 0%Z \/ In a (commitCounts t))) /\
  (exists a b,
      getFirstChangeEpoch t = of_Z a /\ getLastChangeEpoch t = of_Z b /\
      (a <= b)%Z /\ (0 <= b)%Z /\ (a = 0%Z \/ In a (changeEpochs t))).
Proof.
  split.
  - destruct (min_max_ordered commitCount getMinCommits getMaxCommits
                commitCount_small getMinCommits_unfold getMaxCommits_unfold t)
      as (a & b & Ha & Hb & Hab & Hb0 & Hin).
    exists a, b. repeat split; auto.
    destruct Hin as [-> | Hin]; [lia | now apply (commitCounts_nonneg t)].
  - apply (min_max_ordered changeEpoch getFirstChangeEpoch getLastChangeEpoch
             changeEpoch_small getFirstChangeEpoch_unfold getLastChangeEpoch_unfold).
Qed.

Lemma populated_exampleTree :
  populated commitCount exampleTree /\ populated changeEpoch exampleTree.
Proof.
  unfold populated. simpl. split; repeat constructor; discriminate.
Qed.

Lemma getMinCommits_minimum_witness :
  populated commitCount exampleTree /\
  exists m, minimum (commitCounts exampleTree) = Some m /\
            getMinCommits exampleTree = of_Z m.
Proof.
  split; [exact (proj1 populated_exampleTree)|].
  apply (getMinCommits_minimum exampleTree). exact (proj1 populated_exampleTree).
Defined.

Lemma getFirstChangeEpoch_minimum_witness :
  populated changeEpoch exampleTree /\
  exists m, minimum (changeEpochs exampleTree) = Some m /\
            getFirstChangeEpoch exampleTree = of_Z m.
Proof.
  split; [exact (proj2 populated_exampleTree)|].
  apply (getFirstChangeEpoch_minimum exampleTree). exact (proj2 populated_exampleTree).
Defined.

(** ** The complexity metric and normalisation *)

Lemma nodes_updateAuthorValues (t : TreeNode) :
  nodes (updateAuthorValues t) = map updateAuthorValues (nodes t).
Proof.
  induction t as [ty au ep ef co sa tc | ty au cs ep ef co sa tc IH]
    using TreeNode_ind'; simpl; [reflexivity|].
  f_equal. induction IH as [|c cs Hc _ IHcs]; simpl; [reflexivity|].
  now rewrite map_app, Hc, IHcs.
Qed.

Lemma has_In_keys {V : Type} (o : JsObj.t V) (k : string) :
  JsObj.has o k = true <-> In k (JsObj.keys o).
Proof.
  rewrite In_keys_get. unfold JsObj.has.
  destruct (JsObj.get o k); split; congruence.
Qed.

Lemma has_sortedAuthors (a : JsObj.t number) (k : string) :
  k <> "__proto__" -> JsObj.has (sortedAuthors a) k = JsObj.has a k.
Proof.
  intro Hk.
  pose proof (has_In_keys (sortedAuthors a) k) as H1.
  pose proof (has_In_keys a k) as H2.
  pose proof (keys_sortedAuthors a k) as H3.
  destruct (JsObj.has (sortedAuthors a) k), (JsObj.has a k); try reflexivity.
  - symmetry. apply H2. apply H3. now apply H1.
  - apply H1. apply H3. split; [now apply H2 | exact Hk].
Qed.

Lemma carries_updateAuthorValues (n : TreeNode) (a : string) :
  a <> "__proto__" -> carries (updateAuthorValues n) a = carries n a.
Proof.
  intro Ha. unfold carries. rewrite updateAuthorValues_authors.
  destruct (authors n); simpl; [now apply has_sortedAuthors | reflexivity].
Qed.

Lemma is_blob_updateAuthorValues (n : TreeNode) :
  is_blob (updateAuthorValues n) = is_blob n.
Proof. now destruct n. Qed.

Lemma blobCount_updateAuthorValues (n : TreeNode) :
  blobCount (updateAuthorValues n) = blobCount n.
Proof.
  unfold blobCount. rewrite nodes_updateAuthorValues.
  induction (nodes n) as [|m l IH]; simpl; [reflexivity|].
  rewrite is_blob_updateAuthorValues. destruct (is_blob m); simpl; now rewrite IH.
Qed.

Lemma well_formed_updateAuthorValues (t : TreeNode) :
  well_formed t -> well_formed (updateAuthorValues t).
Proof.
  unfold well_formed. rewrite nodes_updateAuthorValues, Forall_map.
  apply Forall_impl. intros n [L D]. split.
  - unfold leaf_blob in *. rewrite is_blob_updateAuthorValues. intro B.
    destruct n as [ty au [cs|] ep ef co sa tc]; simpl in *; [|now left].
    right. destruct (L B) as [H | H]; [discriminate|].
    injection H as ->. reflexivity.
  - unfold distinct_keys. rewrite updateAuthorValues_authors.
    destruct (authors n); simpl; [apply NoDup_keys_sortedAuthors | exact I].
Qed.

Lemma calculateComplexity_updateAuthorValues (t : TreeNode) :
  calculateComplexity (updateAuthorValues t) = calculateComplexity t.
Proof.
  induction t as [ty au ep ef co sa tc | ty au cs ep ef co sa tc IH]
    using TreeNode_ind'; [reflexivity|].
  cbn [updateAuthorValues calculateComplexity].
  destruct (String.eqb ty "blob"); [reflexivity|].
  rewrite !fold_left_sum, map_map. do 2 f_equal.
  induction IH as [|c cs Hc _ IHcs]; cbn [map]; [reflexivity|].
  now rewrite Hc, IHcs.
Qed.

Lemma credits_updateAuthorValues (t : TreeNode) (a : string) :
  a <> "__proto__" -> credits (updateAuthorValues t) a = credits t a.
Proof.
  intro Ha. unfold credits. rewrite nodes_updateAuthorValues.
  induction (nodes t) as [|n l IH]; cbn [map flat_map]; [reflexivity|].
  now rewrite carries_updateAuthorValues, calculateComplexity_updateAuthorValues, IH.
Qed.

(** X26.  On a well-formed tree, the entry that
    [parseBranchDataforComplexityMetrics] gives an author, computed on the
    normalised tree, is the entry that [calculateComplexityMetric] gives
    on the tree as parsed: the metric reads who is listed, not the
    weights. *)
Theorem complexity_ignores_normalisation (t : TreeNode) (a : string) :
  well_formed t ->
  JsObj.get (parseBranchDataforComplexityMetrics t) a
  = JsObj.get (calculateComplexityMetric t) a.
Proof.
  intro W. unfold parseBranchDataforComplexityMetrics, calculateComplexityMetric.
  rewrite (get_traverseTree
             _ (well_formed_distinct _ (well_formed_updateAuthorValues t W))).
  rewrite (get_traverseTree _ (well_formed_distinct _ W)).
  cbn [JsObj.get JsObj.empty].
  destruct (string_dec a "__proto__") as [-> | Ha].
  - now rewrite !fold_credited_proto.
  - now rewrite (credits_updateAuthorValues t a Ha).
Qed.

Lemma complexity_ignores_normalisation_witness :
  well_formed sharedTree /\
  JsObj.get (parseBranchDataforComplexityMetrics sharedTree) "A"
  = JsObj.get (calculateComplexityMetric sharedTree) "A".
Proof.
  split; [exact well_formed_sharedTree|].
  apply (complexity_ignores_normalisation sharedTree "A").
  exact well_formed_sharedTree.
Defined.
